(** * Suffix tree (Ukkonen's construction) and its pattern locator

    A shallow embedding of [include/Alphabet.h] and [include/SuffixTree.h].

    Conventions of the embedding.
    - A [char] is the integer it holds.  The [int32_t] references, text
      positions and lengths are integers [Z]; the conversions between
      [size_t], [uint32_t] and [int32_t] that the source performs are written
      out with [to_int32] and [to_uint32].  Signed arithmetic is exact: its
      overflow is undefined in C++ and does not happen below the capacity
      bound stated with the theorems.
    - [std::vector], [std::array] and [std::string] are lists; an access
      outside the container is undefined behaviour and yields [Undefined],
      and so does reading a member that was never written.
    - A C++ reference is the address it was bound to: the members are read
      where the source reads them.
    - Every [while] loop takes a bound on its number of iterations and yields
      [OutOfFuel] when the bound is reached.
    - [assert] is the release configuration's (NDEBUG): it evaluates nothing.
      The condition an assertion tests is stated as a predicate where a
      property below is about it. *)

From Stdlib Require Import ZArith Lia.
From stdpp Require Import base list numbers.

Local Open Scope Z_scope.

(** ** Outcomes, containers and integer conversions *)

Inductive result (A : Type) : Type :=
| Ok (a : A)
| Undefined
| OutOfFuel.
Arguments Ok {A} a.
Arguments Undefined {A}.
Arguments OutOfFuel {A}.

Definition zlen {A} (l : list A) : Z := Z.of_nat (length l).

Definition zlookup {A} (l : list A) (i : Z) : option A :=
  if 0 <=? i then l !! Z.to_nat i else None.

Definition zupdate {A} (l : list A) (i : Z) (x : A) : list A :=
  if 0 <=? i then <[Z.to_nat i := x]> l else l.

Definition of_option {A} (o : option A) : result A :=
  match o with Some a => Ok a | None => Undefined end.

Definition to_uint32 (z : Z) : Z := z mod 4294967296.
Definition to_int32 (z : Z) : Z := (z + 2147483648) mod 4294967296 - 2147483648.
Definition int32_min : Z := -2147483648.

(** ** Alphabet.h *)

Module Alphabet.

(** [template <char... letters> class Alphabet]: the template arguments are
    the list [letters]. *)

Definition max_alphabet_size : Z := 256.

Definition size (letters : list Z) : Z := zlen letters.

Definition is_exist (letters : list Z) (c : Z) : bool :=
  fold_left (fun exist l => exist || (c =? l)) letters false.

Record Accumulator := mkAcc { acc_indices : list Z; acc_size : Z }.

(** [operator<<]: [helper.indices[c] = helper.size++]. *)
Definition shl (helper : Accumulator) (c : Z) : Accumulator :=
  {| acc_indices := zupdate (acc_indices helper) c (acc_size helper);
     acc_size := acc_size helper + 1 |}.

Definition indices (letters : list Z) : list Z :=
  acc_indices
    (fold_left shl letters
       {| acc_indices := replicate (Z.to_nat max_alphabet_size) (-1);
          acc_size := 0 |}).

(** [char_to_index[c]] *)
Definition index_of (letters : list Z) (c : Z) : result Z :=
  of_option (zlookup (indices letters) c).

Fixpoint is_alphabet_of (letters : list Z) (str : list Z) : result bool :=
  match str with
  | [] => Ok true
  | c :: rest =>
      match index_of letters c with
      | Ok i => if i <? 0 then Ok false else is_alphabet_of letters rest
      | Undefined => Undefined
      | OutOfFuel => OutOfFuel
      end
  end.

End Alphabet.

(** ** SuffixTree.h: data *)

Definition terminal_symbol : Z := 0.

Definition SuffixTreeAlphabet (letters : list Z) : list Z :=
  terminal_symbol :: letters.

Definition no_connection : Z := -1.

(** [Node::suffix_connection] is left unwritten by [Node()]: [None]. *)
Record Node := mkNode {
  suffix_connection : option Z;
  edges_to_childs : list Z
}.

(** The member [length] is [edge_length] here ([length] is the lists'). *)
Record Edge := mkEdge {
  start_position : Z;
  edge_length : Z;
  next_node_addr : Z
}.

Record InnerPosition := mkPos {
  node_addr : Z;
  edge_addr : Z;
  position : Z
}.

(** The members of a tree, and with them the function-local static
    [leaf_addr_allocator] of [create_new_edge_to_leaf_from_node], which
    outlives every tree of the process. *)
Record SuffixTree := mkTree {
  expanded_string : list Z;
  root_addr : Z;
  node_allocator : list Node;
  edge_allocator : list Edge;
  leaf_addr_allocator : Z
}.

Definition set_nodes (t : SuffixTree) (ns : list Node) : SuffixTree :=
  {| expanded_string := expanded_string t; root_addr := root_addr t;
     node_allocator := ns; edge_allocator := edge_allocator t;
     leaf_addr_allocator := leaf_addr_allocator t |}.

Definition set_edges (t : SuffixTree) (es : list Edge) : SuffixTree :=
  {| expanded_string := expanded_string t; root_addr := root_addr t;
     node_allocator := node_allocator t; edge_allocator := es;
     leaf_addr_allocator := leaf_addr_allocator t |}.

Definition set_root (t : SuffixTree) (r : Z) : SuffixTree :=
  {| expanded_string := expanded_string t; root_addr := r;
     node_allocator := node_allocator t; edge_allocator := edge_allocator t;
     leaf_addr_allocator := leaf_addr_allocator t |}.

Definition set_leaf_alloc (t : SuffixTree) (c : Z) : SuffixTree :=
  {| expanded_string := expanded_string t; root_addr := root_addr t;
     node_allocator := node_allocator t; edge_allocator := edge_allocator t;
     leaf_addr_allocator := c |}.

(** ** The state and error monad of the member functions *)

Definition M (A : Type) : Type := SuffixTree -> result (A * SuffixTree).

Definition ret {A} (a : A) : M A := fun t => Ok (a, t).

Definition bind {A B} (m : M A) (f : A -> M B) : M B :=
  fun t =>
    match m t with
    | Ok (a, t') => f a t'
    | Undefined => Undefined
    | OutOfFuel => OutOfFuel
    end.

Definition read {A} (f : SuffixTree -> result A) : M A :=
  fun t =>
    match f t with
    | Ok a => Ok (a, t)
    | Undefined => Undefined
    | OutOfFuel => OutOfFuel
    end.

Definition out_of_fuel {A} : M A := fun _ => OutOfFuel.

Declare Scope tree_scope.
Delimit Scope tree_scope with tree.
Notation "x <- c1 ;; c2" := (bind c1 (fun x => c2))
  (at level 100, c1 at next level, right associativity) : tree_scope.
Notation "c1 ;;; c2" := (bind c1 (fun _ => c2))
  (at level 100, right associativity) : tree_scope.
Local Open Scope tree_scope.

(** ** SuffixTree.h: member functions *)

Section Engine.

(** The template argument [Alphabet] of [SuffixTree]. *)
Variable letters : list Z.

Definition Node_new : Node :=
  {| suffix_connection := None;
     edges_to_childs := replicate (length letters) no_connection |}.

(** A value-initialised [Edge]. *)
Definition Edge_new : Edge :=
  {| start_position := 0; edge_length := 0; next_node_addr := 0 |}.

Definition is_leaf (ref : Z) : bool := ref <? 0.

Definition leaf_num_of (ref : Z) : Z := - ref - 1.

Definition allocate_node : M Z := fun t =>
  let ns := node_allocator t ++ [Node_new] in
  Ok (to_int32 (zlen ns - 1), set_nodes t ns).

Definition allocate_edge : M Z := fun t =>
  let es := edge_allocator t ++ [Edge_new] in
  Ok (to_int32 (zlen es - 1), set_edges t es).

Definition get_node_by (ref : Z) : M Node :=
  read (fun t => of_option (zlookup (node_allocator t) ref)).

Definition get_edge_by (ref : Z) : M Edge :=
  read (fun t => of_option (zlookup (edge_allocator t) ref)).

(** Assignments through [Node&] and [Edge&]. *)
Definition modify_node (ref : Z) (f : Node -> Node) : M unit := fun t =>
  match zlookup (node_allocator t) ref with
  | Some nd => Ok (tt, set_nodes t (zupdate (node_allocator t) ref (f nd)))
  | None => Undefined
  end.

Definition modify_edge (ref : Z) (f : Edge -> Edge) : M unit := fun t =>
  match zlookup (edge_allocator t) ref with
  | Some e => Ok (tt, set_edges t (zupdate (edge_allocator t) ref (f e)))
  | None => Undefined
  end.

Definition assign_suffix_connection (ref : Z) (target : Z) : M unit :=
  modify_node ref (fun nd =>
    {| suffix_connection := Some target;
       edges_to_childs := edges_to_childs nd |}).

(** [get_node_by(ref).edges_to_childs[i] = e] *)
Definition assign_edge_to_child (ref : Z) (i : Z) (e : Z) : M unit := fun t =>
  match zlookup (node_allocator t) ref with
  | Some nd =>
      match zlookup (edges_to_childs nd) i with
      | Some _ =>
          Ok (tt, set_nodes t (zupdate (node_allocator t) ref
                 {| suffix_connection := suffix_connection nd;
                    edges_to_childs := zupdate (edges_to_childs nd) i e |}))
      | None => Undefined
      end
  | None => Undefined
  end.

Definition assign_start_position (ref : Z) (v : Z) : M unit :=
  modify_edge ref (fun e =>
    {| start_position := v; edge_length := edge_length e;
       next_node_addr := next_node_addr e |}).

Definition assign_length (ref : Z) (v : Z) : M unit :=
  modify_edge ref (fun e =>
    {| start_position := start_position e; edge_length := v;
       next_node_addr := next_node_addr e |}).

Definition assign_next_node_addr (ref : Z) (v : Z) : M unit :=
  modify_edge ref (fun e =>
    {| start_position := start_position e; edge_length := edge_length e;
       next_node_addr := v |}).

(** [get_node_by(ref).suffix_connection], read *)
Definition suffix_connection_of (ref : Z) : M Z :=
  nd <- get_node_by ref ;;
  read (fun _ => of_option (suffix_connection nd)).

(** [get_node_by(ref).edges_to_childs[i]], read *)
Definition edge_to_child (ref : Z) (i : Z) : M Z :=
  nd <- get_node_by ref ;;
  read (fun _ => of_option (zlookup (edges_to_childs nd) i)).

(** [expanded_string[i]]; [std::string] holds a null character at [size()]. *)
Definition char_at (i : Z) : M Z :=
  read (fun t =>
    if i =? zlen (expanded_string t) then Ok 0
    else of_option (zlookup (expanded_string t) i)).

Definition alphabet_index_of (c : Z) : M Z :=
  read (fun _ => Alphabet.index_of letters c).

Definition get_dummy : M Z :=
  r <- read (fun t => Ok (root_addr t)) ;;
  suffix_connection_of r.

Definition is_dummy (node : Z) : M bool :=
  d <- get_dummy ;; ret (node =? d).

Definition length_to_end_from (start_pos : Z) : M Z :=
  read (fun t => Ok (to_int32 (zlen (expanded_string t) - start_pos))).

(** The loop of [create_dummy_node] over the slots of [dummy.edges_to_childs]. *)
Fixpoint create_dummy_edges (dummy_addr : Z) (slots : list Z) : M unit :=
  match slots with
  | [] => ret tt
  | i :: rest =>
      edge_addr <- allocate_edge ;;
      assign_edge_to_child dummy_addr i edge_addr ;;;
      assign_start_position edge_addr (-1) ;;;
      assign_length edge_addr 1 ;;;
      r <- read (fun t => Ok (root_addr t)) ;;
      assign_next_node_addr edge_addr r ;;;
      create_dummy_edges dummy_addr rest
  end.

Definition create_dummy_node : M Z :=
  dummy_addr <- allocate_node ;;
  assign_suffix_connection dummy_addr dummy_addr ;;;
  create_dummy_edges dummy_addr (map Z.of_nat (seq 0 (length letters))) ;;;
  ret dummy_addr.

(** The [while] loop of [go_using_suffix_connection]. *)
Fixpoint skip_edges (fuel : nat) (source_edge : Z) (processed_length : Z)
    (iterator : InnerPosition) : M InnerPosition :=
  match fuel with
  | O => out_of_fuel
  | S fuel' =>
      edge <- get_edge_by (edge_addr iterator) ;;
      if position iterator >=? edge_length edge then
        let node' := next_node_addr edge in
        let position' := position iterator - edge_length edge in
        let processed' := processed_length + edge_length edge in
        if position' =? 0 then
          ret {| node_addr := node'; edge_addr := no_connection;
                 position := position' |}
        else
          src <- get_edge_by source_edge ;;
          ch <- char_at (start_position src + processed') ;;
          i <- alphabet_index_of ch ;;
          e <- edge_to_child node' i ;;
          skip_edges fuel' source_edge processed'
            {| node_addr := node'; edge_addr := e; position := position' |}
      else ret iterator
  end.

Definition go_using_suffix_connection (fuel : nat) (iterator : InnerPosition)
  : M InnerPosition :=
  let source_edge := edge_addr iterator in
  node' <- suffix_connection_of (node_addr iterator) ;;
  if position iterator =? 0 then
    ret {| node_addr := node'; edge_addr := no_connection;
           position := position iterator |}
  else
    src <- get_edge_by source_edge ;;
    ch <- char_at (start_position src) ;;
    i <- alphabet_index_of ch ;;
    e <- edge_to_child node' i ;;
    skip_edges fuel source_edge 0
      {| node_addr := node'; edge_addr := e; position := position iterator |}.

Definition is_position_in_node_without_path (new_ch_pos : Z)
    (iterator : InnerPosition) : M bool :=
  ch <- char_at new_ch_pos ;;
  if position iterator =? 0 then
    i <- alphabet_index_of ch ;;
    e <- edge_to_child (node_addr iterator) i ;;
    ret (e =? no_connection)
  else ret false.

Definition is_position_in_edge_without_path (new_ch_pos : Z)
    (iterator : InnerPosition) : M bool :=
  if position iterator =? 0 then ret false
  else
    edge <- get_edge_by (edge_addr iterator) ;;
    ch <- char_at new_ch_pos ;;
    ch' <- char_at (start_position edge + position iterator) ;;
    ret (negb (ch' =? ch)).

Definition add_node_in (iterator : InnerPosition) : M Z :=
  new_edge_addr <- allocate_edge ;;
  new_node_addr <- allocate_node ;;
  edge <- get_edge_by (edge_addr iterator) ;;
  let ch_pos := to_uint32 (start_position edge + position iterator) in
  ch <- char_at ch_pos ;;
  edge <- get_edge_by (edge_addr iterator) ;;
  assign_length new_edge_addr (edge_length edge - position iterator) ;;;
  assign_start_position new_edge_addr (to_int32 ch_pos) ;;;
  edge <- get_edge_by (edge_addr iterator) ;;
  assign_next_node_addr new_edge_addr (next_node_addr edge) ;;;
  i <- alphabet_index_of ch ;;
  assign_edge_to_child new_node_addr i new_edge_addr ;;;
  assign_length (edge_addr iterator) (position iterator) ;;;
  assign_next_node_addr (edge_addr iterator) new_node_addr ;;;
  ret new_node_addr.

(** [--leaf_addr_allocator] on the static counter; below [INT32_MIN] the
    decrement is undefined. *)
Definition next_leaf_addr : M Z := fun t =>
  let v := leaf_addr_allocator t - 1 in
  if v <? int32_min then Undefined else Ok (v, set_leaf_alloc t v).

Definition create_new_edge_to_leaf_from_node (new_ch_pos : Z) (node : Z)
  : M unit :=
  new_leaf_addr <- next_leaf_addr ;;
  ch <- char_at new_ch_pos ;;
  edge_addr <- allocate_edge ;;
  assign_start_position edge_addr (to_int32 new_ch_pos) ;;;
  len <- length_to_end_from (to_int32 new_ch_pos) ;;
  assign_length edge_addr len ;;;
  assign_next_node_addr edge_addr new_leaf_addr ;;;
  i <- alphabet_index_of ch ;;
  assign_edge_to_child node i edge_addr.

Definition first_stage (new_ch_pos : Z) (iterator : InnerPosition)
  : M InnerPosition := ret iterator.

(** The first [while] loop of [second_stage]. *)
Fixpoint split_edges (fuel loop : nat) (new_ch_pos : Z) (last_node_addr : Z)
    (iterator : InnerPosition) : M (Z * InnerPosition) :=
  match loop with
  | O => out_of_fuel
  | S loop' =>
      b <- is_position_in_edge_without_path new_ch_pos iterator ;;
      if b then
        new_node_addr <- add_node_in iterator ;;
        assign_suffix_connection last_node_addr new_node_addr ;;;
        create_new_edge_to_leaf_from_node new_ch_pos new_node_addr ;;;
        iterator' <- go_using_suffix_connection fuel iterator ;;
        split_edges fuel loop' new_ch_pos new_node_addr iterator'
      else ret (last_node_addr, iterator)
  end.

(** The second [while] loop of [second_stage]. *)
Fixpoint add_leaves (fuel loop : nat) (new_ch_pos : Z)
    (iterator : InnerPosition) : M InnerPosition :=
  match loop with
  | O => out_of_fuel
  | S loop' =>
      b <- is_position_in_node_without_path new_ch_pos iterator ;;
      if b then
        create_new_edge_to_leaf_from_node new_ch_pos (node_addr iterator) ;;;
        iterator' <- go_using_suffix_connection fuel iterator ;;
        add_leaves fuel loop' new_ch_pos iterator'
      else ret iterator
  end.

Definition second_stage (fuel : nat) (new_ch_pos : Z)
    (iterator : InnerPosition) : M InnerPosition :=
  last_node_addr <- get_dummy ;;
  b <- is_position_in_edge_without_path new_ch_pos iterator ;;
  st <- (if b then
           new_node_addr <- add_node_in iterator ;;
           create_new_edge_to_leaf_from_node new_ch_pos new_node_addr ;;;
           iterator' <- go_using_suffix_connection fuel iterator ;;
           ret (new_node_addr, iterator')
         else ret (last_node_addr, iterator)) ;;
  st <- split_edges fuel fuel new_ch_pos (fst st) (snd st) ;;
  assign_suffix_connection (fst st) (node_addr (snd st)) ;;;
  add_leaves fuel fuel new_ch_pos (snd st).

Definition go_over_one_letter_next (ch : Z) (iterator : InnerPosition)
  : M InnerPosition :=
  iterator <-
    (if position iterator =? 0 then
       i <- alphabet_index_of ch ;;
       e <- edge_to_child (node_addr iterator) i ;;
       ret {| node_addr := node_addr iterator; edge_addr := e;
              position := position iterator |}
     else ret iterator) ;;
  let position' := position iterator + 1 in
  edge <- get_edge_by (edge_addr iterator) ;;
  if position' =? edge_length edge then
    ret {| node_addr := next_node_addr edge; edge_addr := -1; position := 0 |}
  else
    ret {| node_addr := node_addr iterator; edge_addr := edge_addr iterator;
           position := position' |}.

Definition third_stage (new_ch_pos : Z) (iterator : InnerPosition)
  : M InnerPosition :=
  ch <- char_at new_ch_pos ;;
  go_over_one_letter_next ch iterator.

(** The [for] loop of [construct_tree]; [pos] is a [uint32_t]. *)
Fixpoint construct_steps (fuel loop : nat) (pos : Z)
    (iterator : InnerPosition) : M unit :=
  match loop with
  | O => out_of_fuel
  | S loop' =>
      n <- read (fun t => Ok (zlen (expanded_string t))) ;;
      if pos <? n then
        iterator <- first_stage pos iterator ;;
        iterator <- second_stage fuel pos iterator ;;
        iterator <- third_stage pos iterator ;;
        construct_steps fuel loop' (to_uint32 (pos + 1)) iterator
      else ret tt
  end.

Definition construct_tree (fuel : nat) : M unit :=
  r <- read (fun t => Ok (root_addr t)) ;;
  construct_steps fuel fuel 0
    {| node_addr := r; edge_addr := no_connection; position := 0 |}.

(** The constructor, run in a process whose static leaf counter holds
    [leaf_counter]. *)
Definition SuffixTree_new (fuel : nat) (source : list Z) (leaf_counter : Z)
  : result SuffixTree :=
  let t0 := {| expanded_string := source ++ [terminal_symbol];
               root_addr := 0; node_allocator := []; edge_allocator := [];
               leaf_addr_allocator := leaf_counter |} in
  match
    (r <- allocate_node ;;
     (fun t => Ok (tt, set_root t r)) ;;;
     dummy_addr <- create_dummy_node ;;
     r <- read (fun t => Ok (root_addr t)) ;;
     assign_suffix_connection r dummy_addr ;;;
     construct_tree fuel) t0
  with
  | Ok (_, t) => Ok t
  | Undefined => Undefined
  | OutOfFuel => OutOfFuel
  end.

(** The condition of the constructor's assertion. *)
Definition constructor_precondition (source : list Z) : result bool :=
  Alphabet.is_alphabet_of letters (source ++ [terminal_symbol]).

(** *** The pattern locator *)

Record LocatorState := mkLoc {
  loc_iterator : InnerPosition;
  last_edge_addr : Z
}.

Inductive step_result : Type :=
| Continue (st : LocatorState)
| Return (z : Z).

(** One iteration of the [for] loop of [index_of]. *)
Definition index_of_step (ch : Z) (st : LocatorState) : M step_result :=
  let iterator := loc_iterator st in
  r <- (if edge_addr iterator =? no_connection then
          i <- alphabet_index_of ch ;;
          e <- edge_to_child (node_addr iterator) i ;;
          ret e
        else ret (edge_addr iterator)) ;;
  if r =? no_connection then ret (Return (-1))
  else
    edge <- get_edge_by r ;;
    ch' <- char_at (start_position edge + position iterator) ;;
    if negb (ch' =? ch) then ret (Return (-1))
    else
      let position' := position iterator + 1 in
      if edge_length edge =? position' then
        ret (Continue
               {| loc_iterator :=
                    {| node_addr := next_node_addr edge;
                       edge_addr := no_connection; position := 0 |};
                  last_edge_addr := r |})
      else
        ret (Continue
               {| loc_iterator :=
                    {| node_addr := node_addr iterator; edge_addr := r;
                       position := position' |};
                  last_edge_addr := last_edge_addr st |}).

Fixpoint index_of_loop (pattern : list Z) (st : LocatorState)
  : M step_result :=
  match pattern with
  | [] => ret (Continue st)
  | ch :: rest =>
      r <- index_of_step ch st ;;
      match r with
      | Continue st' => index_of_loop rest st'
      | Return z => ret (Return z)
      end
  end.

Definition index_of (pattern : list Z) : M Z :=
  r <- read (fun t => Ok (root_addr t)) ;;
  let iterator :=
    {| node_addr := r; edge_addr := no_connection; position := 0 |} in
  if (length pattern =? 0)%nat then ret 0
  else
    dummy_addr <- get_dummy ;;
    front <- edge_to_child dummy_addr 0 ;;
    r <- index_of_loop pattern
           {| loc_iterator := iterator; last_edge_addr := front |} ;;
    match r with
    | Return z => ret z
    | Continue st =>
        let iterator := loc_iterator st in
        if edge_addr iterator =? no_connection then
          edge <- get_edge_by (last_edge_addr st) ;;
          ret (to_int32 (start_position edge + edge_length edge
                         - zlen pattern))
        else
          edge <- get_edge_by (edge_addr iterator) ;;
          ret (to_int32 (start_position edge + position iterator
                         - zlen pattern))
    end.

Definition contains (pattern : list Z) : M bool :=
  p <- index_of pattern ;; ret (negb (p =? -1)).

End Engine.

(** * Properties *)

(** ** Containers and conversions *)

Lemma to_int32_id z : -2147483648 <= z < 2147483648 -> to_int32 z = z.
Proof.
  intros H. unfold to_int32.
  rewrite Z.mod_small by lia. lia.
Qed.

Lemma to_uint32_id z : 0 <= z < 4294967296 -> to_uint32 z = z.
Proof. intros H. unfold to_uint32. apply Z.mod_small. lia. Qed.

Lemma zlen_app {A} (l1 l2 : list A) : zlen (l1 ++ l2) = zlen l1 + zlen l2.
Proof. unfold zlen. rewrite length_app. lia. Qed.

Lemma zlen_nonneg {A} (l : list A) : 0 <= zlen l.
Proof. unfold zlen. lia. Qed.

Lemma zlen_zupdate {A} (l : list A) i x : zlen (zupdate l i x) = zlen l.
Proof.
  unfold zlen, zupdate. destruct (0 <=? i); [|done].
  by rewrite length_insert.
Qed.

Lemma zlookup_Some_range {A} (l : list A) i x :
  zlookup l i = Some x -> 0 <= i < zlen l.
Proof.
  unfold zlookup, zlen. destruct (Z.leb_spec 0 i); [|done].
  intros Hl%lookup_lt_Some. lia.
Qed.

Lemma zlookup_in_range {A} (l : list A) i :
  0 <= i < zlen l -> exists x, zlookup l i = Some x.
Proof.
  unfold zlookup, zlen. intros H.
  destruct (Z.leb_spec 0 i); [|lia].
  destruct (lookup_lt_is_Some_2 l (Z.to_nat i)) as [x Hx]; [lia|]. eauto.
Qed.

Lemma zlookup_None_range {A} (l : list A) i :
  zlookup l i = None -> i < 0 \/ zlen l <= i.
Proof.
  intros H. destruct (Z.ltb_spec i 0); [auto|].
  destruct (Z.ltb_spec i (zlen l)); [|auto].
  destruct (zlookup_in_range l i) as [x Hx]; [lia|congruence].
Qed.

Lemma zlookup_app_l {A} (l1 l2 : list A) i :
  i < zlen l1 -> zlookup (l1 ++ l2) i = zlookup l1 i.
Proof.
  unfold zlookup, zlen. intros H. destruct (Z.leb_spec 0 i); [|done].
  apply lookup_app_l. lia.
Qed.

Lemma zlookup_app_r {A} (l1 l2 : list A) i :
  zlen l1 <= i -> zlookup (l1 ++ l2) i = zlookup l2 (i - zlen l1).
Proof.
  unfold zlookup, zlen. intros H.
  destruct (Z.leb_spec 0 i), (Z.leb_spec 0 (i - Z.of_nat (length l1))); try lia.
  rewrite lookup_app_r by lia. f_equal. lia.
Qed.

Lemma zlookup_snoc {A} (l : list A) x : zlookup (l ++ [x]) (zlen l) = Some x.
Proof.
  rewrite zlookup_app_r by lia. rewrite Z.sub_diag. reflexivity.
Qed.

Lemma zlookup_snoc_Some {A} (l : list A) x i y :
  zlookup (l ++ [x]) i = Some y ->
  (i < zlen l /\ zlookup l i = Some y) \/ (i = zlen l /\ y = x).
Proof.
  intros H. destruct (Z.ltb_spec i (zlen l)).
  - rewrite zlookup_app_l in H by lia. auto.
  - pose proof (zlookup_Some_range _ _ _ H) as Hr.
    rewrite zlen_app in Hr. change (zlen [x]) with 1 in Hr.
    assert (i = zlen l) as -> by lia.
    rewrite zlookup_snoc in H. right. split; congruence.
Qed.

Lemma zlookup_zupdate_eq {A} (l : list A) i x :
  0 <= i < zlen l -> zlookup (zupdate l i x) i = Some x.
Proof.
  unfold zlookup, zupdate, zlen. intros H.
  destruct (Z.leb_spec 0 i); [|lia].
  apply list_lookup_insert_eq. lia.
Qed.

Lemma zlookup_zupdate_ne {A} (l : list A) i j x :
  i <> j -> zlookup (zupdate l i x) j = zlookup l j.
Proof.
  unfold zlookup, zupdate. intros H.
  destruct (Z.leb_spec 0 i), (Z.leb_spec 0 j); try done.
  apply list_lookup_insert_ne. lia.
Qed.

Lemma zlookup_zupdate {A} (l : list A) i j x y :
  zlookup (zupdate l i x) j = Some y ->
  (i = j /\ y = x /\ 0 <= i < zlen l) \/ (i <> j /\ zlookup l j = Some y).
Proof.
  intros H. destruct (Z.eq_dec i j) as [->|Hne].
  - left. pose proof (zlookup_Some_range _ _ _ H) as Hr.
    rewrite zlen_zupdate in Hr.
    rewrite zlookup_zupdate_eq in H by done. split; [done|]. split; congruence.
  - right. rewrite zlookup_zupdate_ne in H by done. auto.
Qed.

Lemma zupdate_app_l {A} (l1 l2 : list A) i x :
  i < zlen l1 -> zupdate (l1 ++ l2) i x = zupdate l1 i x ++ l2.
Proof.
  unfold zupdate, zlen. intros H. destruct (Z.leb_spec 0 i); [|done].
  apply insert_app_l. lia.
Qed.

Lemma zupdate_snoc {A} (l : list A) x y :
  zupdate (l ++ [x]) (zlen l) y = l ++ [y].
Proof.
  unfold zupdate, zlen. destruct (Z.leb_spec 0 (Z.of_nat (length l))); [|lia].
  rewrite Nat2Z.id. rewrite insert_app_r_alt by lia.
  rewrite Nat.sub_diag. reflexivity.
Qed.

Lemma zupdate_zupdate_eq {A} (l : list A) i x y :
  zupdate (zupdate l i x) i y = zupdate l i y.
Proof.
  unfold zupdate. destruct (0 <=? i); [|done].
  apply list_insert_insert_eq.
Qed.

Lemma zlookup_replicate {A} n (x : A) i :
  0 <= i < Z.of_nat n -> zlookup (replicate n x) i = Some x.
Proof.
  unfold zlookup. intros H. destruct (Z.leb_spec 0 i); [|lia].
  apply lookup_replicate_2. lia.
Qed.

Global Arguments zlookup : simpl never.
Global Arguments zupdate : simpl never.
Global Arguments zlen : simpl never.
Global Arguments to_int32 : simpl never.
Global Arguments to_uint32 : simpl never.

(** ** The queries leave the tree as it is *)

Definition preserves {A} (m : M A) : Prop :=
  forall t a t', m t = Ok (a, t') -> t' = t.

Lemma preserves_ret {A} (a : A) : preserves (ret a).
Proof. intros t a' t' H. unfold ret in H. congruence. Qed.

Lemma preserves_read {A} (f : SuffixTree -> result A) : preserves (read f).
Proof.
  intros t a t' H. unfold read in H. destruct (f t); congruence.
Qed.

Lemma preserves_bind {A B} (m : M A) (f : A -> M B) :
  preserves m -> (forall a, preserves (f a)) -> preserves (bind m f).
Proof.
  intros Hm Hf t b t' H. unfold bind in H.
  destruct (m t) as [[a t1]| |] eqn:E; try discriminate.
  apply Hm in E. subst t1. by apply Hf in H.
Qed.

Lemma preserves_if {A} (b : bool) (m1 m2 : M A) :
  preserves m1 -> preserves m2 -> preserves (if b then m1 else m2).
Proof. by destruct b. Qed.

Ltac preserves_tac :=
  repeat first
    [ apply preserves_ret
    | apply preserves_read
    | apply preserves_bind; [|intros ?]
    | apply preserves_if ].

Lemma preserves_get_dummy : preserves get_dummy.
Proof. unfold get_dummy, suffix_connection_of, get_node_by. preserves_tac. Qed.

Lemma preserves_edge_to_child ref i : preserves (edge_to_child ref i).
Proof. unfold edge_to_child, get_node_by. preserves_tac. Qed.

Lemma preserves_index_of_step letters ch st :
  preserves (index_of_step letters ch st).
Proof.
  unfold index_of_step, alphabet_index_of, get_edge_by, char_at.
  preserves_tac; apply preserves_edge_to_child.
Qed.

Lemma preserves_index_of_loop letters pattern :
  forall st, preserves (index_of_loop letters pattern st).
Proof.
  induction pattern as [|ch rest IH]; intros st; simpl.
  - apply preserves_ret.
  - apply preserves_bind; [apply preserves_index_of_step|].
    intros [st'|z]; [apply IH|apply preserves_ret].
Qed.

Lemma preserves_index_of letters pattern : preserves (index_of letters pattern).
Proof.
  unfold index_of. apply preserves_bind; [apply preserves_read|]. intros r.
  apply preserves_if; [apply preserves_ret|].
  apply preserves_bind; [apply preserves_get_dummy|]. intros d.
  apply preserves_bind; [apply preserves_edge_to_child|]. intros f.
  apply preserves_bind; [apply preserves_index_of_loop|].
  intros [st|z]; [|apply preserves_ret].
  unfold get_edge_by. preserves_tac.
Qed.

Lemma preserves_contains letters pattern : preserves (contains letters pattern).
Proof.
  unfold contains. apply preserves_bind; [apply preserves_index_of|].
  intros p. apply preserves_ret.
Qed.

(** ** What the queries are specified to compute *)

(** [pattern] occurs in [source] at position [p]. *)
Definition occurs_at (source pattern : list Z) (p : Z) : Prop :=
  0 <= p /\
  take (length pattern) (drop (Z.to_nat p) source) = pattern.

Definition is_substring (pattern source : list Z) : Prop :=
  exists p, occurs_at source pattern p.

(** ** Concrete trees *)

(** [EnglishLowercaseLetters] of main.cpp. *)
Definition EnglishLowercaseLetters : list Z :=
  SuffixTreeAlphabet (map Z.of_nat (seq 97 26)).

(** The tree of main.cpp, built from "mississipi" in a fresh process. *)
Definition mississipi : list Z :=
  [109; 105; 115; 115; 105; 115; 115; 105; 112; 105].

Definition tree_of (letters source : list Z) : SuffixTree :=
  match SuffixTree_new letters (S (S (length source))) source 0 with
  | Ok t => t
  | _ => mkTree [] 0 [] [] 0
  end.

Definition locator_start (letters : list Z) (t : SuffixTree) : LocatorState :=
  {| loc_iterator :=
       {| node_addr := root_addr t; edge_addr := no_connection;
          position := 0 |};
     last_edge_addr :=
       match get_dummy t with
       | Ok (d, _) =>
           match edge_to_child d 0 t with Ok (e, _) => e | _ => 0 end
       | _ => 0
       end |}.

Example mississipi_issip :
  index_of EnglishLowercaseLetters [105; 115; 115; 105; 112]
    (tree_of EnglishLowercaseLetters mississipi)
  = Ok (4, tree_of EnglishLowercaseLetters mississipi).
Proof. vm_compute. reflexivity. Qed.

(** ** Claims settled on concrete trees *)

(** C1 (failing input).  On the tree of "a" the pattern made of the terminal
    byte alone is reported present, at position 1, although the source "a"
    has no occurrence of it. *)
Theorem terminal_pattern_reported_present :
  let t := tree_of EnglishLowercaseLetters [97] in
  SuffixTree_new EnglishLowercaseLetters 3 [97] 0 = Ok t /\
  index_of EnglishLowercaseLetters [terminal_symbol] t = Ok (1, t) /\
  contains EnglishLowercaseLetters [terminal_symbol] t = Ok (true, t) /\
  ~ is_substring [terminal_symbol] [97].
Proof.
  cbv zeta. split; [vm_compute; reflexivity|].
  split; [vm_compute; reflexivity|].
  split; [vm_compute; reflexivity|].
  intros [p [Hp H]].
  destruct (Z.to_nat p) as [|[|n]]; simpl in H; discriminate.
Qed.

(** C2 (failing input).  On the tree of "mississipi" the pattern "Miss",
    whose first byte is outside the alphabet, makes [index_of] read
    [edges_to_childs[-1]]: the query is undefined instead of answering -1. *)
Theorem unknown_byte_query_undefined :
  let t := tree_of EnglishLowercaseLetters mississipi in
  SuffixTree_new EnglishLowercaseLetters 12 mississipi 0 = Ok t /\
  Alphabet.is_exist EnglishLowercaseLetters 77 = false /\
  Alphabet.index_of EnglishLowercaseLetters 77 = Ok (-1) /\
  index_of EnglishLowercaseLetters [77; 105; 115; 115] t = Undefined /\
  contains EnglishLowercaseLetters [77; 105; 115; 115] t = Undefined.
Proof.
  cbv zeta.
  split; [vm_compute; reflexivity|].
  split; [vm_compute; reflexivity|].
  split; [vm_compute; reflexivity|].
  split; vm_compute; reflexivity.
Qed.

(** C4 (failing input).  On the tree of "a" the loop of [index_of], run on
    the pattern made of the terminal byte, descends past the end of an edge
    onto a leaf reference: the condition of the in-loop assertion is false. *)
Theorem terminal_pattern_reaches_leaf :
  let t := tree_of EnglishLowercaseLetters [97] in
  SuffixTree_new EnglishLowercaseLetters 3 [97] 0 = Ok t /\
  exists st,
    index_of_loop EnglishLowercaseLetters [terminal_symbol]
      (locator_start EnglishLowercaseLetters t) t = Ok (Continue st, t) /\
    is_leaf (node_addr (loc_iterator st)) = true.
Proof.
  cbv zeta. split; [vm_compute; reflexivity|].
  eexists. split; vm_compute; reflexivity.
Qed.

(** C8.  [index_of] answers 0 on the empty pattern, on every tree, and
    [contains] answers true. *)
Theorem index_of_empty_pattern (letters : list Z) (t : SuffixTree) :
  index_of letters [] t = Ok (0, t) /\ contains letters [] t = Ok (true, t).
Proof. split; reflexivity. Qed.

(** C9.  A query that returns, [index_of] or [contains], leaves every member
    of the tree (the expanded string, the root reference, the node arena and
    the edge arena) and the static leaf counter as they were. *)
Theorem queries_leave_tree_unchanged (letters pattern : list Z)
    (t t' : SuffixTree) (z : Z) (b : bool)
    (H : index_of letters pattern t = Ok (z, t') \/
         contains letters pattern t = Ok (b, t')) :
  expanded_string t' = expanded_string t /\
  root_addr t' = root_addr t /\
  node_allocator t' = node_allocator t /\
  edge_allocator t' = edge_allocator t /\
  leaf_addr_allocator t' = leaf_addr_allocator t.
Proof.
  destruct H as [H|H].
  - apply preserves_index_of in H. by subst t'.
  - apply preserves_contains in H. by subst t'.
Qed.

Lemma queries_leave_tree_unchanged_witness :
  let t := tree_of EnglishLowercaseLetters mississipi in
  index_of EnglishLowercaseLetters [105; 115; 115] t = Ok (1, t) /\
  (expanded_string t = expanded_string t /\
   root_addr t = root_addr t /\
   node_allocator t = node_allocator t /\
   edge_allocator t = edge_allocator t /\
   leaf_addr_allocator t = leaf_addr_allocator t).
Proof.
  cbv zeta. split; [vm_compute; reflexivity|].
  apply (queries_leave_tree_unchanged EnglishLowercaseLetters
           [105; 115; 115] _ _ 1 true).
  left. vm_compute. reflexivity.
Defined.

(** C10.  The source made of the terminal byte alone passes the constructor's
    check, the membership of every byte of the expanded string in the
    alphabet, and the construction runs to its end; the tree it leaves has
    one leaf for the two suffixes of the expanded string. *)
Theorem terminal_in_source_not_reported :
  exists source t,
    terminal_symbol ∈ source /\
    constructor_precondition EnglishLowercaseLetters source = Ok true /\
    SuffixTree_new EnglishLowercaseLetters 3 source 0 = Ok t /\
    zlen (expanded_string t) = 2 /\
    leaf_addr_allocator t = -1.
Proof.
  exists [terminal_symbol]. eexists.
  split; [apply list_elem_of_here|].
  split; [vm_compute; reflexivity|].
  split; [vm_compute; reflexivity|].
  split; vm_compute; reflexivity.
Qed.

(** ** Two constructions from the same source *)

(** Two trees built from one source can differ in their leaf references
    only: the static leaf counter gives each construction other ones.  The
    relation below allows exactly that, and every member function maps
    related states to related states. *)

Module Sim.

Definition ref_rel (a b : Z) : Prop := a = b \/ (a < 0 /\ b < 0).

Definition edge_rel (e1 e2 : Edge) : Prop :=
  start_position e1 = start_position e2 /\
  edge_length e1 = edge_length e2 /\
  ref_rel (next_node_addr e1) (next_node_addr e2).

Definition node_rel (n1 n2 : Node) : Prop :=
  option_Forall2 ref_rel (suffix_connection n1) (suffix_connection n2) /\
  edges_to_childs n1 = edges_to_childs n2.

Definition tree_rel (t1 t2 : SuffixTree) : Prop :=
  expanded_string t1 = expanded_string t2 /\
  root_addr t1 = root_addr t2 /\
  Forall2 node_rel (node_allocator t1) (node_allocator t2) /\
  Forall2 edge_rel (edge_allocator t1) (edge_allocator t2) /\
  (leaf_addr_allocator t1 <= 0 /\ leaf_addr_allocator t2 <= 0).

Definition pos_rel (i1 i2 : InnerPosition) : Prop :=
  ref_rel (node_addr i1) (node_addr i2) /\
  edge_addr i1 = edge_addr i2 /\
  position i1 = position i2.

Definition res_rel {A} (RA : A -> A -> Prop)
    (r1 r2 : result (A * SuffixTree)) : Prop :=
  match r1, r2 with
  | Ok (a1, t1), Ok (a2, t2) => RA a1 a2 /\ tree_rel t1 t2
  | Undefined, Undefined => True
  | OutOfFuel, OutOfFuel => True
  | _, _ => False
  end.

(** Related states give related outcomes. *)
Definition sim {A} (RA : A -> A -> Prop) (m1 m2 : M A) : Prop :=
  forall t1 t2, tree_rel t1 t2 -> res_rel RA (m1 t1) (m2 t2).

(** Related states give related results where both runs return. *)
Definition wsim {A} (RA : A -> A -> Prop) (m1 m2 : M A) : Prop :=
  forall t1 t2, tree_rel t1 t2 ->
  forall a1 t1' a2 t2',
    m1 t1 = Ok (a1, t1') -> m2 t2 = Ok (a2, t2') ->
    RA a1 a2 /\ tree_rel t1' t2'.

Lemma ref_rel_refl a : ref_rel a a.
Proof. by left. Qed.

Lemma sim_wsim {A} (RA : A -> A -> Prop) m1 m2 : sim RA m1 m2 -> wsim RA m1 m2.
Proof.
  intros H t1 t2 Ht a1 t1' a2 t2' E1 E2.
  specialize (H t1 t2 Ht). rewrite E1, E2 in H. exact H.
Qed.

Lemma sim_ret {A} (RA : A -> A -> Prop) a1 a2 :
  RA a1 a2 -> sim RA (ret a1) (ret a2).
Proof. intros H t1 t2 Ht. simpl. auto. Qed.

Lemma sim_bind {A B} (RA : A -> A -> Prop) (RB : B -> B -> Prop)
    m1 m2 (f1 f2 : A -> M B) :
  sim RA m1 m2 ->
  (forall a1 a2, RA a1 a2 -> sim RB (f1 a1) (f2 a2)) ->
  sim RB (bind m1 f1) (bind m2 f2).
Proof.
  intros Hm Hf t1 t2 Ht. unfold bind.
  specialize (Hm t1 t2 Ht). unfold res_rel in Hm.
  destruct (m1 t1) as [[a1 t1']| |], (m2 t2) as [[a2 t2']| |];
    try done.
  destruct Hm as [Ha Ht']. by apply Hf.
Qed.

Lemma wsim_ret {A} (RA : A -> A -> Prop) a1 a2 :
  RA a1 a2 -> wsim RA (ret a1) (ret a2).
Proof. intros. by apply sim_wsim, sim_ret. Qed.

Lemma wsim_bind {A B} (RA : A -> A -> Prop) (RB : B -> B -> Prop)
    m1 m2 (f1 f2 : A -> M B) :
  wsim RA m1 m2 ->
  (forall a1 a2, RA a1 a2 -> wsim RB (f1 a1) (f2 a2)) ->
  wsim RB (bind m1 f1) (bind m2 f2).
Proof.
  intros Hm Hf t1 t2 Ht b1 t1' b2 t2' E1 E2. unfold bind in E1, E2.
  destruct (m1 t1) as [[a1 u1]| |] eqn:F1; try discriminate.
  destruct (m2 t2) as [[a2 u2]| |] eqn:F2; try discriminate.
  destruct (Hm t1 t2 Ht _ _ _ _ F1 F2) as [Ha Hu].
  exact (Hf a1 a2 Ha u1 u2 Hu _ _ _ _ E1 E2).
Qed.

Lemma zlookup_Forall2 {A} (R : A -> A -> Prop) l1 l2 i :
  Forall2 R l1 l2 -> option_Forall2 R (zlookup l1 i) (zlookup l2 i).
Proof.
  intros H. unfold zlookup. destruct (0 <=? i); [|constructor].
  by apply Forall2_lookup.
Qed.

Lemma zupdate_Forall2 {A} (R : A -> A -> Prop) l1 l2 i x1 x2 :
  Forall2 R l1 l2 -> R x1 x2 -> Forall2 R (zupdate l1 i x1) (zupdate l2 i x2).
Proof.
  intros H Hx. unfold zupdate. destruct (0 <=? i); [|done].
  by apply Forall2_insert.
Qed.

Lemma zlen_Forall2 {A} (R : A -> A -> Prop) l1 l2 :
  Forall2 R l1 l2 -> zlen l1 = zlen l2.
Proof. intros H. unfold zlen. by rewrite (Forall2_length H). Qed.

Lemma sim_read_root :
  sim eq (read (fun t => Ok (root_addr t))) (read (fun t => Ok (root_addr t))).
Proof. intros t1 t2 Ht. simpl. split; [apply Ht|done]. Qed.

Lemma sim_read_size :
  sim eq (read (fun t => Ok (zlen (expanded_string t))))
         (read (fun t => Ok (zlen (expanded_string t)))).
Proof.
  intros t1 t2 Ht. simpl. split; [|done]. destruct Ht as [-> _]. done.
Qed.

Lemma sim_get_node_by r1 r2 :
  ref_rel r1 r2 -> sim node_rel (get_node_by r1) (get_node_by r2).
Proof.
  intros Hr t1 t2 Ht. unfold get_node_by, read.
  destruct Hr as [->|[H1 H2]].
  - pose proof Ht as (_ & _ & Hn & _ & _).
    pose proof (zlookup_Forall2 _ _ _ r2 Hn) as H.
    destruct H; simpl; done.
  - unfold zlookup.
    destruct (Z.leb_spec 0 r1), (Z.leb_spec 0 r2); try lia. done.
Qed.

Lemma sim_get_edge_by r :
  sim edge_rel (get_edge_by r) (get_edge_by r).
Proof.
  intros t1 t2 Ht. unfold get_edge_by, read.
  pose proof Ht as (_ & _ & _ & He & _).
  pose proof (zlookup_Forall2 _ _ _ r He) as H.
  destruct H; simpl; done.
Qed.

Lemma sim_read_option {A} (RA : A -> A -> Prop) (o1 o2 : option A) :
  option_Forall2 RA o1 o2 ->
  sim RA (read (fun _ => of_option o1)) (read (fun _ => of_option o2)).
Proof. intros H t1 t2 Ht. unfold read. destruct H; simpl; done. Qed.

Lemma sim_suffix_connection_of r1 r2 :
  ref_rel r1 r2 ->
  sim ref_rel (suffix_connection_of r1) (suffix_connection_of r2).
Proof.
  intros Hr. unfold suffix_connection_of.
  eapply sim_bind; [by apply sim_get_node_by|].
  intros n1 n2 [Hs _]. by apply sim_read_option.
Qed.

Lemma sim_edge_to_child r1 r2 i :
  ref_rel r1 r2 -> sim eq (edge_to_child r1 i) (edge_to_child r2 i).
Proof.
  intros Hr. unfold edge_to_child.
  eapply sim_bind; [by apply sim_get_node_by|].
  intros n1 n2 [_ Hc]. rewrite Hc. apply sim_read_option.
  destruct (zlookup (edges_to_childs n2) i); by constructor.
Qed.

Lemma sim_char_at i : sim eq (char_at i) (char_at i).
Proof.
  intros t1 t2 Ht. unfold char_at, read.
  pose proof Ht as (-> & _).
  destruct (i =? zlen (expanded_string t2)); simpl; [done|].
  destruct (zlookup (expanded_string t2) i); simpl; done.
Qed.

Lemma sim_alphabet_index_of letters c :
  sim eq (alphabet_index_of letters c) (alphabet_index_of letters c).
Proof.
  intros t1 t2 Ht. unfold alphabet_index_of, read.
  destruct (Alphabet.index_of letters c); simpl; done.
Qed.

Lemma sim_get_dummy : sim ref_rel get_dummy get_dummy.
Proof.
  unfold get_dummy. eapply sim_bind; [apply sim_read_root|].
  intros a1 a2 ->. apply sim_suffix_connection_of, ref_rel_refl.
Qed.

Lemma sim_length_to_end_from p :
  sim eq (length_to_end_from p) (length_to_end_from p).
Proof.
  intros t1 t2 Ht. unfold length_to_end_from, read. simpl.
  pose proof Ht as (-> & _). done.
Qed.

Lemma sim_allocate_node letters :
  sim eq (allocate_node letters) (allocate_node letters).
Proof.
  intros t1 t2 Ht. unfold allocate_node. simpl.
  destruct Ht as (Hs & Hr & Hn & He & Hl). split.
  - do 2 f_equal. apply (zlen_Forall2 node_rel).
    apply Forall2_app; [done|]. by repeat constructor.
  - split; [done|]. split; [done|]. split; [|done]. simpl.
    apply Forall2_app; [done|]. by repeat constructor.
Qed.

Lemma sim_allocate_edge : sim eq allocate_edge allocate_edge.
Proof.
  intros t1 t2 Ht. unfold allocate_edge. simpl.
  destruct Ht as (Hs & Hr & Hn & He & Hl). split.
  - do 2 f_equal. apply (zlen_Forall2 edge_rel).
    apply Forall2_app; [done|]. repeat constructor; apply ref_rel_refl.
  - split; [done|]. split; [done|]. split; [done|]. split; [|done]. simpl.
    apply Forall2_app; [done|]. repeat constructor; apply ref_rel_refl.
Qed.

Lemma sim_modify_node r1 r2 (f1 f2 : Node -> Node) :
  ref_rel r1 r2 ->
  (forall n1 n2, node_rel n1 n2 -> node_rel (f1 n1) (f2 n2)) ->
  sim eq (modify_node r1 f1) (modify_node r2 f2).
Proof.
  intros Hr Hf t1 t2 Ht. unfold modify_node.
  destruct Hr as [->|[H1 H2]].
  - pose proof Ht as (Hs & Hr & Hn & He & Hl).
    pose proof (zlookup_Forall2 _ _ _ r2 Hn) as H.
    destruct H as [n1 n2 Hn12|]; simpl; [|done]. split; [done|].
    split; [done|]. split; [done|]. split; [|done]. simpl.
    apply zupdate_Forall2; auto.
  - unfold zlookup.
    destruct (Z.leb_spec 0 r1), (Z.leb_spec 0 r2); try lia. done.
Qed.

Lemma sim_modify_edge r (f1 f2 : Edge -> Edge) :
  (forall e1 e2, edge_rel e1 e2 -> edge_rel (f1 e1) (f2 e2)) ->
  sim eq (modify_edge r f1) (modify_edge r f2).
Proof.
  intros Hf t1 t2 Ht. unfold modify_edge.
  pose proof Ht as (Hs & Hr & Hn & He & Hl).
  pose proof (zlookup_Forall2 _ _ _ r He) as H.
  destruct H as [e1 e2 He12|]; simpl; [|done]. split; [done|].
  split; [done|]. split; [done|]. split; [done|]. split; [|done]. simpl.
  apply zupdate_Forall2; auto.
Qed.

Lemma sim_assign_suffix_connection r1 r2 v1 v2 :
  ref_rel r1 r2 -> ref_rel v1 v2 ->
  sim eq (assign_suffix_connection r1 v1) (assign_suffix_connection r2 v2).
Proof.
  intros Hr Hv. apply sim_modify_node; [done|].
  intros n1 n2 [_ Hc]. split; simpl; [by constructor|done].
Qed.

Lemma sim_assign_edge_to_child r1 r2 i e :
  ref_rel r1 r2 ->
  sim eq (assign_edge_to_child r1 i e) (assign_edge_to_child r2 i e).
Proof.
  intros Hr t1 t2 Ht. unfold assign_edge_to_child.
  destruct Hr as [->|[H1 H2]].
  - pose proof Ht as (Hs & Hr & Hn & He & Hl).
    pose proof (zlookup_Forall2 _ _ _ r2 Hn) as H.
    destruct H as [n1 n2 [Hsc Hc]|]; simpl; [|done]. rewrite Hc.
    destruct (zlookup (edges_to_childs n2) i); simpl; [|done].
    split; [done|]. split; [done|]. split; [done|]. split; [|done]. simpl.
    apply zupdate_Forall2; [done|]. split; simpl; [done|done].
  - unfold zlookup.
    destruct (Z.leb_spec 0 r1), (Z.leb_spec 0 r2); try lia. done.
Qed.

Lemma sim_assign_start_position r v :
  sim eq (assign_start_position r v) (assign_start_position r v).
Proof.
  apply sim_modify_edge. intros e1 e2 (H1 & H2 & H3). by split.
Qed.

Lemma sim_assign_length r v :
  sim eq (assign_length r v) (assign_length r v).
Proof.
  apply sim_modify_edge. intros e1 e2 (H1 & H2 & H3). by split.
Qed.

Lemma sim_assign_next_node_addr r v1 v2 :
  ref_rel v1 v2 ->
  sim eq (assign_next_node_addr r v1) (assign_next_node_addr r v2).
Proof.
  intros Hv. apply sim_modify_edge. intros e1 e2 (H1 & H2 & H3). by split.
Qed.

Ltac sim_bind_with lem :=
  eapply sim_bind; [apply lem|].

Ltac wsim_bind_with lem :=
  eapply wsim_bind; [apply sim_wsim, lem|].

(** *** The locator *)

Definition loc_rel (s1 s2 : LocatorState) : Prop :=
  pos_rel (loc_iterator s1) (loc_iterator s2) /\
  last_edge_addr s1 = last_edge_addr s2.

Definition step_rel (r1 r2 : step_result) : Prop :=
  match r1, r2 with
  | Continue a, Continue b => loc_rel a b
  | Return x, Return y => x = y
  | _, _ => False
  end.

Lemma sim_index_of_step letters ch s1 s2 :
  loc_rel s1 s2 ->
  sim step_rel (index_of_step letters ch s1) (index_of_step letters ch s2).
Proof.
  intros [(Hn & He & Hp) Hl]. unfold index_of_step. rewrite He, Hp, Hl.
  eapply sim_bind with (RA := eq).
  { destruct (edge_addr (loc_iterator s2) =? no_connection).
    - sim_bind_with sim_alphabet_index_of. intros i ? <-.
      eapply sim_bind; [by apply sim_edge_to_child|]. intros e ? <-.
      by apply sim_ret.
    - by apply sim_ret. }
  intros r ? <-. destruct (r =? no_connection); [by apply sim_ret|].
  sim_bind_with sim_get_edge_by. intros e1 e2 (Hs & Hlen & Hnx).
  rewrite Hs, Hlen. sim_bind_with sim_char_at. intros c ? <-.
  destruct (negb (c =? ch)); [by apply sim_ret|].
  destruct (edge_length e2 =? position (loc_iterator s2) + 1);
    apply sim_ret; simpl; repeat split; simpl; done.
Qed.

Lemma sim_index_of_loop letters pattern : forall s1 s2,
  loc_rel s1 s2 ->
  sim step_rel (index_of_loop letters pattern s1)
               (index_of_loop letters pattern s2).
Proof.
  induction pattern as [|ch rest IH]; intros s1 s2 Hs; simpl.
  - by apply sim_ret.
  - eapply sim_bind; [by apply sim_index_of_step|].
    intros [a|x] [b|y] H; simpl in H;
      [by apply IH|done|done|by apply sim_ret].
Qed.

Lemma sim_index_of letters pattern :
  sim eq (index_of letters pattern) (index_of letters pattern).
Proof.
  unfold index_of. sim_bind_with sim_read_root. intros r ? <-.
  destruct (length pattern =? 0)%nat; [by apply sim_ret|].
  sim_bind_with sim_get_dummy. intros d1 d2 Hd.
  eapply sim_bind; [by apply sim_edge_to_child|]. intros f ? <-.
  eapply sim_bind.
  { apply sim_index_of_loop. repeat split; simpl; try done.
    apply ref_rel_refl. }
  intros [a|x] [b|y] H; simpl in H; [|done|done|by apply sim_ret].
  destruct H as [(Hn & He & Hp) Hl]. rewrite He, Hp, Hl.
  destruct (edge_addr (loc_iterator b) =? no_connection).
  - sim_bind_with sim_get_edge_by. intros e1 e2 (Hs & Hlen & Hnx).
    rewrite Hs, Hlen. by apply sim_ret.
  - sim_bind_with sim_get_edge_by. intros e1 e2 (Hs & Hlen & Hnx).
    rewrite Hs. by apply sim_ret.
Qed.

Lemma sim_contains letters pattern :
  sim eq (contains letters pattern) (contains letters pattern).
Proof.
  unfold contains. sim_bind_with sim_index_of. intros p ? <-.
  by apply sim_ret.
Qed.

(** *** The builder *)

Lemma sim_create_dummy_edges d slots :
  sim eq (create_dummy_edges d slots) (create_dummy_edges d slots).
Proof.
  induction slots as [|i rest IH]; simpl; [by apply sim_ret|].
  sim_bind_with sim_allocate_edge. intros e ? <-.
  eapply sim_bind; [apply sim_assign_edge_to_child, ref_rel_refl|].
  intros _ _ _.
  sim_bind_with sim_assign_start_position. intros _ _ _.
  sim_bind_with sim_assign_length. intros _ _ _.
  sim_bind_with sim_read_root. intros r ? <-.
  eapply sim_bind; [apply sim_assign_next_node_addr, ref_rel_refl|].
  intros _ _ _. apply IH.
Qed.

Lemma sim_create_dummy_node letters :
  sim eq (create_dummy_node letters) (create_dummy_node letters).
Proof.
  unfold create_dummy_node. sim_bind_with sim_allocate_node. intros d ? <-.
  eapply sim_bind;
    [apply sim_assign_suffix_connection; apply ref_rel_refl|].
  intros _ _ _. sim_bind_with sim_create_dummy_edges. intros _ _ _.
  by apply sim_ret.
Qed.

Lemma wsim_out_of_fuel_l {A} (RA : A -> A -> Prop) (m : M A) :
  wsim RA out_of_fuel m.
Proof. intros t1 t2 Ht a1 t1' a2 t2' E. discriminate. Qed.

Lemma wsim_out_of_fuel_r {A} (RA : A -> A -> Prop) (m : M A) :
  wsim RA m out_of_fuel.
Proof. intros t1 t2 Ht a1 t1' a2 t2' E1 E2. discriminate. Qed.

Lemma wsim_skip_edges letters f1 : forall f2 src processed i1 i2,
  pos_rel i1 i2 ->
  wsim pos_rel (skip_edges letters f1 src processed i1)
               (skip_edges letters f2 src processed i2).
Proof.
  induction f1 as [|f1 IH]; intros f2 src processed i1 i2 Hi;
    [apply wsim_out_of_fuel_l|].
  destruct f2 as [|f2]; [apply wsim_out_of_fuel_r|].
  destruct Hi as (Hn & He & Hp). simpl. rewrite He, Hp.
  wsim_bind_with sim_get_edge_by. intros e1 e2 (Hs & Hlen & Hnx).
  rewrite Hlen. destruct (position i2 >=? edge_length e2).
  - destruct (position i2 - edge_length e2 =? 0).
    + apply wsim_ret. by repeat split.
    + wsim_bind_with sim_get_edge_by. intros s1 s2 (Hss & _ & _).
      rewrite Hss. wsim_bind_with sim_char_at. intros c ? <-.
      wsim_bind_with sim_alphabet_index_of. intros i ? <-.
      eapply wsim_bind; [by apply sim_wsim, sim_edge_to_child|].
      intros e ? <-. apply IH. by repeat split.
  - apply wsim_ret. by repeat split.
Qed.

Lemma wsim_go_using_suffix_connection letters f1 f2 i1 i2 :
  pos_rel i1 i2 ->
  wsim pos_rel (go_using_suffix_connection letters f1 i1)
               (go_using_suffix_connection letters f2 i2).
Proof.
  intros (Hn & He & Hp). unfold go_using_suffix_connection.
  rewrite He, Hp.
  eapply wsim_bind; [by apply sim_wsim, sim_suffix_connection_of|].
  intros n1 n2 Hn'. destruct (position i2 =? 0).
  - apply wsim_ret. by repeat split.
  - wsim_bind_with sim_get_edge_by. intros s1 s2 (Hss & _ & _).
    rewrite Hss. wsim_bind_with sim_char_at. intros c ? <-.
    wsim_bind_with sim_alphabet_index_of. intros i ? <-.
    eapply wsim_bind; [by apply sim_wsim, sim_edge_to_child|].
    intros e ? <-. apply wsim_skip_edges. by repeat split.
Qed.

Lemma sim_is_position_in_node_without_path letters p i1 i2 :
  pos_rel i1 i2 ->
  sim eq (is_position_in_node_without_path letters p i1)
         (is_position_in_node_without_path letters p i2).
Proof.
  intros (Hn & He & Hp). unfold is_position_in_node_without_path.
  rewrite Hp. sim_bind_with sim_char_at. intros c ? <-.
  destruct (position i2 =? 0); [|by apply sim_ret].
  sim_bind_with sim_alphabet_index_of. intros i ? <-.
  eapply sim_bind; [by apply sim_edge_to_child|].
  intros e ? <-. by apply sim_ret.
Qed.

Lemma sim_is_position_in_edge_without_path p i1 i2 :
  pos_rel i1 i2 ->
  sim eq (is_position_in_edge_without_path p i1)
         (is_position_in_edge_without_path p i2).
Proof.
  intros (Hn & He & Hp). unfold is_position_in_edge_without_path.
  rewrite He, Hp. destruct (position i2 =? 0); [by apply sim_ret|].
  sim_bind_with sim_get_edge_by. intros e1 e2 (Hs & Hlen & Hnx).
  rewrite Hs. sim_bind_with sim_char_at. intros c ? <-.
  sim_bind_with sim_char_at. intros c' ? <-. by apply sim_ret.
Qed.

Lemma sim_add_node_in letters i1 i2 :
  pos_rel i1 i2 ->
  sim eq (add_node_in letters i1) (add_node_in letters i2).
Proof.
  intros (Hn & He & Hp). unfold add_node_in. rewrite He, Hp.
  sim_bind_with sim_allocate_edge. intros ne ? <-.
  sim_bind_with sim_allocate_node. intros nn ? <-.
  sim_bind_with sim_get_edge_by. intros e1 e2 (Hs & Hlen & Hnx).
  rewrite Hs. sim_bind_with sim_char_at. intros c ? <-.
  sim_bind_with sim_get_edge_by. intros e1' e2' (Hs' & Hlen' & Hnx').
  rewrite Hlen'. sim_bind_with sim_assign_length. intros _ _ _.
  sim_bind_with sim_assign_start_position. intros _ _ _.
  sim_bind_with sim_get_edge_by. intros e1'' e2'' (Hs'' & Hlen'' & Hnx'').
  eapply sim_bind; [by apply sim_assign_next_node_addr|]. intros _ _ _.
  sim_bind_with sim_alphabet_index_of. intros i ? <-.
  eapply sim_bind; [apply sim_assign_edge_to_child, ref_rel_refl|].
  intros _ _ _.
  sim_bind_with sim_assign_length. intros _ _ _.
  eapply sim_bind; [apply sim_assign_next_node_addr, ref_rel_refl|].
  intros _ _ _. by apply sim_ret.
Qed.

Lemma wsim_next_leaf_addr : wsim ref_rel next_leaf_addr next_leaf_addr.
Proof.
  intros t1 t2 Ht a1 t1' a2 t2' E1 E2. unfold next_leaf_addr in *.
  destruct (leaf_addr_allocator t1 - 1 <? int32_min); [discriminate|].
  destruct (leaf_addr_allocator t2 - 1 <? int32_min); [discriminate|].
  destruct Ht as (Hs & Hr & Hnd & He & Hl1 & Hl2).
  injection E1 as <- <-. injection E2 as <- <-.
  split; [right; lia|]. repeat split; simpl; try done; lia.
Qed.

Lemma wsim_create_new_edge_to_leaf_from_node letters p n1 n2 :
  ref_rel n1 n2 ->
  wsim eq (create_new_edge_to_leaf_from_node letters p n1)
          (create_new_edge_to_leaf_from_node letters p n2).
Proof.
  intros Hn. unfold create_new_edge_to_leaf_from_node.
  eapply wsim_bind; [apply wsim_next_leaf_addr|]. intros l1 l2 Hl.
  wsim_bind_with sim_char_at. intros c ? <-.
  wsim_bind_with sim_allocate_edge. intros e ? <-.
  wsim_bind_with sim_assign_start_position. intros _ _ _.
  wsim_bind_with sim_length_to_end_from. intros len ? <-.
  wsim_bind_with sim_assign_length. intros _ _ _.
  eapply wsim_bind; [by apply sim_wsim, sim_assign_next_node_addr|].
  intros _ _ _.
  wsim_bind_with sim_alphabet_index_of. intros i ? <-.
  by apply sim_wsim, sim_assign_edge_to_child.
Qed.

Definition pair_rel (p1 p2 : Z * InnerPosition) : Prop :=
  ref_rel (fst p1) (fst p2) /\ pos_rel (snd p1) (snd p2).

Lemma wsim_split_edges letters f1 f2 p l1 : forall l2 last1 last2 i1 i2,
  ref_rel last1 last2 -> pos_rel i1 i2 ->
  wsim pair_rel (split_edges letters f1 l1 p last1 i1)
                (split_edges letters f2 l2 p last2 i2).
Proof.
  induction l1 as [|l1 IH]; intros l2 last1 last2 i1 i2 Hl Hi;
    [apply wsim_out_of_fuel_l|].
  destruct l2 as [|l2]; [apply wsim_out_of_fuel_r|]. simpl.
  eapply wsim_bind;
    [by apply sim_wsim, sim_is_position_in_edge_without_path|].
  intros b ? <-. destruct b; [|by apply wsim_ret].
  eapply wsim_bind; [by apply sim_wsim, sim_add_node_in|].
  intros nn ? <-.
  eapply wsim_bind;
    [apply sim_wsim, sim_assign_suffix_connection;
     [done|apply ref_rel_refl]|].
  intros _ _ _.
  eapply wsim_bind;
    [apply wsim_create_new_edge_to_leaf_from_node, ref_rel_refl|].
  intros _ _ _.
  eapply wsim_bind; [by apply wsim_go_using_suffix_connection|].
  intros j1 j2 Hj. apply IH; [apply ref_rel_refl|done].
Qed.

Lemma wsim_add_leaves letters f1 f2 p l1 : forall l2 i1 i2,
  pos_rel i1 i2 ->
  wsim pos_rel (add_leaves letters f1 l1 p i1)
               (add_leaves letters f2 l2 p i2).
Proof.
  induction l1 as [|l1 IH]; intros l2 i1 i2 Hi;
    [apply wsim_out_of_fuel_l|].
  destruct l2 as [|l2]; [apply wsim_out_of_fuel_r|]. simpl.
  eapply wsim_bind;
    [by apply sim_wsim, sim_is_position_in_node_without_path|].
  intros b ? <-. destruct b; [|by apply wsim_ret].
  eapply wsim_bind;
    [apply wsim_create_new_edge_to_leaf_from_node, Hi|].
  intros _ _ _.
  eapply wsim_bind; [by apply wsim_go_using_suffix_connection|].
  intros j1 j2 Hj. by apply IH.
Qed.

Lemma wsim_second_stage letters f1 f2 p i1 i2 :
  pos_rel i1 i2 ->
  wsim pos_rel (second_stage letters f1 p i1) (second_stage letters f2 p i2).
Proof.
  intros Hi. unfold second_stage.
  wsim_bind_with sim_get_dummy. intros d1 d2 Hd.
  eapply wsim_bind;
    [by apply sim_wsim, sim_is_position_in_edge_without_path|].
  intros b ? <-.
  eapply wsim_bind with (RA := pair_rel).
  { destruct b; [|by apply wsim_ret].
    eapply wsim_bind; [by apply sim_wsim, sim_add_node_in|].
    intros nn ? <-.
    eapply wsim_bind;
      [apply wsim_create_new_edge_to_leaf_from_node, ref_rel_refl|].
    intros _ _ _.
    eapply wsim_bind; [by apply wsim_go_using_suffix_connection|].
    intros j1 j2 Hj. apply wsim_ret. split; [apply ref_rel_refl|done]. }
  intros s1 s2 [Hs1 Hs2].
  eapply wsim_bind; [by apply wsim_split_edges|].
  intros u1 u2 [Hu1 Hu2].
  eapply wsim_bind;
    [apply sim_wsim, sim_assign_suffix_connection; [done|apply Hu2]|].
  intros _ _ _. by apply wsim_add_leaves.
Qed.

Lemma sim_go_over_one_letter_next letters ch i1 i2 :
  pos_rel i1 i2 ->
  sim pos_rel (go_over_one_letter_next letters ch i1)
              (go_over_one_letter_next letters ch i2).
Proof.
  intros (Hn & He & Hp). unfold go_over_one_letter_next. rewrite Hp.
  eapply sim_bind with (RA := pos_rel).
  { destruct (position i2 =? 0); [|by apply sim_ret].
    sim_bind_with sim_alphabet_index_of. intros i ? <-.
    eapply sim_bind; [by apply sim_edge_to_child|].
    intros e ? <-. apply sim_ret. by repeat split. }
  intros j1 j2 (Hn' & He' & Hp'). rewrite He', Hp'.
  sim_bind_with sim_get_edge_by. intros e1 e2 (Hs & Hlen & Hnx).
  rewrite Hlen. destruct (position j2 + 1 =? edge_length e2);
    apply sim_ret; by repeat split.
Qed.

Lemma sim_third_stage letters p i1 i2 :
  pos_rel i1 i2 ->
  sim pos_rel (third_stage letters p i1) (third_stage letters p i2).
Proof.
  intros Hi. unfold third_stage. sim_bind_with sim_char_at.
  intros c ? <-. by apply sim_go_over_one_letter_next.
Qed.

Lemma wsim_construct_steps letters f1 f2 l1 : forall l2 p i1 i2,
  pos_rel i1 i2 ->
  wsim eq (construct_steps letters f1 l1 p i1)
          (construct_steps letters f2 l2 p i2).
Proof.
  induction l1 as [|l1 IH]; intros l2 p i1 i2 Hi;
    [apply wsim_out_of_fuel_l|].
  destruct l2 as [|l2]; [apply wsim_out_of_fuel_r|]. simpl.
  wsim_bind_with sim_read_size. intros n ? <-.
  destruct (p <? n); [|by apply wsim_ret].
  eapply wsim_bind; [apply wsim_ret, Hi|]. intros j1 j2 Hj.
  eapply wsim_bind; [by apply wsim_second_stage|]. intros k1 k2 Hk.
  eapply wsim_bind; [by apply sim_wsim, sim_third_stage|].
  intros m1 m2 Hm. by apply IH.
Qed.

Lemma wsim_construct_tree letters f1 f2 :
  wsim eq (construct_tree letters f1) (construct_tree letters f2).
Proof.
  unfold construct_tree. wsim_bind_with sim_read_root. intros r ? <-.
  apply wsim_construct_steps. repeat split. apply ref_rel_refl.
Qed.

Lemma sim_set_root r :
  sim eq (fun t => Ok (tt, set_root t r)) (fun t => Ok (tt, set_root t r)).
Proof.
  intros t1 t2 (Hs & Hr & Hn & He & Hl1 & Hl2). simpl.
  split; [done|]. unfold tree_rel. simpl. tauto.
Qed.

Lemma SuffixTree_new_related letters source f1 f2 c1 c2 t1 t2 :
  c1 <= 0 -> c2 <= 0 ->
  SuffixTree_new letters f1 source c1 = Ok t1 ->
  SuffixTree_new letters f2 source c2 = Ok t2 ->
  tree_rel t1 t2.
Proof.
  intros Hc1 Hc2. unfold SuffixTree_new.
  set (m1 := bind _ _). set (m2 := bind _ _).
  assert (wsim eq m1 m2) as Hw.
  { subst m1 m2. wsim_bind_with sim_allocate_node. intros r ? <-.
    wsim_bind_with sim_set_root. intros _ _ _.
    wsim_bind_with sim_create_dummy_node. intros d ? <-.
    wsim_bind_with sim_read_root. intros r' ? <-.
    eapply wsim_bind;
      [apply sim_wsim, sim_assign_suffix_connection; apply ref_rel_refl|].
    intros _ _ _. apply wsim_construct_tree. }
  intros E1 E2.
  match type of E1 with
  | match m1 ?a with _ => _ end = _ =>
      destruct (m1 a) as [[u1 v1]| |] eqn:F1; try discriminate
  end.
  match type of E2 with
  | match m2 ?a with _ => _ end = _ =>
      destruct (m2 a) as [[u2 v2]| |] eqn:F2; try discriminate
  end.
  injection E1 as <-. injection E2 as <-.
  eapply Hw; [|exact F1|exact F2].
  repeat split; simpl; try done; constructor.
Qed.

End Sim.

(** The value a query returns, without the state. *)
Definition answer {A} (r : result (A * SuffixTree)) : result A :=
  match r with
  | Ok (a, _) => Ok a
  | Undefined => Undefined
  | OutOfFuel => OutOfFuel
  end.

Lemma answer_related {A} (r1 r2 : result (A * SuffixTree)) :
  Sim.res_rel eq r1 r2 -> answer r1 = answer r2.
Proof.
  destruct r1 as [[a1 t1]| |], r2 as [[a2 t2]| |]; simpl; try done.
  by intros [-> _].
Qed.

(** C3.  Two constructions from one source, whatever non-positive values the
    static leaf counter holds when each starts (the second one may start
    where the first one left it), give trees on which every [index_of] and
    every [contains] query has the same outcome. *)
Theorem same_source_same_answers (letters source pattern : list Z)
    (fuel1 fuel2 : nat) (counter1 counter2 : Z) (t1 t2 : SuffixTree)
    (Hc1 : counter1 <= 0) (Hc2 : counter2 <= 0)
    (H1 : SuffixTree_new letters fuel1 source counter1 = Ok t1)
    (H2 : SuffixTree_new letters fuel2 source counter2 = Ok t2) :
  answer (index_of letters pattern t1) = answer (index_of letters pattern t2)
  /\ answer (contains letters pattern t1)
     = answer (contains letters pattern t2).
Proof.
  pose proof (Sim.SuffixTree_new_related _ _ _ _ _ _ _ _ Hc1 Hc2 H1 H2) as Hr.
  split; apply answer_related.
  - by apply Sim.sim_index_of.
  - by apply Sim.sim_contains.
Qed.

(** Two trees of "mississipi" built one after the other: they differ (in
    their leaf references) and answer alike. *)
Lemma same_source_same_answers_witness :
  let t1 := tree_of EnglishLowercaseLetters mississipi in
  exists t2,
    SuffixTree_new EnglishLowercaseLetters 12 mississipi
      (leaf_addr_allocator t1) = Ok t2 /\
    edge_allocator t1 <> edge_allocator t2 /\
    answer (index_of EnglishLowercaseLetters [105; 115; 115] t1)
    = answer (index_of EnglishLowercaseLetters [105; 115; 115] t2) /\
    answer (contains EnglishLowercaseLetters [105; 115; 115] t1)
    = answer (contains EnglishLowercaseLetters [105; 115; 115] t2).
Proof.
  cbv zeta. eexists. split; [vm_compute; reflexivity|].
  split; [vm_compute; discriminate|].
  apply (same_source_same_answers EnglishLowercaseLetters mississipi
           [105; 115; 115] 12 12 0 (-11)).
  - lia.
  - lia.
  - vm_compute. reflexivity.
  - vm_compute. reflexivity.
Defined.

(** * The construction *)

(** ** The table of the alphabet *)

Lemma zlookup_replicate_Some {A} n (x y : A) i :
  zlookup (replicate n x) i = Some y -> y = x.
Proof.
  unfold zlookup. destruct (0 <=? i); [|done].
  intros H. by apply lookup_replicate_1 in H as [-> _].
Qed.

Definition table_ok (seen : list Z) (acc : Alphabet.Accumulator) : Prop :=
  Alphabet.acc_size acc = zlen seen /\
  forall c i, zlookup (Alphabet.acc_indices acc) c = Some i ->
    i = -1 \/ (0 <= i /\ zlookup seen i = Some c).

Lemma table_ok_fold (rest : list Z) : forall seen acc,
  table_ok seen acc ->
  table_ok (seen ++ rest) (fold_left Alphabet.shl rest acc).
Proof.
  induction rest as [|l rest IH]; intros seen acc H; simpl.
  - by rewrite app_nil_r.
  - replace (seen ++ l :: rest) with ((seen ++ [l]) ++ rest)
      by (by rewrite <- app_assoc).
    apply IH. destruct H as [Hsz Htab]. split.
    + simpl. rewrite Hsz, zlen_app. reflexivity.
    + intros c i Hc. simpl in Hc.
      destruct (zlookup_zupdate _ _ _ _ _ Hc) as [(Hlc & Hi & Hr)|[Hne Hc']].
      * right. subst. rewrite Hsz. split; [apply zlen_nonneg|].
        apply zlookup_snoc.
      * destruct (Htab c i Hc') as [->|[Hi Hd]]; [by left|right].
        split; [done|]. rewrite zlookup_app_l; [done|].
        apply zlookup_Some_range in Hd. lia.
Qed.

(** A non-negative index is the place of the character among the letters. *)
Lemma index_of_member letters c i :
  Alphabet.index_of letters c = Ok i -> 0 <= i ->
  zlookup letters i = Some c.
Proof.
  unfold Alphabet.index_of, Alphabet.indices. intros H Hi.
  destruct (zlookup _ c) as [i'|] eqn:E; [|discriminate].
  injection H as ->.
  destruct (table_ok_fold letters []
    {| Alphabet.acc_indices :=
         replicate (Z.to_nat Alphabet.max_alphabet_size) (-1);
       Alphabet.acc_size := 0 |}) as [_ Htab].
  { split; [reflexivity|]. intros c' i' Hc'. left.
    cbn [Alphabet.acc_indices] in Hc'.
    by apply zlookup_replicate_Some in Hc'. }
  rewrite app_nil_l in Htab. destruct (Htab c i E) as [->|[_ Hm]]; [lia|done].
Qed.

Lemma index_of_range letters c i :
  Alphabet.index_of letters c = Ok i -> 0 <= i -> i < zlen letters.
Proof.
  intros H Hi. apply index_of_member, zlookup_Some_range in H; lia.
Qed.

Lemma index_of_inj letters c1 c2 i :
  Alphabet.index_of letters c1 = Ok i ->
  Alphabet.index_of letters c2 = Ok i -> 0 <= i -> c1 = c2.
Proof.
  intros H1 H2 Hi.
  apply index_of_member in H1; [|done]. apply index_of_member in H2; [|done].
  congruence.
Qed.

(** The terminal symbol has a place in every [SuffixTreeAlphabet]. *)
Lemma table_keeps (rest : list Z) : forall acc c i,
  0 <= Alphabet.acc_size acc ->
  zlookup (Alphabet.acc_indices acc) c = Some i -> 0 <= i ->
  exists i', zlookup (Alphabet.acc_indices (fold_left Alphabet.shl rest acc)) c
             = Some i' /\ 0 <= i'.
Proof.
  induction rest as [|l rest IH]; intros acc c i Hsz Hc Hi; simpl.
  - eauto.
  - destruct (Z.eq_dec l c) as [->|Hne].
    + apply (IH _ c (Alphabet.acc_size acc)); simpl; [lia| |done].
      apply zlookup_zupdate_eq. by apply zlookup_Some_range in Hc.
    + apply (IH _ c i); simpl; [lia| |done].
      by rewrite zlookup_zupdate_ne.
Qed.

Lemma terminal_in_alphabet letters :
  exists i, Alphabet.index_of (SuffixTreeAlphabet letters) terminal_symbol
            = Ok i /\ 0 <= i.
Proof.
  unfold Alphabet.index_of, Alphabet.indices, SuffixTreeAlphabet.
  cbn [fold_left].
  destruct (table_keeps letters
    (Alphabet.shl
       {| Alphabet.acc_indices :=
            replicate (Z.to_nat Alphabet.max_alphabet_size) (-1);
          Alphabet.acc_size := 0 |} terminal_symbol) terminal_symbol 0)
    as (i & Hi & Hi0).
  - cbn [Alphabet.shl Alphabet.acc_size]. lia.
  - cbn [Alphabet.shl Alphabet.acc_size Alphabet.acc_indices].
    apply zlookup_zupdate_eq. vm_compute. split; [discriminate|reflexivity].
  - lia.
  - exists i. by rewrite Hi.
Qed.

(** ** Running the member functions *)

Lemma bind_ok {A B} (m : M A) (f : A -> M B) t a t' :
  m t = Ok (a, t') -> bind m f t = f a t'.
Proof. intros H. unfold bind. by rewrite H. Qed.

Lemma read_ok {A} (f : SuffixTree -> result A) t a :
  f t = Ok a -> read f t = Ok (a, t).
Proof. intros H. unfold read. by rewrite H. Qed.

Lemma get_node_by_ok t v nd :
  zlookup (node_allocator t) v = Some nd -> get_node_by v t = Ok (nd, t).
Proof. intros H. apply read_ok. by rewrite H. Qed.

Lemma get_edge_by_ok t e ed :
  zlookup (edge_allocator t) e = Some ed -> get_edge_by e t = Ok (ed, t).
Proof. intros H. apply read_ok. by rewrite H. Qed.

Lemma suffix_connection_of_ok t v nd w :
  zlookup (node_allocator t) v = Some nd -> suffix_connection nd = Some w ->
  suffix_connection_of v t = Ok (w, t).
Proof.
  intros H Hw. unfold suffix_connection_of.
  rewrite (bind_ok _ _ _ _ _ (get_node_by_ok _ _ _ H)).
  apply read_ok. by rewrite Hw.
Qed.

Lemma edge_to_child_ok t v nd i e :
  zlookup (node_allocator t) v = Some nd ->
  zlookup (edges_to_childs nd) i = Some e ->
  edge_to_child v i t = Ok (e, t).
Proof.
  intros H He. unfold edge_to_child.
  rewrite (bind_ok _ _ _ _ _ (get_node_by_ok _ _ _ H)).
  apply read_ok. by rewrite He.
Qed.

Lemma modify_node_ok t v nd f :
  zlookup (node_allocator t) v = Some nd ->
  modify_node v f t
  = Ok (tt, set_nodes t (zupdate (node_allocator t) v (f nd))).
Proof. intros H. unfold modify_node. by rewrite H. Qed.

Lemma modify_edge_ok t e ed f :
  zlookup (edge_allocator t) e = Some ed ->
  modify_edge e f t
  = Ok (tt, set_edges t (zupdate (edge_allocator t) e (f ed))).
Proof. intros H. unfold modify_edge. by rewrite H. Qed.

Lemma assign_edge_to_child_ok t v nd i e0 e :
  zlookup (node_allocator t) v = Some nd ->
  zlookup (edges_to_childs nd) i = Some e0 ->
  assign_edge_to_child v i e t
  = Ok (tt, set_nodes t (zupdate (node_allocator t) v
              {| suffix_connection := suffix_connection nd;
                 edges_to_childs := zupdate (edges_to_childs nd) i e |})).
Proof. intros H H0. unfold assign_edge_to_child. by rewrite H, H0. Qed.

Lemma allocate_node_ok letters t :
  zlen (node_allocator t) < 2147483647 ->
  allocate_node letters t
  = Ok (zlen (node_allocator t),
        set_nodes t (node_allocator t ++ [Node_new letters])).
Proof.
  intros H. unfold allocate_node. cbv zeta. rewrite zlen_app.
  change (zlen [Node_new letters]) with 1.
  rewrite to_int32_id; [do 3 f_equal; lia|].
  pose proof (zlen_nonneg (node_allocator t)). lia.
Qed.

Lemma allocate_edge_ok t :
  zlen (edge_allocator t) < 2147483647 ->
  allocate_edge t
  = Ok (zlen (edge_allocator t),
        set_edges t (edge_allocator t ++ [Edge_new])).
Proof.
  intros H. unfold allocate_edge. cbv zeta. rewrite zlen_app.
  change (zlen [Edge_new]) with 1.
  rewrite to_int32_id; [do 3 f_equal; lia|].
  pose proof (zlen_nonneg (edge_allocator t)). lia.
Qed.

Ltac tsimpl :=
  cbn [set_edges set_nodes set_root set_leaf_alloc edge_allocator
       node_allocator expanded_string root_addr leaf_addr_allocator
       suffix_connection edges_to_childs start_position edge_length
       next_node_addr node_addr edge_addr position Node_new Edge_new
       fst snd] in *.

(** One step of a run: the first action of a sequence returns. *)
Ltac mstep tac :=
  cbv beta; erewrite bind_ok; [|tsimpl; tac]; tsimpl.

(** ** The strings of the nodes *)

(** The label of an edge, and the string read from the root to a node. *)
Definition label (t : SuffixTree) (ed : Edge) : list Z :=
  take (Z.to_nat (edge_length ed))
    (drop (Z.to_nat (start_position ed)) (expanded_string t)).

Inductive spells (t : SuffixTree) : Z -> list Z -> Prop :=
  | spells_root : spells t (root_addr t) []
  | spells_edge u nd i e ed str :
      spells t u str ->
      zlookup (node_allocator t) u = Some nd ->
      zlookup (edges_to_childs nd) i = Some e ->
      e <> no_connection ->
      zlookup (edge_allocator t) e = Some ed ->
      spells t (next_node_addr ed) (str ++ label t ed).

(** The edges that lead to a leaf. *)
Definition leaf_edges (t : SuffixTree) : list Edge :=
  filter (fun ed => is_leaf (next_node_addr ed) = true) (edge_allocator t).

Section Construction.

Variable letters : list Z.
Variable s : list Z.
Variable c0 : Z.

Local Abbreviation N := (zlen s).
Local Abbreviation k := (zlen letters).

(** The character at a position of the expanded string, and the slot of a
    character. *)
Definition tx (i : Z) : Z :=
  match zlookup s i with Some c => c | None => 0 end.

Definition idx (c : Z) : Z :=
  match Alphabet.index_of letters c with Ok i => i | _ => -1 end.

Hypothesis Hvalid : forall i, 0 <= i < N -> 0 <= idx (tx i).
Hypothesis Hcap : k + 2 * N + 3 < 2147483648.
Hypothesis Hc0 : int32_min + N <= c0 <= 0.
Hypothesis Hterm : forall i, 0 <= i < N -> tx i = tx (N - 1) -> i = N - 1.
Hypothesis HN : 1 <= N.

Lemma zlookup_tx i : 0 <= i < N -> zlookup s i = Some (tx i).
Proof.
  intros H. unfold tx. destruct (zlookup_in_range s i H) as [c ->]. done.
Qed.

Lemma index_of_idx c : 0 <= idx c -> Alphabet.index_of letters c = Ok (idx c).
Proof. unfold idx. destruct (Alphabet.index_of letters c); (done || lia). Qed.

Lemma idx_range c : 0 <= idx c -> idx c < k.
Proof. intros H. eapply index_of_range; [by apply index_of_idx|done]. Qed.

Lemma idx_inj c1 c2 : 0 <= idx c1 -> idx c1 = idx c2 -> c1 = c2.
Proof.
  intros H1 H2. eapply index_of_inj; [by apply index_of_idx| |exact H1].
  rewrite H2. apply index_of_idx. lia.
Qed.

Lemma idx_tx_range i : 0 <= i < N -> 0 <= idx (tx i) < k.
Proof. intros H. pose proof (Hvalid i H). split; [done|by apply idx_range]. Qed.

Lemma tx_inj i1 i2 :
  0 <= i1 < N -> 0 <= i2 < N -> idx (tx i1) = idx (tx i2) -> tx i1 = tx i2.
Proof. intros H1 H2 H. apply idx_inj; [by apply Hvalid|done]. Qed.

Lemma char_at_ok t i :
  expanded_string t = s -> 0 <= i < N -> char_at i t = Ok (tx i, t).
Proof.
  intros Hs Hi. apply read_ok. rewrite Hs.
  destruct (Z.eqb_spec i N); [lia|]. by rewrite zlookup_tx.
Qed.

Lemma alphabet_index_of_ok t c :
  0 <= idx c -> alphabet_index_of letters c t = Ok (idx c, t).
Proof. intros H. apply read_ok. by apply index_of_idx. Qed.

(** *** Equal segments of the text *)

Definition seg_eq (a b n : Z) : Prop :=
  forall q, 0 <= q < n -> tx (a + q) = tx (b + q).

Definition first_occ (a n : Z) : Prop :=
  forall i, 0 <= i < a -> ~ seg_eq i a n.

Lemma seg_eq_refl a n : seg_eq a a n.
Proof. by intros q Hq. Qed.

Lemma seg_eq_sym a b n : seg_eq a b n -> seg_eq b a n.
Proof. intros H q Hq. symmetry. by apply H. Qed.

Lemma seg_eq_trans a b c n : seg_eq a b n -> seg_eq b c n -> seg_eq a c n.
Proof. intros H1 H2 q Hq. rewrite H1, H2; done. Qed.

Lemma seg_eq_le a b n n' : seg_eq a b n -> n' <= n -> seg_eq a b n'.
Proof. intros H Hn q Hq. apply H. lia. Qed.

Lemma seg_eq_shift a b n d :
  seg_eq a b n -> 0 <= d -> seg_eq (a + d) (b + d) (n - d).
Proof.
  intros H Hd q Hq. rewrite <- !Z.add_assoc. apply H. lia.
Qed.

Lemma seg_eq_snoc a b n :
  0 <= n -> seg_eq a b n -> tx (a + n) = tx (b + n) -> seg_eq a b (n + 1).
Proof.
  intros Hn H Hx q Hq. destruct (Z.eq_dec q n) as [->|]; [done|].
  apply H. lia.
Qed.

Lemma seg_eq_app a b n m :
  0 <= n -> seg_eq a b n -> seg_eq (a + n) (b + n) m -> seg_eq a b (n + m).
Proof.
  intros Hn H1 H2 q Hq. destruct (Z.lt_ge_cases q n); [apply H1; lia|].
  replace (a + q) with (a + n + (q - n)) by lia.
  replace (b + q) with (b + n + (q - n)) by lia. apply H2. lia.
Qed.

Lemma seg_eq_nonpos a b n : n <= 0 -> seg_eq a b n.
Proof. intros H q Hq. lia. Qed.

Lemma first_occ_le a n n' : first_occ a n -> n <= n' -> first_occ a n'.
Proof. intros H Hn i Hi Hs. apply (H i Hi). by eapply seg_eq_le. Qed.

(** *** Reading the arenas *)

Definition node_of (t : SuffixTree) (v : Z) : option Node :=
  zlookup (node_allocator t) v.

Definition edge_of (t : SuffixTree) (e : Z) : option Edge :=
  zlookup (edge_allocator t) e.

Definition child (t : SuffixTree) (v i : Z) : option Z :=
  match node_of t v with
  | Some nd => zlookup (edges_to_childs nd) i
  | None => None
  end.

Definition has_edge (t : SuffixTree) (v i e : Z) (ed : Edge) : Prop :=
  child t v i = Some e /\ e <> -1 /\ edge_of t e = Some ed.

Lemma edge_to_child_run t v i e :
  child t v i = Some e -> edge_to_child v i t = Ok (e, t).
Proof.
  unfold child, node_of. intros H.
  destruct (zlookup (node_allocator t) v) as [nd|] eqn:E; [|done].
  by eapply edge_to_child_ok.
Qed.

(** *** The three changes the builder makes to a tree *)

(** [add_node_in] at edge [e], [p] characters down. *)
Definition split_tree (t : SuffixTree) (e p : Z) (ed : Edge) : SuffixTree :=
  {| expanded_string := expanded_string t;
     root_addr := root_addr t;
     node_allocator :=
       node_allocator t ++
       [ {| suffix_connection := None;
            edges_to_childs :=
              zupdate (replicate (length letters) no_connection)
                (idx (tx (start_position ed + p)))
                (zlen (edge_allocator t)) |} ];
     edge_allocator :=
       zupdate (edge_allocator t) e
         {| start_position := start_position ed; edge_length := p;
            next_node_addr := zlen (node_allocator t) |}
       ++ [ {| start_position := start_position ed + p;
               edge_length := edge_length ed - p;
               next_node_addr := next_node_addr ed |} ];
     leaf_addr_allocator := leaf_addr_allocator t |}.

Lemma add_node_in_run t it ed :
  expanded_string t = s ->
  edge_of t (edge_addr it) = Some ed ->
  0 <= start_position ed + position it < N ->
  zlen (node_allocator t) < 2147483647 ->
  zlen (edge_allocator t) < 2147483647 ->
  add_node_in letters it t
  = Ok (zlen (node_allocator t),
        split_tree t (edge_addr it) (position it) ed).
Proof.
  intros Hs He Hr Hn Hm. unfold edge_of in He.
  pose proof (zlookup_Some_range _ _ _ He) as Her.
  pose proof (idx_tx_range _ Hr) as Hi.
  assert (zlookup (edge_allocator t ++ [Edge_new]) (edge_addr it) = Some ed)
    as He1 by (rewrite zlookup_app_l; [done|lia]).
  unfold add_node_in.
  mstep ltac:(by apply allocate_edge_ok).
  mstep ltac:(by apply allocate_node_ok).
  mstep ltac:(by apply get_edge_by_ok).
  rewrite to_uint32_id by lia. rewrite to_int32_id by lia.
  mstep ltac:(by apply char_at_ok).
  mstep ltac:(by apply get_edge_by_ok).
  unfold assign_length at 1.
  mstep ltac:(apply modify_edge_ok; tsimpl; apply zlookup_snoc).
  rewrite zupdate_snoc.
  unfold assign_start_position at 1.
  mstep ltac:(apply modify_edge_ok; tsimpl; apply zlookup_snoc).
  rewrite zupdate_snoc.
  mstep ltac:(apply get_edge_by_ok; tsimpl;
              rewrite zlookup_app_l; [exact He|lia]).
  unfold assign_next_node_addr at 1.
  mstep ltac:(apply modify_edge_ok; tsimpl; apply zlookup_snoc).
  rewrite zupdate_snoc.
  mstep ltac:(apply alphabet_index_of_ok; lia).
  mstep ltac:(eapply assign_edge_to_child_ok; tsimpl;
              [apply zlookup_snoc
              |apply zlookup_replicate; unfold zlen in Hi; lia]).
  rewrite zupdate_snoc.
  unfold assign_length at 1.
  mstep ltac:(apply modify_edge_ok; tsimpl;
              rewrite zlookup_app_l; [exact He|lia]).
  rewrite zupdate_app_l by lia.
  unfold assign_next_node_addr at 1.
  mstep ltac:(apply modify_edge_ok; tsimpl; rewrite zlookup_app_l;
              [by apply zlookup_zupdate_eq|rewrite zlen_zupdate; lia]).
  rewrite zupdate_app_l by (rewrite zlen_zupdate; lia).
  rewrite zupdate_zupdate_eq.
  reflexivity.
Qed.

(** [create_new_edge_to_leaf_from_node] for the character at [pos], at node
    [n]. *)
Definition leaf_tree (t : SuffixTree) (pos n : Z) (nd : Node) : SuffixTree :=
  {| expanded_string := expanded_string t;
     root_addr := root_addr t;
     node_allocator :=
       zupdate (node_allocator t) n
         {| suffix_connection := suffix_connection nd;
            edges_to_childs :=
              zupdate (edges_to_childs nd) (idx (tx pos))
                (zlen (edge_allocator t)) |};
     edge_allocator :=
       edge_allocator t
       ++ [ {| start_position := pos; edge_length := N - pos;
               next_node_addr := leaf_addr_allocator t - 1 |} ];
     leaf_addr_allocator := leaf_addr_allocator t - 1 |}.

Lemma create_new_edge_to_leaf_from_node_run t pos n nd :
  expanded_string t = s ->
  node_of t n = Some nd ->
  zlen (edges_to_childs nd) = k ->
  0 <= pos < N ->
  zlen (edge_allocator t) < 2147483647 ->
  int32_min <= leaf_addr_allocator t - 1 ->
  create_new_edge_to_leaf_from_node letters pos n t
  = Ok (tt, leaf_tree t pos n nd).
Proof.
  intros Hs Hn Hw Hp Hm Hl. unfold node_of in Hn.
  pose proof (idx_tx_range _ Hp) as Hi.
  destruct (zlookup_in_range (edges_to_childs nd) (idx (tx pos)))
    as [e0 He0]; [lia|].
  unfold create_new_edge_to_leaf_from_node.
  erewrite bind_ok; cycle 1.
  { unfold next_leaf_addr.
    destruct (Z.ltb_spec (leaf_addr_allocator t - 1) int32_min); [lia|].
    reflexivity. }
  tsimpl.
  mstep ltac:(by apply char_at_ok).
  mstep ltac:(by apply allocate_edge_ok).
  rewrite (to_int32_id pos) by lia.
  unfold assign_start_position at 1.
  mstep ltac:(apply modify_edge_ok; tsimpl; apply zlookup_snoc).
  rewrite zupdate_snoc.
  erewrite bind_ok; cycle 1.
  { unfold length_to_end_from. apply read_ok. tsimpl. rewrite Hs.
    rewrite to_int32_id by lia. reflexivity. }
  tsimpl.
  unfold assign_length at 1.
  mstep ltac:(apply modify_edge_ok; tsimpl; apply zlookup_snoc).
  rewrite zupdate_snoc.
  unfold assign_next_node_addr at 1.
  mstep ltac:(apply modify_edge_ok; tsimpl; apply zlookup_snoc).
  rewrite zupdate_snoc.
  mstep ltac:(apply alphabet_index_of_ok; lia).
  erewrite assign_edge_to_child_ok; tsimpl; [|exact Hn|exact He0].
  reflexivity.
Qed.

(** [get_node_by(l).suffix_connection = w] *)
Definition link_tree (t : SuffixTree) (l w : Z) (nd : Node) : SuffixTree :=
  {| expanded_string := expanded_string t;
     root_addr := root_addr t;
     node_allocator :=
       zupdate (node_allocator t) l
         {| suffix_connection := Some w;
            edges_to_childs := edges_to_childs nd |};
     edge_allocator := edge_allocator t;
     leaf_addr_allocator := leaf_addr_allocator t |}.

Lemma assign_suffix_connection_run t l w nd :
  node_of t l = Some nd ->
  assign_suffix_connection l w t = Ok (tt, link_tree t l w nd).
Proof.
  intros Hn. unfold assign_suffix_connection.
  by rewrite (modify_node_ok _ _ _ _ Hn).
Qed.

(** *** Reading a tree after a change *)

Lemma zlen_replicate {A} n (x : A) : zlen (replicate n x) = Z.of_nat n.
Proof. unfold zlen. by rewrite length_replicate. Qed.

Lemma child_Some_node t v i e :
  child t v i = Some e -> exists nd, node_of t v = Some nd.
Proof. unfold child. destruct (node_of t v); [eauto|done]. Qed.

Lemma child_Some_range t v i e :
  child t v i = Some e -> 0 <= v < zlen (node_allocator t).
Proof.
  intros [nd H]%child_Some_node. by apply zlookup_Some_range in H.
Qed.

Lemma has_edge_fun t v i e e' ed ed' :
  has_edge t v i e ed -> has_edge t v i e' ed' -> e = e' /\ ed = ed'.
Proof.
  intros (H1 & _ & H2) (H1' & _ & H2').
  assert (e = e') as <- by congruence. split; [done|congruence].
Qed.

Section Split.

Variables (t : SuffixTree) (e p : Z) (ed : Edge).

Let r := zlen (node_allocator t).
Let ne := zlen (edge_allocator t).
Let i0 := idx (tx (start_position ed + p)).
Let t' := split_tree t e p ed.
Let upper :=
  {| start_position := start_position ed; edge_length := p;
     next_node_addr := r |}.
Let lower :=
  {| start_position := start_position ed + p;
     edge_length := edge_length ed - p;
     next_node_addr := next_node_addr ed |}.

Hypothesis He : edge_of t e = Some ed.
Hypothesis Hi0 : 0 <= i0 < k.
Hypothesis Hvalid_children :
  forall v i x, child t v i = Some x -> x <> -1 -> 0 <= x < ne.

Lemma split_zlen_nodes : zlen (node_allocator t') = r + 1.
Proof. subst t'. unfold split_tree. tsimpl. by rewrite zlen_app. Qed.

Lemma split_zlen_edges : zlen (edge_allocator t') = ne + 1.
Proof.
  subst t'. unfold split_tree. tsimpl.
  by rewrite zlen_app, zlen_zupdate.
Qed.

Lemma split_node_of_old v : v < r -> node_of t' v = node_of t v.
Proof. intros H. unfold node_of. by apply zlookup_app_l. Qed.

Lemma split_node_of_new :
  node_of t' r
  = Some {| suffix_connection := None;
            edges_to_childs :=
              zupdate (replicate (length letters) no_connection) i0 ne |}.
Proof. unfold node_of. apply zlookup_snoc. Qed.

Lemma split_node_of_inv v nd :
  node_of t' v = Some nd ->
  (v < r /\ node_of t v = Some nd) \/
  (v = r /\ nd = {| suffix_connection := None;
                    edges_to_childs :=
                      zupdate (replicate (length letters) no_connection)
                        i0 ne |}).
Proof. intros H. by apply zlookup_snoc_Some in H. Qed.

Lemma split_child_old v i : v < r -> child t' v i = child t v i.
Proof. intros H. unfold child. by rewrite split_node_of_old. Qed.

Lemma split_child_new : child t' r i0 = Some ne.
Proof.
  unfold child. rewrite split_node_of_new. tsimpl.
  apply zlookup_zupdate_eq. rewrite zlen_replicate. exact Hi0.
Qed.

Lemma split_child_new_inv i x :
  child t' r i = Some x -> x <> -1 -> i = i0 /\ x = ne.
Proof.
  unfold child. rewrite split_node_of_new. tsimpl. intros H Hx.
  apply zlookup_zupdate in H as [(-> & -> & _)|[_ H]]; [done|].
  apply zlookup_replicate_Some in H. done.
Qed.

Lemma split_edge_of_old x : x <> e -> x < ne -> edge_of t' x = edge_of t x.
Proof.
  intros H1 H2. unfold edge_of. subst t'. unfold split_tree. tsimpl.
  rewrite zlookup_app_l by (rewrite zlen_zupdate; exact H2).
  by apply zlookup_zupdate_ne.
Qed.

Lemma split_edge_of_upper : edge_of t' e = Some upper.
Proof.
  pose proof (zlookup_Some_range _ _ _ He) as Hr.
  unfold edge_of. subst t'. unfold split_tree. tsimpl.
  rewrite zlookup_app_l by (rewrite zlen_zupdate; apply Hr).
  by apply zlookup_zupdate_eq.
Qed.

Lemma split_edge_of_lower : edge_of t' ne = Some lower.
Proof.
  unfold edge_of. subst t'. unfold split_tree. tsimpl.
  rewrite zlookup_app_r by (rewrite zlen_zupdate; subst ne; lia).
  rewrite zlen_zupdate. subst ne. by rewrite Z.sub_diag.
Qed.

Lemma split_edge_of_inv x ed' :
  edge_of t' x = Some ed' ->
  (x = ne /\ ed' = lower) \/
  (x = e /\ ed' = upper) \/
  (x <> e /\ x < ne /\ edge_of t x = Some ed').
Proof.
  intros H. pose proof (zlookup_Some_range _ _ _ H) as Hr.
  fold t' in Hr. rewrite split_zlen_edges in Hr.
  destruct (Z.eq_dec x ne) as [->|Hne].
  - left. rewrite split_edge_of_lower in H. split; congruence.
  - right. destruct (Z.eq_dec x e) as [->|Hxe].
    + left. rewrite split_edge_of_upper in H. split; congruence.
    + right. rewrite split_edge_of_old in H by lia. split; [done|].
      split; [lia|done].
Qed.

Lemma has_edge_split_inv v i x ed' :
  has_edge t' v i x ed' ->
  (v = r /\ i = i0 /\ x = ne /\ ed' = lower) \/
  (v < r /\ x = e /\ ed' = upper /\ has_edge t v i e ed) \/
  (v < r /\ x <> e /\ has_edge t v i x ed').
Proof.
  intros (Hc & Hx & Hed).
  pose proof (child_Some_range _ _ _ _ Hc) as Hv.
  fold t' in Hv. rewrite split_zlen_nodes in Hv.
  destruct (Z.eq_dec v r) as [->|Hvr].
  - left. destruct (split_child_new_inv _ _ Hc Hx) as [-> ->].
    rewrite split_edge_of_lower in Hed. repeat split; congruence.
  - right. rewrite split_child_old in Hc by lia.
    pose proof (Hvalid_children _ _ _ Hc Hx) as Hxr.
    destruct (Z.eq_dec x e) as [->|Hxe].
    + left. rewrite split_edge_of_upper in Hed.
      split; [lia|]. split; [done|]. split; [congruence|]. by split.
    + right. rewrite split_edge_of_old in Hed by lia.
      split; [lia|]. split; [done|]. by split.
Qed.

Lemma has_edge_split_other v i x ed' :
  has_edge t v i x ed' -> x <> e -> has_edge t' v i x ed'.
Proof.
  intros (Hc & Hx & Hed) Hxe.
  pose proof (child_Some_range _ _ _ _ Hc) as Hv.
  pose proof (Hvalid_children _ _ _ Hc Hx) as Hxr.
  split; [by rewrite split_child_old by apply Hv|]. split; [done|].
  by rewrite split_edge_of_old by lia.
Qed.

Lemma has_edge_split_upper v i :
  has_edge t v i e ed -> has_edge t' v i e upper.
Proof.
  intros (Hc & Hx & Hed).
  pose proof (child_Some_range _ _ _ _ Hc) as Hv.
  split; [by rewrite split_child_old by apply Hv|]. split; [done|].
  apply split_edge_of_upper.
Qed.

Lemma has_edge_split_lower : has_edge t' r i0 ne lower.
Proof.
  split; [apply split_child_new|]. split; [|apply split_edge_of_lower].
  subst ne. pose proof (zlen_nonneg (edge_allocator t)). lia.
Qed.

End Split.

Section Leaf.

Variables (t : SuffixTree) (pos n : Z) (nd : Node).

Let ne := zlen (edge_allocator t).
Let i0 := idx (tx pos).
Let t' := leaf_tree t pos n nd.
Let leaf_edge :=
  {| start_position := pos; edge_length := N - pos;
     next_node_addr := leaf_addr_allocator t - 1 |}.

Hypothesis Hn : node_of t n = Some nd.
Hypothesis Hi0 : 0 <= i0 < zlen (edges_to_childs nd).
Hypothesis Hfree : child t n i0 = Some (-1).
Hypothesis Hvalid_children :
  forall v i x, child t v i = Some x -> x <> -1 -> 0 <= x < ne.

Lemma leaf_zlen_nodes : zlen (node_allocator t') = zlen (node_allocator t).
Proof. subst t'. unfold leaf_tree. tsimpl. by rewrite zlen_zupdate. Qed.

Lemma leaf_zlen_edges : zlen (edge_allocator t') = ne + 1.
Proof. subst t'. unfold leaf_tree. tsimpl. by rewrite zlen_app. Qed.

Lemma leaf_node_of_other v : v <> n -> node_of t' v = node_of t v.
Proof. intros H. unfold node_of. apply zlookup_zupdate_ne. congruence. Qed.

Lemma leaf_node_of_same :
  node_of t' n
  = Some {| suffix_connection := suffix_connection nd;
            edges_to_childs := zupdate (edges_to_childs nd) i0 ne |}.
Proof.
  unfold node_of. apply zlookup_zupdate_eq.
  by apply zlookup_Some_range in Hn.
Qed.

Lemma leaf_node_of_inv v nd' :
  node_of t' v = Some nd' ->
  exists nd0, node_of t v = Some nd0 /\
    suffix_connection nd' = suffix_connection nd0 /\
    zlen (edges_to_childs nd') = zlen (edges_to_childs nd0).
Proof.
  intros H. destruct (Z.eq_dec v n) as [->|Hne].
  - rewrite leaf_node_of_same in H. injection H as <-. exists nd.
    split; [done|]. split; [done|]. tsimpl. apply zlen_zupdate.
  - rewrite leaf_node_of_other in H by done. eauto.
Qed.

Lemma leaf_child_other v i :
  v <> n \/ i <> i0 -> child t' v i = child t v i.
Proof.
  intros H. unfold child. destruct (Z.eq_dec v n) as [->|Hne].
  - rewrite leaf_node_of_same. fold (node_of t n). rewrite Hn. tsimpl.
    apply zlookup_zupdate_ne. destruct H; congruence.
  - by rewrite leaf_node_of_other.
Qed.

Lemma leaf_child_new : child t' n i0 = Some ne.
Proof.
  unfold child. rewrite leaf_node_of_same. tsimpl.
  by apply zlookup_zupdate_eq.
Qed.

Lemma leaf_edge_of_old x : x < ne -> edge_of t' x = edge_of t x.
Proof. intros H. unfold edge_of. by apply zlookup_app_l. Qed.

Lemma leaf_edge_of_new : edge_of t' ne = Some leaf_edge.
Proof. unfold edge_of. apply zlookup_snoc. Qed.

Lemma has_edge_leaf_inv v i x ed' :
  has_edge t' v i x ed' ->
  (v = n /\ i = i0 /\ x = ne /\ ed' = leaf_edge) \/ has_edge t v i x ed'.
Proof.
  intros (Hc & Hx & Hed).
  destruct (Z.eq_dec v n) as [->|Hvn];
    [destruct (Z.eq_dec i i0) as [->|Hii]|].
  - left. rewrite leaf_child_new in Hc. injection Hc as <-.
    rewrite leaf_edge_of_new in Hed. repeat split; congruence.
  - right. rewrite leaf_child_other in Hc by auto.
    pose proof (Hvalid_children _ _ _ Hc Hx) as Hxr.
    rewrite leaf_edge_of_old in Hed by lia. by split.
  - right. rewrite leaf_child_other in Hc by auto.
    pose proof (Hvalid_children _ _ _ Hc Hx) as Hxr.
    rewrite leaf_edge_of_old in Hed by lia. by split.
Qed.

Lemma has_edge_leaf_old v i x ed' :
  has_edge t v i x ed' -> has_edge t' v i x ed'.
Proof.
  intros (Hc & Hx & Hed).
  pose proof (Hvalid_children _ _ _ Hc Hx) as Hxr.
  split; [|split; [done|by rewrite leaf_edge_of_old by lia]].
  rewrite leaf_child_other; [done|].
  destruct (Z.eq_dec v n) as [->|]; [|auto]. right. intros ->.
  congruence.
Qed.

Lemma has_edge_leaf_new : has_edge t' n i0 ne leaf_edge.
Proof.
  split; [apply leaf_child_new|]. split; [|apply leaf_edge_of_new].
  subst ne. pose proof (zlen_nonneg (edge_allocator t)). lia.
Qed.

Lemma leaf_child_mono v i x :
  child t v i = Some x -> x <> -1 -> child t' v i = Some x.
Proof.
  intros Hc Hx. rewrite leaf_child_other; [done|].
  destruct (Z.eq_dec v n) as [->|]; [|auto]. right. intros ->.
  congruence.
Qed.

End Leaf.

Section Link.

Variables (t : SuffixTree) (l w : Z) (nd : Node).

Let t' := link_tree t l w nd.

Hypothesis Hl : node_of t l = Some nd.

Lemma link_zlen_nodes : zlen (node_allocator t') = zlen (node_allocator t).
Proof. subst t'. unfold link_tree. tsimpl. by rewrite zlen_zupdate. Qed.

Lemma link_node_of_other v : v <> l -> node_of t' v = node_of t v.
Proof. intros H. unfold node_of. apply zlookup_zupdate_ne. congruence. Qed.

Lemma link_node_of_same :
  node_of t' l
  = Some {| suffix_connection := Some w;
            edges_to_childs := edges_to_childs nd |}.
Proof.
  unfold node_of. apply zlookup_zupdate_eq.
  by apply zlookup_Some_range in Hl.
Qed.

Lemma link_child v i : child t' v i = child t v i.
Proof.
  unfold child. destruct (Z.eq_dec v l) as [->|Hne].
  - rewrite link_node_of_same. fold (node_of t l). by rewrite Hl.
  - by rewrite link_node_of_other.
Qed.

Lemma link_edge_of x : edge_of t' x = edge_of t x.
Proof. reflexivity. Qed.

Lemma has_edge_link v i x ed' : has_edge t' v i x ed' <-> has_edge t v i x ed'.
Proof. unfold has_edge. by rewrite link_child, link_edge_of. Qed.

End Link.

(** *** The invariant of the construction *)

(** The references of the leaf edges, and the references the first [j]
    decrements of the static counter produce. *)
Definition leaf_refs (t : SuffixTree) : list Z :=
  filter (fun z => z < 0) (next_node_addr <$> edge_allocator t).

Definition leaf_ids (j : Z) : list Z :=
  (fun i => c0 - 1 - Z.of_nat i) <$> seq 0 (Z.to_nat j).

(** [D v] is the length of the string the inner node [v] stands for and
    [S v] a position of the text where this string is read; they are not
    stored in the tree.  The edge [e] in slot [i] of the node [v]: its label
    continues an occurrence of the string of [v], the earliest one, which
    starts before [j]. *)
Record edge_ok (nn : Z) (D S : Z -> Z) (j v i e : Z) (ed : Edge) : Prop := {
  eo_addr : k <= e;
  eo_len : 1 <= edge_length ed;
  eo_start : D v <= start_position ed;
  eo_end : start_position ed + edge_length ed <= N;
  eo_slot : idx (tx (start_position ed)) = i;
  eo_path : seg_eq (start_position ed - D v) (S v) (D v);
  eo_old : start_position ed - D v < j;
  eo_first : first_occ (start_position ed - D v) (D v + 1);
  eo_target :
    (next_node_addr ed < 0 /\
     start_position ed + edge_length ed = N) \/
    (2 <= next_node_addr ed < nn /\
     D (next_node_addr ed) = D v + edge_length ed /\
     S (next_node_addr ed) = start_position ed - D v)
}.

(** The tree after [pos] characters, with leaves for the suffixes before
    [j].  [m] is [pos] between two characters and [pos + 1] inside the second
    stage; [x] is 1 between [add_node_in] and the creation of the leaf of the
    new node; the nodes in [pend] await their suffix connection. *)
Record tree_inv (t : SuffixTree) (D S : Z -> Z) (pos m j x : Z)
    (pend : Z -> Prop) : Prop := {
  ti_text : expanded_string t = s;
  ti_root_addr : root_addr t = 0;
  ti_root :
    exists nd, node_of t 0 = Some nd /\ suffix_connection nd = Some 1;
  ti_dummy : exists nd, node_of t 1 = Some nd;
  ti_depth_root : D 0 = 0;
  ti_depth_dummy : D 1 = -1;
  ti_dummy_child : forall i, 0 <= i < k -> child t 1 i = Some i;
  ti_dummy_edge : forall i, 0 <= i < k ->
    edge_of t i = Some {| start_position := -1; edge_length := 1;
                          next_node_addr := 0 |};
  ti_width : forall v nd,
    node_of t v = Some nd -> zlen (edges_to_childs nd) = k;
  ti_node : forall v, 2 <= v < zlen (node_allocator t) ->
    1 <= D v /\ 0 <= S v /\ S v + D v < pos;
  ti_child_valid : forall v i e,
    child t v i = Some e -> e <> -1 -> 0 <= e < zlen (edge_allocator t);
  ti_edge : forall v i e ed,
    v <> 1 -> has_edge t v i e ed ->
    edge_ok (zlen (node_allocator t)) D S j v i e ed;
  ti_noshare : forall v v' i i' e ed ed',
    v <> 1 -> v' <> 1 ->
    has_edge t v i e ed -> has_edge t v' i' e ed' -> v = v';
  ti_owner : forall e, k <= e < zlen (edge_allocator t) ->
    exists v i ed, v <> 1 /\ has_edge t v i e ed;
  ti_suffix : forall v, 2 <= v < zlen (node_allocator t) -> ~ pend v ->
    exists nd w,
      node_of t v = Some nd /\ suffix_connection nd = Some w /\
      w <> 1 /\ 0 <= w < zlen (node_allocator t) /\
      D w = D v - 1 /\ seg_eq (S v + 1) (S w) (D w);
  ti_parent : forall v, 2 <= v < zlen (node_allocator t) ->
    exists u i e ed,
      u <> 1 /\ has_edge t u i e ed /\ next_node_addr ed = v;
  ti_next_child : forall v a,
    0 <= v < zlen (node_allocator t) -> v <> 1 -> 0 <= a ->
    a + D v + 1 <= pos -> seg_eq a (S v) (D v) ->
    exists e, child t v (idx (tx (a + D v))) = Some e /\ e <> -1;
  ti_next_char : forall v i e ed q a,
    v <> 1 -> has_edge t v i e ed -> 0 < q < edge_length ed -> 0 <= a ->
    a + D v + q + 1 <= pos ->
    seg_eq a (start_position ed - D v) (D v + q) ->
    tx (a + D v + q) = tx (start_position ed + q);
  ti_U : forall a i, 0 <= i < a -> a < j -> ~ seg_eq i a (m - a);
  ti_j : 0 <= j <= m;
  ti_pos : 0 <= pos <= m /\ m <= pos + 1 /\ m <= N;
  ti_x : 0 <= x <= 1;
  ti_count_nodes : zlen (node_allocator t) <= 2 + j + x;
  ti_count_edges :
    zlen (edge_allocator t) = k + j + (zlen (node_allocator t) - 2);
  ti_leaf_counter : leaf_addr_allocator t = c0 - j;
  ti_leaf_refs : leaf_refs t ≡ₚ leaf_ids j
}.

Arguments ti_text {t D S pos m j x pend} _.
Arguments ti_root_addr {t D S pos m j x pend} _.
Arguments ti_root {t D S pos m j x pend} _.
Arguments ti_dummy {t D S pos m j x pend} _.
Arguments ti_depth_root {t D S pos m j x pend} _.
Arguments ti_depth_dummy {t D S pos m j x pend} _.
Arguments ti_dummy_child {t D S pos m j x pend} _.
Arguments ti_dummy_edge {t D S pos m j x pend} _.
Arguments ti_width {t D S pos m j x pend} _.
Arguments ti_node {t D S pos m j x pend} _.
Arguments ti_child_valid {t D S pos m j x pend} _.
Arguments ti_edge {t D S pos m j x pend} _.
Arguments ti_noshare {t D S pos m j x pend} _.
Arguments ti_owner {t D S pos m j x pend} _.
Arguments ti_suffix {t D S pos m j x pend} _.
Arguments ti_parent {t D S pos m j x pend} _.
Arguments ti_next_child {t D S pos m j x pend} _.
Arguments ti_next_char {t D S pos m j x pend} _.
Arguments ti_U {t D S pos m j x pend} _.
Arguments ti_j {t D S pos m j x pend} _.
Arguments ti_pos {t D S pos m j x pend} _.
Arguments ti_x {t D S pos m j x pend} _.
Arguments ti_count_nodes {t D S pos m j x pend} _.
Arguments ti_count_edges {t D S pos m j x pend} _.
Arguments ti_leaf_counter {t D S pos m j x pend} _.
Arguments ti_leaf_refs {t D S pos m j x pend} _.
Arguments eo_addr {nn D S j v i e ed} _.
Arguments eo_len {nn D S j v i e ed} _.
Arguments eo_start {nn D S j v i e ed} _.
Arguments eo_end {nn D S j v i e ed} _.
Arguments eo_slot {nn D S j v i e ed} _.
Arguments eo_path {nn D S j v i e ed} _.
Arguments eo_old {nn D S j v i e ed} _.
Arguments eo_first {nn D S j v i e ed} _.
Arguments eo_target {nn D S j v i e ed} _.

Lemma edge_ok_mono nn nn' D S j j' v i e ed :
  edge_ok nn D S j v i e ed -> nn <= nn' -> j <= j' ->
  edge_ok nn' D S j' v i e ed.
Proof.
  intros [] Hn Hj. constructor; try done; try lia.
Qed.

Lemma tree_inv_pend t D S pos m j x (pend pend' : Z -> Prop) :
  tree_inv t D S pos m j x pend ->
  (forall v, pend v -> pend' v) ->
  tree_inv t D S pos m j x pend'.
Proof.
  intros [] H. constructor; try done.
  intros v Hv Hp. apply ti_suffix0; [done|]. intros Hp'. by apply Hp, H.
Qed.

Section InvFacts.

Variables (t : SuffixTree) (D S : Z -> Z) (pos m j x : Z) (pend : Z -> Prop).
Hypothesis Hinv : tree_inv t D S pos m j x pend.

Lemma inv_nodes_ge2 : 2 <= zlen (node_allocator t).
Proof.
  destruct (ti_dummy Hinv) as [nd H].
  apply zlookup_Some_range in H. lia.
Qed.

Lemma inv_depth_nonneg v :
  0 <= v < zlen (node_allocator t) -> v <> 1 -> 0 <= D v.
Proof.
  intros Hv H1. destruct (Z.eq_dec v 0) as [->|].
  - by rewrite (ti_depth_root Hinv).
  - destruct (ti_node Hinv v); lia.
Qed.

Lemma inv_node_of v :
  0 <= v < zlen (node_allocator t) -> exists nd, node_of t v = Some nd.
Proof. apply zlookup_in_range. Qed.

Lemma inv_child v i :
  0 <= v < zlen (node_allocator t) -> 0 <= i < k ->
  exists e, child t v i = Some e.
Proof.
  intros Hv Hi. destruct (inv_node_of v Hv) as [nd Hnd].
  unfold child. rewrite Hnd. apply zlookup_in_range.
  by rewrite (ti_width Hinv v nd).
Qed.

Lemma inv_child_slot v i e : child t v i = Some e -> 0 <= i < k.
Proof.
  unfold child. destruct (node_of t v) as [nd|] eqn:E; [|done].
  intros H%zlookup_Some_range.
  by rewrite (ti_width Hinv v nd) in H.
Qed.

Lemma inv_has_edge v i e :
  child t v i = Some e -> e <> -1 -> exists ed, has_edge t v i e ed.
Proof.
  intros Hc He.
  destruct (zlookup_in_range (edge_allocator t) e) as [ed Hed].
  { by eapply ti_child_valid. }
  exists ed. by split.
Qed.

End InvFacts.

Arguments inv_nodes_ge2 {t D S pos m j x pend} _.
Arguments inv_depth_nonneg {t D S pos m j x pend} _ _ _ _.
Arguments inv_child {t D S pos m j x pend} _ _ _ _ _.
Arguments inv_child_slot {t D S pos m j x pend} _ _ _ _ _.
Arguments inv_has_edge {t D S pos m j x pend} _ _ _ _ _ _.

(** *** The invariant after a suffix connection is assigned *)

Lemma tree_inv_link t D S pos m j x pend l w nd :
  tree_inv t D S pos m j x pend ->
  node_of t l = Some nd -> l <> 0 ->
  (l = 1 \/
   (w <> 1 /\ 0 <= w < zlen (node_allocator t) /\
    D w = D l - 1 /\ seg_eq (S l + 1) (S w) (D w))) ->
  tree_inv (link_tree t l w nd) D S pos m j x (fun v => pend v /\ v <> l).
Proof.
  intros Hinv Hl Hl0 Hw. pose proof Hinv as [].
  constructor; rewrite ?(link_zlen_nodes t l w nd); try done.
  - destruct ti_root0 as (nd0 & H0 & H1). exists nd0.
    by rewrite (link_node_of_other t l w nd) by done.
  - destruct (Z.eq_dec 1 l) as [<-|Hne].
    + rewrite (link_node_of_same t 1 w nd Hl). eauto.
    + by rewrite (link_node_of_other t l w nd) by done.
  - intros i Hi. rewrite (link_child t l w nd Hl). auto.
  - intros v nd' H. destruct (Z.eq_dec v l) as [->|Hne].
    + rewrite (link_node_of_same t l w nd Hl) in H. injection H as <-.
      tsimpl. eauto.
    + rewrite (link_node_of_other t l w nd) in H by done. eauto.
  - intros v i e. rewrite (link_child t l w nd Hl). apply ti_child_valid0.
  - intros v i e ed Hv H%(has_edge_link t l w nd Hl). auto.
  - intros v v' i i' e ed ed' Hv Hv' H%(has_edge_link t l w nd Hl)
      H'%(has_edge_link t l w nd Hl). eauto.
  - intros e He. destruct (ti_owner0 e He) as (v & i & ed & Hv & H).
    exists v, i, ed. split; [done|]. by apply (has_edge_link t l w nd Hl).
  - intros v Hv Hp. destruct (Z.eq_dec v l) as [->|Hne].
    + rewrite (link_node_of_same t l w nd Hl).
      destruct Hw as [->|(Hw1 & Hw2 & Hw3 & Hw4)]; [lia|].
      eexists _, w. split; [reflexivity|]. tsimpl. done.
    + rewrite (link_node_of_other t l w nd) by done.
      apply ti_suffix0; [done|]. intros Hp'. apply Hp. done.
  - intros v Hv. destruct (ti_parent0 v Hv) as (u & i & e & ed & Hu & H & Hn).
    exists u, i, e, ed. split; [done|]. split; [|done].
    by apply (has_edge_link t l w nd Hl).
  - intros v a Hv Hv1 Ha Hp Hs. rewrite (link_child t l w nd Hl). auto.
  - intros v i e ed q a Hv H%(has_edge_link t l w nd Hl). eauto.
Qed.

(** *** The invariant after a leaf is created *)

Lemma leaf_ids_succ j : 0 <= j -> leaf_ids (j + 1) = leaf_ids j ++ [c0 - 1 - j].
Proof.
  intros Hj. unfold leaf_ids.
  replace (Z.to_nat (j + 1)) with (S (Z.to_nat j)) by lia.
  rewrite seq_S, fmap_app. simpl. do 3 f_equal. lia.
Qed.

Lemma leaf_refs_snoc_leaf t es ed :
  edge_allocator t = es ++ [ed] -> next_node_addr ed < 0 ->
  leaf_refs t = filter (fun z => z < 0) (next_node_addr <$> es)
                ++ [next_node_addr ed].
Proof.
  intros H Hn. unfold leaf_refs.
  rewrite H, fmap_app, list.filter_app. simpl.
  rewrite list.filter_cons_True by done. done.
Qed.

Section LeafInv.

Variables (t : SuffixTree) (D S : Z -> Z) (pos j x : Z) (pend : Z -> Prop).
Variables (n : Z) (nd : Node).

Hypothesis Hinv : tree_inv t D S pos (pos + 1) j x pend.
Hypothesis Hpos : pos < N.
Hypothesis Hn : node_of t n = Some nd.
Hypothesis Hn1 : n <> 1.
Hypothesis Hd : D n = pos - j.
Hypothesis Hs : seg_eq (S n) j (D n).
Hypothesis Hfree : child t n (idx (tx pos)) = Some (-1).

Lemma leaf_depth : 0 <= pos - j.
Proof.
  rewrite <- Hd. eapply inv_depth_nonneg; [exact Hinv| |exact Hn1].
  by apply zlookup_Some_range in Hn.
Qed.

Lemma leaf_first_occ : first_occ j (pos - j + 1).
Proof.
  intros i Hi Hseg.
  destruct (ti_next_child Hinv n i) as (e & He & He1).
  - by apply zlookup_Some_range in Hn.
  - done.
  - lia.
  - lia.
  - eapply seg_eq_trans; [|apply seg_eq_sym, Hs].
    eapply seg_eq_le; [exact Hseg|lia].
  - assert (tx (i + D n) = tx pos) as Htx.
    { rewrite Hd. rewrite (Hseg (pos - j)) by (pose proof leaf_depth; lia).
      f_equal. lia. }
    rewrite Htx in He. congruence.
Qed.

Lemma tree_inv_leaf :
  tree_inv (leaf_tree t pos n nd) D S pos (pos + 1) (j + 1) 0 pend.
Proof.
  pose proof Hinv as [].
  pose proof leaf_depth as Hdepth.
  pose proof leaf_first_occ as Hfirst.
  assert (0 <= pos) as Hpos0 by lia.
  pose proof (idx_tx_range pos (conj Hpos0 Hpos)) as Hi0.
  assert (0 <= idx (tx pos) < zlen (edges_to_childs nd)) as Hi0'
    by (by rewrite (ti_width0 n nd Hn)).
  pose proof (zlen_nonneg (node_allocator t)) as Hnn.
  pose proof (inv_nodes_ge2 Hinv) as Hn2.
  assert (k <= zlen (edge_allocator t)) as Hke by lia.
  constructor;
    rewrite ?(leaf_zlen_nodes t pos n nd), ?(leaf_zlen_edges t pos n nd);
    try done.
  - destruct ti_root0 as (nd0 & H0 & H1).
    destruct (Z.eq_dec 0 n) as [<-|Hne].
    + rewrite (leaf_node_of_same t pos 0 nd Hn). eexists.
      split; [reflexivity|]. tsimpl. congruence.
    + exists nd0. by rewrite (leaf_node_of_other t pos n nd) by done.
  - by rewrite (leaf_node_of_other t pos n nd) by done.
  - intros i Hi. rewrite (leaf_child_other t pos n nd Hn) by auto. auto.
  - intros i Hi. rewrite (leaf_edge_of_old t pos n nd) by lia. auto.
  - intros v nd' H.
    destruct (leaf_node_of_inv t pos n nd Hn v nd' H) as (nd0 & H0 & _ & ->).
    eauto.
  - intros v i e Hc He.
    destruct (Z.eq_dec v n) as [->|Hvn];
      [destruct (Z.eq_dec i (idx (tx pos))) as [->|Hii]|].
    + rewrite (leaf_child_new t pos n nd Hn Hi0') in Hc.
      injection Hc as <-. lia.
    + rewrite (leaf_child_other t pos n nd Hn) in Hc by auto.
      pose proof (ti_child_valid0 _ _ _ Hc He). lia.
    + rewrite (leaf_child_other t pos n nd Hn) in Hc by auto.
      pose proof (ti_child_valid0 _ _ _ Hc He). lia.
  - intros v i e ed Hv H.
    destruct (has_edge_leaf_inv t pos n nd Hn Hi0' ti_child_valid0 _ _ _ _ H)
      as [(-> & -> & -> & ->)|Hold].
    + constructor; tsimpl; try lia.
      * replace (pos - D n) with j by lia. by apply seg_eq_sym.
      * replace (pos - D n) with j by lia.
        replace (D n + 1) with (pos - j + 1) by lia. done.
    + eapply edge_ok_mono; [by apply ti_edge0|lia|lia].
  - intros v v' i i' e ed ed' Hv Hv' H H'.
    destruct (has_edge_leaf_inv t pos n nd Hn Hi0' ti_child_valid0 _ _ _ _ H)
      as [(-> & -> & -> & ->)|Hold];
    destruct (has_edge_leaf_inv t pos n nd Hn Hi0' ti_child_valid0 _ _ _ _ H')
      as [(-> & -> & He' & ->)|Hold'].
    + done.
    + destruct Hold' as (Hc & Hx & _).
      pose proof (ti_child_valid0 _ _ _ Hc Hx). lia.
    + destruct Hold as (Hc & Hx & _).
      pose proof (ti_child_valid0 _ _ _ Hc Hx). lia.
    + eauto.
  - intros e He. destruct (Z.eq_dec e (zlen (edge_allocator t))) as [->|Hne].
    + eexists n, _, _. split; [done|].
      by apply (has_edge_leaf_new t pos n nd Hn Hi0').
    + destruct (ti_owner0 e) as (v & i & ed & Hv & H); [lia|].
      exists v, i, ed. split; [done|].
      by apply (has_edge_leaf_old t pos n nd Hn Hfree ti_child_valid0).
  - intros v Hv Hp. destruct (ti_suffix0 v Hv Hp) as (nd0 & w & H0 & Hw).
    destruct (Z.eq_dec v n) as [->|Hne].
    + rewrite (leaf_node_of_same t pos n nd Hn). eexists _, w.
      split; [reflexivity|]. tsimpl.
      assert (nd0 = nd) as -> by congruence. done.
    + exists nd0, w. by rewrite (leaf_node_of_other t pos n nd) by done.
  - intros v Hv. destruct (ti_parent0 v Hv) as (u & i & e & ed & Hu & H & Hx).
    exists u, i, e, ed. split; [done|]. split; [|done].
    by apply (has_edge_leaf_old t pos n nd Hn Hfree ti_child_valid0).
  - intros v a Hv Hv1 Ha Hp Hseg.
    destruct (ti_next_child0 v a Hv Hv1 Ha Hp Hseg) as (e & He & He1).
    exists e. split; [|done].
    by apply (leaf_child_mono t pos n nd Hn Hfree).
  - intros v i e ed q a Hv H Hq Ha Hp Hseg.
    destruct (has_edge_leaf_inv t pos n nd Hn Hi0' ti_child_valid0 _ _ _ _ H)
      as [(-> & -> & -> & ->)|Hold].
    + exfalso. tsimpl. apply (Hfirst a); [lia|].
      replace (pos - D n) with j in Hseg by lia.
      eapply seg_eq_le; [exact Hseg|lia].
    + eauto.
  - intros a i Hi Ha. destruct (Z.eq_dec a j) as [->|Hne].
    + replace (pos + 1 - j) with (pos - j + 1) by lia. by apply Hfirst.
    + apply ti_U0; [done|lia].
  - lia.
  - lia.
  - lia.
  - unfold leaf_tree. tsimpl. lia.
  - erewrite (leaf_refs_snoc_leaf (leaf_tree t pos n nd));
      [|unfold leaf_tree; tsimpl; reflexivity|tsimpl; lia].
    rewrite leaf_ids_succ by lia. tsimpl.
    fold (leaf_refs t). rewrite ti_leaf_refs0, ti_leaf_counter0.
    replace (c0 - j - 1) with (c0 - 1 - j) by lia. done.
Qed.

End LeafInv.

(** *** The invariant after an edge is split *)

Definition upd (f : Z -> Z) (r y : Z) : Z -> Z :=
  fun u => if u =? r then y else f u.

Lemma upd_eq f r y : upd f r y r = y.
Proof. unfold upd. by rewrite Z.eqb_refl. Qed.

Lemma upd_ne f r y u : u <> r -> upd f r y u = f u.
Proof. intros H. unfold upd. destruct (Z.eqb_spec u r); done. Qed.

Lemma edge_ok_ext nn nn' D S D' S' j v i e ed :
  edge_ok nn D S j v i e ed ->
  (forall u, u < nn -> D' u = D u /\ S' u = S u) ->
  v < nn -> nn <= nn' ->
  edge_ok nn' D' S' j v i e ed.
Proof.
  intros [] Hext Hv Hn. destruct (Hext v Hv) as [HD HS].
  constructor; rewrite ?HD, ?HS; try done.
  destruct eo_target0 as [?|(Hr & Hd & Hs)]; [by left|right].
  destruct (Hext (next_node_addr ed)) as [-> ->]; [lia|].
  split; [lia|done].
Qed.

Lemma leaf_refs_split (es : list Edge) e ed upper lower :
  zlookup es e = Some ed ->
  0 <= next_node_addr upper ->
  next_node_addr lower = next_node_addr ed ->
  filter (fun z => z < 0) (next_node_addr <$> (zupdate es e upper ++ [lower]))
  ≡ₚ filter (fun z => z < 0) (next_node_addr <$> es).
Proof.
  unfold zlookup, zupdate. destruct (0 <=? e); [|done].
  intros He Hu Hl.
  rewrite <- (take_drop_middle es (Z.to_nat e) ed He) at 2.
  rewrite insert_take_drop by (by eapply lookup_lt_Some).
  rewrite !fmap_app, !fmap_cons, !list.filter_app, !list.filter_cons.
  simpl. rewrite Hl.
  destruct (decide (next_node_addr upper < 0)); [lia|].
  destruct (decide (next_node_addr ed < 0)).
  - rewrite !list.filter_nil, <- app_assoc.
    apply Permutation_app_head. simpl.
    rewrite <- Permutation_middle, app_nil_r. done.
  - by rewrite !list.filter_nil, !app_nil_r.
Qed.

Section SplitInv.

Variables (t : SuffixTree) (D S : Z -> Z) (pos j : Z) (pend : Z -> Prop).
Variables (v i e p : Z) (ed : Edge).

Hypothesis Hinv : tree_inv t D S pos (pos + 1) j 0 pend.
Hypothesis Hv1 : v <> 1.
Hypothesis Hedge : has_edge t v i e ed.
Hypothesis Hp : 0 < p < edge_length ed.
Hypothesis Hd : D v + p = pos - j.

Let r := zlen (node_allocator t).
Let ne := zlen (edge_allocator t).
Let D' := upd D r (D v + p).
Let S' := upd S r (start_position ed - D v).

Local Ltac refold :=
  repeat match goal with
  | H : context [zlen (node_allocator t)] |- _ => progress fold r in H
  | H : context [zlen (edge_allocator t)] |- _ => progress fold ne in H
  end;
  fold r ne.

Lemma tree_inv_split :
  tree_inv (split_tree t e p ed) D' S' pos (pos + 1) j 1
    (fun u => pend u \/ u = r).
Proof.
  pose proof Hinv as [].
  pose proof (inv_nodes_ge2 Hinv) as Hn2. fold r in Hn2.
  pose proof (ti_edge0 _ _ _ _ Hv1 Hedge) as [].
  pose proof Hedge as (Hc & He1 & Hed).
  pose proof (child_Some_range _ _ _ _ Hc) as Hvr. fold r in Hvr.
  pose proof (ti_child_valid0 _ _ _ Hc He1) as Her. fold ne in Her.
  assert (0 <= D v) as HDv by (by eapply inv_depth_nonneg).
  assert (0 <= start_position ed + p < N) as Hsp by lia.
  pose proof (idx_tx_range _ Hsp) as Hi0.
  assert (forall u, u < r -> D' u = D u /\ S' u = S u) as Hext.
  { intros u Hu. subst D' S'. rewrite !upd_ne by lia. done. }
  assert (D' r = D v + p) as HDr by apply upd_eq.
  assert (S' r = start_position ed - D v) as HSr by apply upd_eq.
  assert (k <= ne) as Hke by (subst ne r; lia).
  constructor;
    rewrite ?(split_zlen_nodes t e p ed), ?(split_zlen_edges t e p ed);
    fold r ne; try done.
  - destruct ti_root0 as (nd0 & H0 & H1). exists nd0.
    by rewrite (split_node_of_old t e p ed) by (fold r; lia).
  - by rewrite (split_node_of_old t e p ed) by (fold r; lia).
  - destruct (Hext 0) as [-> _]; [lia|done].
  - destruct (Hext 1) as [-> _]; [lia|done].
  - intros i' Hi'. rewrite (split_child_old t e p ed) by (fold r; lia). auto.
  - intros i' Hi'. rewrite (split_edge_of_old t e p ed) by (fold ne; lia).
    auto.
  - intros u nd' H.
    destruct (split_node_of_inv t e p ed _ _ H) as [[_ H']|[_ ->]]; [eauto|].
    tsimpl. rewrite zlen_zupdate. apply zlen_replicate.
  - intros u [Hu1 Hu2]. destruct (Z.eq_dec u r) as [->|Hne].
    + rewrite HDr, HSr. lia.
    + destruct (Hext u) as [-> ->]; [lia|]. apply ti_node0. lia.
  - intros u i' x Hcx Hx.
    pose proof (child_Some_range _ _ _ _ Hcx) as Hur.
    rewrite (split_zlen_nodes t e p ed) in Hur. fold r in Hur.
    destruct (Z.eq_dec u r) as [->|Hne].
    + destruct (split_child_new_inv t e p ed Hi0 _ _ Hcx Hx) as [_ ->].
      fold ne. lia.
    + rewrite (split_child_old t e p ed) in Hcx by (fold r; lia).
      pose proof (ti_child_valid0 _ _ _ Hcx Hx). fold ne in H. lia.
  - intros u i' x ed' Hu H.
    destruct (has_edge_split_inv t e p ed Hed Hi0 ti_child_valid0 _ _ _ _ H)
      as [(-> & -> & -> & ->)|[(Hur & -> & -> & Hold)|(Hur & Hxe & Hold)]];
      refold.
    + constructor; tsimpl; rewrite ?HDr, ?HSr; try lia.
      * replace (start_position ed + p - (D v + p))
          with (start_position ed - D v) by lia. apply seg_eq_refl.
      * replace (start_position ed + p - (D v + p))
          with (start_position ed - D v) by lia.
        eapply first_occ_le; [exact eo_first0|lia].
      * destruct eo_target0 as [[Hl1 Hl2]|(Hr & Hdn & Hsn)]; [left; lia|].
        right. destruct (Hext (next_node_addr ed)) as [-> ->]; [lia|]. lia.
    + assert (u = v) as -> by (by eapply ti_noshare0).
      destruct (Hext v) as [HDv' HSv']; [lia|].
      assert (i' = i) as ->.
      { destruct (ti_edge0 _ _ _ _ Hv1 Hold). congruence. }
      constructor; tsimpl; rewrite ?HDv', ?HSv', ?HDr, ?HSr; try lia; try done.
    + eapply edge_ok_ext; [by apply ti_edge0|exact Hext|lia|lia].
  - intros u u' i1 i2 x ed1 ed2 Hu Hu' H1 H2.
    destruct (has_edge_split_inv t e p ed Hed Hi0 ti_child_valid0 _ _ _ _ H1)
      as [(-> & -> & -> & ->)|[(Hur & -> & -> & Hold)|(Hur & Hxe & Hold)]];
    destruct (has_edge_split_inv t e p ed Hed Hi0 ti_child_valid0 _ _ _ _ H2)
      as [(-> & -> & Hx2 & ->)|[(Hur' & Hx2 & -> & Hold')|(Hur' & Hxe' & Hold')]];
      refold; try done; try lia;
      try (by eapply ti_noshare0; eauto);
      try (destruct Hold' as (Hc' & Hx' & _);
           pose proof (ti_child_valid0 _ _ _ Hc' Hx'); refold; lia);
      try (destruct Hold as (Hc' & Hx' & _);
           pose proof (ti_child_valid0 _ _ _ Hc' Hx'); refold; lia).
  - intros x Hx. destruct (Z.eq_dec x ne) as [->|Hne].
    + exists r, (idx (tx (start_position ed + p))). eexists.
      split; [lia|]. by apply (has_edge_split_lower t e p ed Hi0).
    + destruct (Z.eq_dec x e) as [->|Hxe].
      * exists v, i. eexists. split; [done|].
        by apply (has_edge_split_upper t e p ed Hed).
      * destruct (ti_owner0 x) as (u & i' & ed' & Hu & H); [fold ne; lia|].
        exists u, i', ed'. split; [done|].
        by apply (has_edge_split_other t e p ed ti_child_valid0).
  - intros u Hu Hp'.
    assert (u < r) as Hur by (destruct (Z.eq_dec u r); [tauto|lia]).
    destruct (ti_suffix0 u) as (nd0 & w & H0 & Hw0 & Hw1 & Hw2 & Hw3 & Hw4);
      [fold r; lia|tauto|]. fold r in Hw2.
    exists nd0, w. rewrite (split_node_of_old t e p ed) by (fold r; lia).
    destruct (Hext u) as [-> ->]; [lia|].
    destruct (Hext w) as [-> ->]; [lia|].
    repeat split; try done; lia.
  - intros u Hu. destruct (Z.eq_dec u r) as [->|Hne].
    + exists v, i, e. eexists. split; [done|].
      split; [by apply (has_edge_split_upper t e p ed Hed)|done].
    + destruct (ti_parent0 u) as (u0 & i' & x & ed' & Hu0 & H & Hnx);
        [fold r; lia|].
      destruct (Z.eq_dec x e) as [->|Hxe].
      * assert (ed' = ed) as -> by (destruct H as (_ & _ & H); congruence).
        exists r, (idx (tx (start_position ed + p))), ne. eexists.
        split; [lia|].
        split; [by apply (has_edge_split_lower t e p ed Hi0)|done].
      * exists u0, i', x, ed'. split; [done|]. split; [|done].
        by apply (has_edge_split_other t e p ed ti_child_valid0).
  - intros u a Hu Hu1 Ha Hpa Hseg. destruct (Z.eq_dec u r) as [->|Hne].
    + rewrite HDr, HSr in *. exists ne. split; [|lia].
      replace (a + (D v + p)) with (a + D v + p) by lia.
      rewrite (ti_next_char0 v i e ed p a) by (done || lia).
      by apply (split_child_new t e p ed Hi0).
    + destruct (Hext u) as [HDu HSu]; [lia|]. rewrite HDu, HSu in *.
      rewrite (split_child_old t e p ed) by (fold r; lia).
      apply ti_next_child0; (done || lia).
  - intros u i' x ed' q a Hu H Hq Ha Hpa Hseg.
    destruct (has_edge_split_inv t e p ed Hed Hi0 ti_child_valid0 _ _ _ _ H)
      as [(-> & -> & -> & ->)|[(Hur & -> & -> & Hold)|(Hur & Hxe & Hold)]];
      refold; tsimpl.
    + rewrite HDr in *.
      replace (start_position ed + p - (D v + p))
        with (start_position ed - D v) in Hseg by lia.
      replace (a + (D v + p) + q) with (a + D v + (p + q)) by lia.
      replace (start_position ed + p + q)
        with (start_position ed + (p + q)) by lia.
      apply (ti_next_char0 v i e ed (p + q) a); try done; try lia.
      by replace (D v + (p + q)) with (D v + p + q) by lia.
    + assert (u = v) as -> by (by eapply ti_noshare0).
      destruct (Hext v) as [HDv' HSv']; [lia|]. rewrite HDv' in *.
      apply (ti_next_char0 v i e ed q a); try done; lia.
    + destruct (Hext u) as [HDu HSu]; [lia|]. rewrite HDu in *.
      by apply (ti_next_char0 u i' x ed' q a).
  - lia.
  - lia.
  - unfold leaf_refs, split_tree. tsimpl. fold (leaf_refs t).
    rewrite leaf_refs_split; [exact ti_leaf_refs0|exact Hed| |done].
    tsimpl. lia.
Qed.

End SplitInv.

(** *** Walking the tree along the text *)

Section Walk.

Variables (t : SuffixTree) (D S : Z -> Z) (pos m j x : Z) (pend : Z -> Prop).
Hypothesis Hinv : tree_inv t D S pos m j x pend.

(** An occurrence of the string of [v] that goes on with the first character
    of an edge of [v] goes on along the whole label, as far as the text read
    so far reaches. *)
Lemma edge_match v i e ed a q :
  v <> 1 -> has_edge t v i e ed -> 0 <= a ->
  seg_eq a (start_position ed - D v) (D v) ->
  tx (a + D v) = tx (start_position ed) ->
  1 <= q <= edge_length ed -> a + D v + q <= pos ->
  seg_eq a (start_position ed - D v) (D v + q).
Proof.
  intros Hv He Ha Hseg Hfirst Hq Hpos.
  assert (0 <= D v) as HD.
  { eapply inv_depth_nonneg; [exact Hinv| |done].
    destruct He as [Hc _]. by apply child_Some_range in Hc. }
  assert (forall n : nat,
    1 + Z.of_nat n <= edge_length ed -> a + D v + (1 + Z.of_nat n) <= pos ->
    seg_eq a (start_position ed - D v) (D v + (1 + Z.of_nat n))) as Hind.
  { induction n as [|n IH]; intros Hn Hp.
    - replace (D v + (1 + Z.of_nat 0)) with (D v + 1) by lia.
      apply seg_eq_snoc; [done|done|].
      rewrite Hfirst. f_equal. lia.
    - replace (D v + (1 + Z.of_nat (Datatypes.S n)))
        with (D v + (1 + Z.of_nat n) + 1) by lia.
      apply seg_eq_snoc; [lia|apply IH; lia|].
      replace (a + (D v + (1 + Z.of_nat n)))
        with (a + D v + (1 + Z.of_nat n)) by lia.
      rewrite (ti_next_char Hinv v i e ed (1 + Z.of_nat n) a);
        try done; try lia.
      + f_equal. lia.
      + apply IH; lia. }
  replace q with (1 + Z.of_nat (Z.to_nat (q - 1))) by lia.
  apply Hind; lia.
Qed.

(** Where the iterator stands: at the end of the string of length [pos - jo]
    read at [jo], either on a node or [position] characters down an edge. *)
Definition locus (jo : Z) (it : InnerPosition) : Prop :=
  (position it = 0 /\ edge_addr it = -1 /\
   0 <= node_addr it < zlen (node_allocator t) /\
   D (node_addr it) = pos - jo /\
   (node_addr it <> 1 -> seg_eq (S (node_addr it)) jo (D (node_addr it))))
  \/
  (0 < position it /\ node_addr it <> 1 /\
   exists ed,
     has_edge t (node_addr it) (idx (tx (start_position ed)))
       (edge_addr it) ed /\
     position it <= edge_length ed /\
     D (node_addr it) + position it = pos - jo /\
     seg_eq (start_position ed - D (node_addr it)) jo
       (D (node_addr it) + position it) /\
     start_position ed - D (node_addr it) < jo).

(** The active point: a locus that is not at the end of its edge. *)
Definition active (jo : Z) (it : InnerPosition) : Prop :=
  locus jo it /\
  forall ed, edge_of t (edge_addr it) = Some ed ->
             position it < edge_length ed.

Lemma not_leaf_edge u i e ed a :
  u <> 1 -> has_edge t u i e ed -> 0 <= a ->
  seg_eq a (start_position ed - D u) (D u + edge_length ed) ->
  a + D u + edge_length ed < N ->
  2 <= next_node_addr ed < zlen (node_allocator t) /\
  D (next_node_addr ed) = D u + edge_length ed /\
  S (next_node_addr ed) = start_position ed - D u.
Proof.
  intros Hu He Ha Hseg Hlt.
  destruct (ti_edge Hinv _ _ _ _ Hu He).
  destruct eo_target0 as [[Hleaf Hend]|Hnode]; [exfalso|done].
  assert (0 <= D u) as HD.
  { eapply inv_depth_nonneg; [exact Hinv| |done].
    destruct He as [Hc _]. by apply child_Some_range in Hc. }
  assert (start_position ed - D u <= a) as Hle.
  { destruct (Z.le_gt_cases (start_position ed - D u) a); [done|].
    exfalso. apply (eo_first0 a); [lia|].
    eapply seg_eq_le; [exact Hseg|lia]. }
  assert (a <> start_position ed - D u) as Hne by lia.
  specialize (Hseg (D u + edge_length ed - 1)).
  replace (start_position ed - D u + (D u + edge_length ed - 1))
    with (N - 1) in Hseg by lia.
  apply Hterm in Hseg; lia.
Qed.

Lemma skip_edges_spec e0 ed0 a jo :
  edge_of t e0 = Some ed0 ->
  0 <= a <= jo -> jo < pos -> j <= jo + 1 -> pos <= N ->
  seg_eq a (jo + 1) (pos - jo - 1) ->
  forall (n : nat) u eu rem processed,
    (Z.to_nat rem <= n)%nat ->
    0 <= u < zlen (node_allocator t) -> u <> 1 -> 1 <= rem ->
    D u + rem = pos - jo - 1 ->
    seg_eq a (S u) (D u) ->
    start_position ed0 + processed = a + D u ->
    child t u (idx (tx (a + D u))) = Some eu -> eu <> -1 ->
    exists it',
      (forall fuel, (n < fuel)%nat ->
         skip_edges letters fuel e0 processed
           {| node_addr := u; edge_addr := eu; position := rem |} t
         = Ok (it', t)) /\
      active (jo + 1) it'.
Proof.
  intros He0 Ha Hjo Hj HposN Hocc.
  pose proof (ti_text Hinv) as Htext.
  induction n as [|n IH];
    intros u eu rem processed Hn Hu Hu1 Hrem Hd Hsu Hproc Hc Heu; [lia|].
  destruct (inv_has_edge Hinv _ _ _ Hc Heu) as [edu Hedge].
  pose proof (ti_edge Hinv _ _ _ _ Hu1 Hedge) as [].
  assert (0 <= D u) as HD by (by eapply inv_depth_nonneg).
  assert (tx (a + D u) = tx (start_position edu)) as Hfirst.
  { symmetry. apply tx_inj; [lia|lia|done]. }
  assert (seg_eq a (start_position edu - D u) (D u)) as Hpath.
  { eapply seg_eq_trans; [exact Hsu|by apply seg_eq_sym]. }
  pose proof Hedge as (_ & _ & Hedu).
  destruct (Z.lt_ge_cases rem (edge_length edu)) as [Hlt|Hge].
  - (* the walk ends inside this edge *)
    exists {| node_addr := u; edge_addr := eu; position := rem |}. split.
    + intros [|fuel] Hf; [lia|]. simpl.
      mstep ltac:(by apply get_edge_by_ok).
      destruct (Z.geb_spec rem (edge_length edu)); [lia|done].
    + split.
      * right. tsimpl. split; [lia|]. split; [done|]. exists edu.
        rewrite eo_slot0. split; [done|]. split; [lia|]. split; [lia|].
        split; [|lia].
        eapply seg_eq_trans; [apply seg_eq_sym|].
        -- apply (edge_match u (idx (tx (a + D u))) eu edu a rem); try done; lia.
        -- eapply seg_eq_le; [exact Hocc|lia].
      * tsimpl. intros ed' Hed'. unfold edge_of in *. congruence.
  - (* the walk passes the end of this edge *)
    assert (seg_eq a (start_position edu - D u) (D u + edge_length edu))
      as Hwhole
      by (apply (edge_match u (idx (tx (a + D u))) eu edu a); try done; lia).
    destruct (not_leaf_edge u (idx (tx (a + D u))) eu edu a)
      as (Hnx & HDn & HSn);
      try done; try lia.
    assert (seg_eq a (S (next_node_addr edu)) (D (next_node_addr edu)))
      as Hsn by (by rewrite HSn, HDn).
    destruct (Z.eq_dec (rem - edge_length edu) 0) as [Hz|Hnz].
    + exists {| node_addr := next_node_addr edu; edge_addr := no_connection;
                position := rem - edge_length edu |}. split.
      * intros [|fuel] Hf; [lia|]. simpl.
        mstep ltac:(by apply get_edge_by_ok).
        destruct (Z.geb_spec rem (edge_length edu)); [|lia].
        destruct (Z.eqb_spec (rem - edge_length edu) 0); [done|lia].
      * split.
        -- left. tsimpl. split; [done|]. split; [done|]. split; [lia|].
           split; [lia|]. intros _.
           eapply seg_eq_trans; [apply seg_eq_sym, Hsn|].
           eapply seg_eq_le; [exact Hocc|lia].
        -- tsimpl. intros ed' Hed'. unfold edge_of, no_connection in Hed'.
           apply zlookup_Some_range in Hed'. lia.
    + destruct (ti_next_child Hinv (next_node_addr edu) a)
        as (e' & Hc' & He'); try done; try lia.
      destruct (IH (next_node_addr edu) e' (rem - edge_length edu)
                  (processed + edge_length edu))
        as (it' & Hrun & Hact); try done; try lia.
      exists it'. split; [|done].
      intros [|fuel] Hf; [lia|]. simpl.
      mstep ltac:(by apply get_edge_by_ok).
      destruct (Z.geb_spec rem (edge_length edu)); [|lia].
      destruct (Z.eqb_spec (rem - edge_length edu) 0); [lia|].
      mstep ltac:(by apply get_edge_by_ok).
      replace (start_position ed0 + (processed + edge_length edu))
        with (a + D (next_node_addr edu)) by lia.
      mstep ltac:(apply char_at_ok; [done|lia]).
      mstep ltac:(apply alphabet_index_of_ok; apply Hvalid; lia).
      mstep ltac:(by apply edge_to_child_run).
      apply Hrun. lia.
Qed.

Lemma go_using_suffix_connection_spec jo it :
  locus jo it -> jo <= pos -> j <= jo + 1 -> pos <= N ->
  ~ pend (node_addr it) ->
  exists it',
    (forall fuel, (Z.to_nat (position it) < fuel)%nat ->
       go_using_suffix_connection letters fuel it t = Ok (it', t)) /\
    active (jo + 1) it' /\
    (position it = 0 -> position it' = 0).
Proof.
  intros Hloc Hjo Hj HposN Hnp.
  pose proof (ti_text Hinv) as Htext.
  pose proof (ti_depth_root Hinv) as HD0.
  pose proof (ti_depth_dummy Hinv) as HD1.
  pose proof (inv_nodes_ge2 Hinv) as Hn2.
  destruct it as [v e p]. tsimpl.
  (* the suffix connection of [v] *)
  assert (v <> 1 -> 0 <= v < zlen (node_allocator t) ->
          exists nd w, node_of t v = Some nd /\
            suffix_connection nd = Some w /\
            0 <= w < zlen (node_allocator t) /\ D w = D v - 1 /\
            (v = 0 /\ w = 1 \/
             2 <= v /\ w <> 1 /\ seg_eq (S v + 1) (S w) (D w))) as Hsuf.
  { intros Hv1 Hv. destruct (Z.eq_dec v 0) as [->|Hv0].
    - destruct (ti_root Hinv) as (nd & Hnd & Hw).
      exists nd, 1. repeat split; try done; try lia.
    - destruct (ti_suffix Hinv v) as
        (nd & w & Hnd & Hw & Hw1 & Hwr & HDw & Hsw); [lia|done|].
      exists nd, w. repeat split; try done; try lia. right.
      repeat split; try done; lia. }
  destruct Hloc as [(Hp & He & Hv & HD & Hseg)|(Hp & Hv1 & ed & Hedge & Hple
                                                   & HD & Hseg & Hold)];
    tsimpl.
  - (* on a node *)
    subst p e. assert (v <> 1) as Hv1 by (intros ->; lia).
    destruct (Hsuf Hv1 Hv) as (nd & w & Hnd & Hw & Hwr & HDw & Hcase).
    exists {| node_addr := w; edge_addr := no_connection; position := 0 |}.
    split.
    + intros fuel _. unfold go_using_suffix_connection. tsimpl.
      mstep ltac:(by eapply suffix_connection_of_ok).
      reflexivity.
    + split; [split|done].
      * left. tsimpl. split; [done|]. split; [done|]. split; [done|].
        split; [lia|]. intros Hw1.
        destruct Hcase as [[_ ->]|(Hv2 & _ & Hsw)]; [done|].
        eapply seg_eq_trans; [apply seg_eq_sym, Hsw|].
        replace (D w) with (D v - 1) by lia.
        replace (jo + 1) with (jo + 1) by lia.
        by apply seg_eq_shift; [apply Hseg|].
      * tsimpl. intros ed' Hed'. unfold edge_of, no_connection in Hed'.
        apply zlookup_Some_range in Hed'. lia.
  - (* down an edge *)
    pose proof Hedge as (Hc & He1 & Hed).
    pose proof (child_Some_range _ _ _ _ Hc) as Hv.
    pose proof (ti_edge Hinv _ _ _ _ Hv1 Hedge) as [].
    assert (0 <= D v) as HDv by (by eapply inv_depth_nonneg).
    destruct (Hsuf Hv1 Hv) as (nd & w & Hnd & Hw & Hwr & HDw & Hcase).
    set (a := start_position ed - D v + 1).
    assert (seg_eq a (jo + 1) (pos - jo - 1)) as Hocc.
    { subst a. replace (pos - jo - 1) with (D v + p - 1) by lia.
      by apply seg_eq_shift. }
    assert (0 <= start_position ed < N) as Hst by lia.
    destruct Hcase as [[-> ->]|(Hv2 & Hw1 & Hsw)].
    + (* from the root, through the dummy *)
      rewrite HD0 in *.
      pose proof (idx_tx_range _ Hst) as Hi.
      pose proof (ti_dummy_child Hinv _ Hi) as Hdc.
      pose proof (ti_dummy_edge Hinv _ Hi) as Hde.
      destruct (Z.eq_dec (p - 1) 0) as [Hz|Hnz].
      * exists {| node_addr := 0; edge_addr := no_connection;
                  position := p - 1 |}. split.
        -- intros [|fuel] Hf; [lia|].
           unfold go_using_suffix_connection. tsimpl.
           mstep ltac:(by eapply suffix_connection_of_ok).
           destruct (Z.eqb_spec p 0); [lia|].
           mstep ltac:(by apply get_edge_by_ok).
           mstep ltac:(by apply char_at_ok).
           mstep ltac:(apply alphabet_index_of_ok; lia).
           mstep ltac:(by apply edge_to_child_run).
           simpl. mstep ltac:(by apply get_edge_by_ok).
           destruct (Z.geb_spec p 1); [|lia].
           destruct (Z.eqb_spec (p - 1) 0); [done|lia].
        -- split; [split|intros; lia].
           ++ left. tsimpl. split; [done|]. split; [done|]. split; [lia|].
              split; [lia|]. intros _. rewrite HD0. apply seg_eq_nonpos. lia.
           ++ tsimpl. intros ed' Hed'. unfold edge_of, no_connection in Hed'.
              apply zlookup_Some_range in Hed'. lia.
      * destruct (ti_next_child Hinv 0 a)
          as (e' & Hc' & He'); try done; try lia.
        { rewrite HD0. apply seg_eq_nonpos. lia. }
        destruct (skip_edges_spec e ed a jo Hed ltac:(lia) ltac:(lia) Hj
                    HposN Hocc (Z.to_nat (p - 1)) 0 e' (p - 1) 1)
          as (it' & Hrun & Hact); try done; try lia.
        { rewrite HD0. apply seg_eq_nonpos. lia. }
        exists it'. split; [|split; [done|intros; lia]].
        intros [|fuel] Hf; [lia|].
        unfold go_using_suffix_connection. tsimpl.
        mstep ltac:(by eapply suffix_connection_of_ok).
        destruct (Z.eqb_spec p 0); [lia|].
        mstep ltac:(by apply get_edge_by_ok).
        mstep ltac:(by apply char_at_ok).
        mstep ltac:(apply alphabet_index_of_ok; lia).
        mstep ltac:(by apply edge_to_child_run).
        simpl. mstep ltac:(by apply get_edge_by_ok).
        destruct (Z.geb_spec p 1); [|lia].
        destruct (Z.eqb_spec (p - 1) 0); [lia|].
        mstep ltac:(by apply get_edge_by_ok).
        replace (start_position ed + (0 + 1)) with (a + D 0)
          by (subst a; lia).
        mstep ltac:(apply char_at_ok; [done|subst a; lia]).
        mstep ltac:(apply alphabet_index_of_ok; apply Hvalid; subst a; lia).
        mstep ltac:(by apply edge_to_child_run).
        apply Hrun. lia.
    + (* from an inner node *)
      assert (seg_eq a (S w) (D w)) as Hsa.
      { eapply seg_eq_trans; [|exact Hsw]. subst a.
        replace (D w) with (D v - 1) by lia.
        by apply seg_eq_shift. }
      assert (a + D w = start_position ed) as Haw by (subst a; lia).
      destruct (ti_next_child Hinv w a)
        as (e' & Hc' & He'); try done; try lia.
      destruct (skip_edges_spec e ed a jo Hed ltac:(subst a; lia) ltac:(lia)
                  Hj HposN Hocc (Z.to_nat p) w e' p 0)
        as (it' & Hrun & Hact); try done; try lia.
      exists it'. split; [|split; [done|intros; lia]].
      intros fuel Hf.
      unfold go_using_suffix_connection. tsimpl.
      mstep ltac:(by eapply suffix_connection_of_ok).
      destruct (Z.eqb_spec p 0); [lia|].
      mstep ltac:(by apply get_edge_by_ok).
      mstep ltac:(by apply char_at_ok).
      mstep ltac:(apply alphabet_index_of_ok; apply Hvalid; lia).
      rewrite Haw in Hc'.
      mstep ltac:(by apply edge_to_child_run).
      apply Hrun. lia.
Qed.

End Walk.

Arguments edge_match {t D S pos m j x pend} _ _ _ _ _ _ _.
Arguments go_using_suffix_connection_spec {t D S pos m j x pend} _ _ _.

(** *** The iterator and the visited nodes across a change of the tree *)

Definition pend_of (last : Z) : Z -> Prop := fun u => u = last /\ 2 <= u.

Definition no_pend : Z -> Prop := fun _ => False.

(** The nodes at which the current second stage has created a leaf. *)
Definition visited (t : SuffixTree) (D S : Z -> Z) (pos j0 j : Z) : Prop :=
  forall a, j0 <= a < j ->
    exists n e,
      0 <= n < zlen (node_allocator t) /\ n <> 1 /\
      D n = pos - a /\ seg_eq (S n) a (D n) /\
      child t n (idx (tx pos)) = Some e /\ e <> -1.

Lemma locus_ext t t' D S D' S' pos jo it :
  locus t D S pos jo it ->
  zlen (node_allocator t) <= zlen (node_allocator t') ->
  (forall u, u < zlen (node_allocator t) -> D' u = D u /\ S' u = S u) ->
  (forall i ed,
     has_edge t (node_addr it) i (edge_addr it) ed ->
     has_edge t' (node_addr it) i (edge_addr it) ed) ->
  locus t' D' S' pos jo it.
Proof.
  intros [(Hp & He & Hv & HD & Hseg)|(Hp & Hv1 & ed & Hedge & Hple & HD
                                       & Hseg & Hold)] Hlen Hext Hmono.
  - left. destruct (Hext (node_addr it)) as [HD' HS']; [lia|].
    rewrite HD', HS'. repeat split; try done; lia.
  - right. pose proof Hedge as (Hc & _).
    apply child_Some_range in Hc.
    destruct (Hext (node_addr it)) as [HD' HS']; [lia|].
    rewrite HD'. split; [done|]. split; [done|]. exists ed. auto.
Qed.

Lemma visited_ext t t' D S D' S' pos j0 j :
  visited t D S pos j0 j ->
  zlen (node_allocator t) <= zlen (node_allocator t') ->
  (forall u, u < zlen (node_allocator t) -> D' u = D u /\ S' u = S u) ->
  (forall n i e, child t n i = Some e -> e <> -1 -> child t' n i = Some e) ->
  visited t' D' S' pos j0 j.
Proof.
  intros Hvis Hlen Hext Hmono a Ha.
  destruct (Hvis a Ha) as (n & e & Hn & Hn1 & HD & Hseg & Hc & He).
  exists n, e. destruct (Hext n) as [HD' HS']; [lia|]. rewrite HD', HS'.
  repeat split; try done; try lia. by apply Hmono.
Qed.

Lemma visited_snoc t D S pos j0 j n e :
  visited t D S pos j0 j ->
  0 <= n < zlen (node_allocator t) -> n <> 1 ->
  D n = pos - j -> seg_eq (S n) j (D n) ->
  child t n (idx (tx pos)) = Some e -> e <> -1 ->
  visited t D S pos j0 (j + 1).
Proof.
  intros Hvis Hn Hn1 HD Hseg Hc He a Ha.
  destruct (Z.eq_dec a j) as [->|Hne]; [|apply Hvis; lia].
  exists n, e. done.
Qed.

Lemma active_locus t D S pos jo it : active t D S pos jo it -> locus t D S pos jo it.
Proof. by intros [H _]. Qed.

(** *** The tests of the second stage *)

Section Tests.

Variables (t : SuffixTree) (D S : Z -> Z) (pos m j x : Z) (pend : Z -> Prop).
Hypothesis Hinv : tree_inv t D S pos m j x pend.
Hypothesis Hpos : pos < N.

Lemma active_edge_facts jo it :
  active t D S pos jo it -> 0 < position it ->
  exists ed,
    has_edge t (node_addr it) (idx (tx (start_position ed)))
      (edge_addr it) ed /\
    node_addr it <> 1 /\
    position it < edge_length ed /\
    D (node_addr it) + position it = pos - jo /\
    seg_eq (start_position ed - D (node_addr it)) jo
      (D (node_addr it) + position it) /\
    start_position ed - D (node_addr it) < jo /\
    0 <= start_position ed + position it < pos.
Proof.
  intros [[(Hp & _)|(Hp & Hv1 & ed & Hedge & Hple & HD & Hseg & Hold)] Hlt]
    Hpos'; [lia|].
  exists ed. pose proof Hedge as (Hc & He & Hed).
  pose proof (Hlt _ Hed).
  destruct (ti_edge Hinv _ _ _ _ Hv1 Hedge).
  assert (0 <= D (node_addr it)).
  { eapply inv_depth_nonneg; [exact Hinv| |done].
    by apply child_Some_range in Hc. }
  repeat split; try done; lia.
Qed.

Lemma is_position_in_edge_without_path_spec it :
  active t D S pos j it ->
  exists b,
    is_position_in_edge_without_path pos it t = Ok (b, t) /\
    (b = true ->
       0 < position it /\
       exists ed, edge_of t (edge_addr it) = Some ed /\
         tx (start_position ed + position it) <> tx pos) /\
    (b = false ->
       position it = 0 \/
       (0 < position it /\
        exists ed, edge_of t (edge_addr it) = Some ed /\
          tx (start_position ed + position it) = tx pos)).
Proof.
  intros Hact. pose proof (ti_text Hinv) as Htext.
  pose proof (ti_pos Hinv) as Hp0.
  unfold is_position_in_edge_without_path.
  destruct (Z.eqb_spec (position it) 0) as [Hz|Hnz].
  - exists false. split; [done|]. split; [done|]. by left.
  - assert (0 < position it) as Hp.
    { destruct Hact as [[(? & _)|(? & _)] _]; lia. }
    destruct (active_edge_facts _ _ Hact Hp)
      as (ed & Hedge & Hv1 & Hlt & HD & Hseg & Hold & Hr).
    pose proof Hedge as (_ & _ & Hed).
    exists (negb (tx (start_position ed + position it) =? tx pos)).
    split.
    + mstep ltac:(by apply get_edge_by_ok).
      mstep ltac:(apply char_at_ok; [done|lia]).
      mstep ltac:(apply char_at_ok; [done|lia]).
      reflexivity.
    + split.
      * intros Hb. split; [done|]. exists ed. split; [done|].
        by destruct (Z.eqb_spec (tx (start_position ed + position it))
                       (tx pos)).
      * intros Hb. right. split; [done|]. exists ed. split; [done|].
        by destruct (Z.eqb_spec (tx (start_position ed + position it))
                       (tx pos)).
Qed.

Lemma is_position_in_node_without_path_spec it :
  active t D S pos j it ->
  exists b,
    is_position_in_node_without_path letters pos it t = Ok (b, t) /\
    (b = true ->
       position it = 0 /\
       child t (node_addr it) (idx (tx pos)) = Some (-1)) /\
    (b = false ->
       0 < position it \/
       (position it = 0 /\
        exists e, child t (node_addr it) (idx (tx pos)) = Some e /\
                  e <> -1)).
Proof.
  intros Hact. pose proof (ti_text Hinv) as Htext.
  pose proof (ti_pos Hinv) as Hp0.
  assert (0 <= pos < N) as Hpr by lia.
  pose proof (idx_tx_range _ Hpr) as Hi.
  unfold is_position_in_node_without_path.
  destruct (Z.eqb_spec (position it) 0) as [Hz|Hnz].
  - destruct Hact as [[(_ & He & Hv & HD & Hseg)|(? & _)] _]; [|lia].
    destruct (inv_child Hinv _ _ Hv Hi) as [e Hc].
    exists (e =? no_connection). split.
    + mstep ltac:(by apply char_at_ok).
      mstep ltac:(apply alphabet_index_of_ok; lia).
      mstep ltac:(by apply edge_to_child_run).
      reflexivity.
    + unfold no_connection. split.
      * intros Hb. split; [done|].
        destruct (Z.eqb_spec e (-1)); [congruence|done].
      * intros Hb. right. split; [done|]. exists e. split; [done|].
        by destruct (Z.eqb_spec e (-1)).
  - exists false. split.
    + mstep ltac:(by apply char_at_ok). reflexivity.
    + split; [done|]. intros _. left.
      destruct Hact as [[(? & _)|(? & _)] _]; lia.
Qed.

End Tests.

Arguments active_edge_facts {t D S pos m j x pend} _ _ _ _ _.
Arguments is_position_in_edge_without_path_spec {t D S pos m j x pend} _ _ _.
Arguments is_position_in_node_without_path_spec {t D S pos m j x pend} _ _ _.

(** *** One round of the second stage: a split, a leaf, a suffix jump *)

(** The node created last awaits its suffix connection: it stands for the
    string one character longer than the one of the active point. *)
Definition pend_ok (t : SuffixTree) (D S : Z -> Z) (pos last j : Z) : Prop :=
  last = 1 \/
  (2 <= last < zlen (node_allocator t) /\
   D last = pos - j + 1 /\ seg_eq (S last + 1) j (pos - j)).

Definition mismatch (t : SuffixTree) (pos : Z) (it : InnerPosition) : Prop :=
  exists ed, edge_of t (edge_addr it) = Some ed /\
    tx (start_position ed + position it) <> tx pos.

Lemma inv_capacity t D S pos m j x pend :
  tree_inv t D S pos m j x pend ->
  zlen (node_allocator t) < 2147483647 /\
  zlen (edge_allocator t) < 2147483647 /\
  (j < N -> int32_min <= leaf_addr_allocator t - 1).
Proof.
  intros Hinv. pose proof (ti_count_nodes Hinv). pose proof (ti_count_edges Hinv).
  pose proof (ti_j Hinv). pose proof (ti_pos Hinv). pose proof (ti_x Hinv).
  pose proof (ti_leaf_counter Hinv). pose proof (zlen_nonneg letters).
  unfold int32_min in *. lia.
Qed.

Section Round.

Variables (t : SuffixTree) (D S : Z -> Z) (pos j j0 last : Z).
Variable it : InnerPosition.
Variable link : bool.

Hypothesis Hinv : tree_inv t D S pos (pos + 1) j 0 (pend_of last).
Hypothesis Hpos : pos < N.
Hypothesis Hact : active t D S pos j it.
Hypothesis Hvis : visited t D S pos j0 j.
Hypothesis Hpend : pend_ok t D S pos last j.
Hypothesis Hlink : link = false -> last = 1.
Hypothesis Hp : 0 < position it.
Hypothesis Hmis : mismatch t pos it.

Let r := zlen (node_allocator t).

Lemma split_round :
  exists t1 t2 t3 D' S' it',
    add_node_in letters it t = Ok (r, t1) /\
    (if link then assign_suffix_connection last r t1 = Ok (tt, t2)
     else t2 = t1) /\
    create_new_edge_to_leaf_from_node letters pos r t2 = Ok (tt, t3) /\
    (forall fuel, (Z.to_nat N < fuel)%nat ->
       go_using_suffix_connection letters fuel it t3 = Ok (it', t3)) /\
    tree_inv t3 D' S' pos (pos + 1) (j + 1) 0 (pend_of r) /\
    active t3 D' S' pos (j + 1) it' /\
    visited t3 D' S' pos j0 (j + 1) /\
    pend_ok t3 D' S' pos r (j + 1) /\
    (0 < position it' -> mismatch t3 pos it').
Proof.
  destruct (active_edge_facts Hinv _ _ Hact Hp)
    as (ed & Hedge & Hv1 & Hlt & HD & Hseg & Hold & Hr).
  destruct it as [v e p]. tsimpl.
  pose proof Hedge as (Hc & He1 & Hed).
  pose proof (child_Some_range _ _ _ _ Hc) as Hv. fold r in Hv.
  pose proof (ti_edge Hinv _ _ _ _ Hv1 Hedge) as Heo.
  assert (0 <= D v) as HDv by (by eapply inv_depth_nonneg).
  pose proof (inv_nodes_ge2 Hinv) as Hn2. fold r in Hn2.
  pose proof (ti_pos Hinv) as Hpos0.
  pose proof (ti_j Hinv) as Hj.
  assert (tx (start_position ed + p) <> tx pos) as Hne.
  { destruct Hmis as (ed' & Hed' & Hne). tsimpl.
    assert (ed' = ed) as -> by congruence. done. }
  assert (0 <= start_position ed + p < N) as Hsp by lia.
  pose proof (idx_tx_range _ Hsp) as Hi0.
  assert (0 <= pos < N) as Hposr by lia.
  pose proof (idx_tx_range _ Hposr) as Hic.
  assert (idx (tx pos) <> idx (tx (start_position ed + p))) as Hslots.
  { intros Heq. apply Hne. symmetry. by apply tx_inj. }
  set (D' := upd D r (D v + p)).
  set (S' := upd S r (start_position ed - D v)).
  assert (forall u, u < r -> D' u = D u /\ S' u = S u) as Hext.
  { intros u Hu. subst D' S'. rewrite !upd_ne by lia. done. }
  assert (D' r = D v + p) as HDr by apply upd_eq.
  assert (S' r = start_position ed - D v) as HSr by apply upd_eq.
  destruct (Hext v) as [HDv' HSv']; [lia|].
  (* the split *)
  set (t1 := split_tree t e p ed).
  pose proof (tree_inv_split t D S pos j _ v _ e p ed Hinv Hv1 Hedge
                ltac:(lia) HD) as Hinv1.
  fold r D' S' t1 in Hinv1.
  destruct (inv_capacity _ _ _ _ _ _ _ _ Hinv) as (Hcn & Hce & _).
  assert (add_node_in letters {| node_addr := v; edge_addr := e;
                                 position := p |} t = Ok (r, t1)) as Hrun1.
  { apply add_node_in_run; tsimpl; try done. apply (ti_text Hinv). }
  assert (zlen (node_allocator t1) = r + 1) as Hlen1
    by apply split_zlen_nodes.
  assert (node_of t1 r = Some
            {| suffix_connection := None;
               edges_to_childs :=
                 zupdate (replicate (length letters) no_connection)
                   (idx (tx (start_position ed + p)))
                   (zlen (edge_allocator t)) |}) as Hr1
    by apply split_node_of_new.
  assert (child t1 r (idx (tx pos)) = Some (-1)) as Hfree1.
  { unfold child. rewrite Hr1. tsimpl.
    rewrite zlookup_zupdate_ne by congruence.
    apply zlookup_replicate. unfold zlen in Hic. lia. }
  assert (has_edge t1 v (idx (tx (start_position ed))) e
            {| start_position := start_position ed; edge_length := p;
               next_node_addr := r |}) as Hup1
    by (by apply has_edge_split_upper).
  assert (forall n i x, child t n i = Some x -> x <> -1 ->
                        child t1 n i = Some x) as Hmono1.
  { intros n i x Hcx _. pose proof (child_Some_range _ _ _ _ Hcx).
    subst t1. by rewrite split_child_old by (fold r; lia). }
  (* the suffix connection of the node created before *)
  assert (exists t2,
    (if link then assign_suffix_connection last r t1 = Ok (tt, t2)
     else t2 = t1) /\
    tree_inv t2 D' S' pos (pos + 1) j 1 (pend_of r) /\
    zlen (node_allocator t2) = r + 1 /\
    (exists ndr, node_of t2 r = Some ndr) /\
    child t2 r (idx (tx pos)) = Some (-1) /\
    (forall n i x ed', has_edge t1 n i x ed' -> has_edge t2 n i x ed') /\
    (forall n i x, child t1 n i = Some x -> child t2 n i = Some x))
    as (t2 & Hrun2 & Hinv2 & Hlen2 & (ndr & Hr2) & Hfree2 & Hedges2 & Hmono2).
  { destruct link.
    - assert (0 <= last < zlen (node_allocator t1)) as Hlr.
      { destruct Hpend as [->|(? & _)]; lia. }
      destruct (zlookup_in_range _ _ Hlr) as [ndl Hndl].
      exists (link_tree t1 last r ndl).
      split; [by apply assign_suffix_connection_run|].
      split.
      + eapply tree_inv_pend.
        * apply (tree_inv_link _ _ _ _ _ _ _ _ last r ndl Hinv1 Hndl).
          -- destruct Hpend as [->|(? & _)]; lia.
          -- destruct Hpend as [->|(Hl & HDl & Hsl)]; [by left|right].
             destruct (Hext last) as [HDl' HSl']; [lia|].
             rewrite HDl', HSl', HDr, HSr.
             split; [lia|]. split; [lia|]. split; [lia|].
             eapply seg_eq_trans; [eapply seg_eq_le; [exact Hsl|lia]|].
             apply seg_eq_sym. eapply seg_eq_le; [exact Hseg|lia].
        * intros u [[[-> _]| ->] Hul]; [done|]. split; [done|lia].
      + split; [by rewrite link_zlen_nodes|].
        assert (last <> r) by (destruct Hpend as [->|(? & _)]; lia).
        split; [rewrite link_node_of_other by done; eauto|].
        split; [by rewrite link_child|].
        split; [intros n i x ed' H'; by apply has_edge_link|].
        intros n i x H'. by rewrite link_child.
    - exists t1. split; [done|]. split.
      + eapply tree_inv_pend; [exact Hinv1|].
        intros u [[Hu1 Hu2]| ->];
          [rewrite (Hlink eq_refl) in Hu1; lia|split; [done|lia]].
      + eauto 10. }
  (* the leaf of the new node *)
  set (t3 := leaf_tree t2 pos r ndr).
  assert (tree_inv t3 D' S' pos (pos + 1) (j + 1) 0 (pend_of r)) as Hinv3.
  { apply (tree_inv_leaf t2 D' S' pos j 1 (pend_of r) r ndr);
      try done; try lia.
    rewrite HDr, HSr. done. }
  destruct (inv_capacity _ _ _ _ _ _ _ _ Hinv2) as (_ & Hce2 & Hlc2).
  assert (create_new_edge_to_leaf_from_node letters pos r t2 = Ok (tt, t3))
    as Hrun3.
  { apply create_new_edge_to_leaf_from_node_run; try done.
    - apply (ti_text Hinv2).
    - by apply (ti_width Hinv2 r).
    - apply Hlc2. lia. }
  assert (0 <= idx (tx pos) < zlen (edges_to_childs ndr)) as Hic'
    by (by rewrite (ti_width Hinv2 r ndr)).
  assert (forall n i x ed', has_edge t2 n i x ed' -> has_edge t3 n i x ed')
    as Hedges3.
  { intros n i x ed'. apply has_edge_leaf_old; try done.
    apply (ti_child_valid Hinv2). }
  assert (zlen (node_allocator t3) = r + 1) as Hlen3
    by (subst t3; by rewrite leaf_zlen_nodes).
  (* the suffix jump *)
  assert (locus t3 D' S' pos j {| node_addr := v; edge_addr := e;
                                  position := p |}) as Hloc3.
  { right. tsimpl. split; [done|]. split; [done|].
    exists {| start_position := start_position ed; edge_length := p;
              next_node_addr := r |}.
    split; [apply Hedges3, Hedges2, Hup1|]. tsimpl.
    rewrite HDv'. repeat split; try done; lia. }
  destruct (go_using_suffix_connection_spec Hinv3 j _ Hloc3)
    as (it' & Hrun4 & Hact' & _); try lia.
  { tsimpl. intros [-> _]. lia. }
  exists t1, t2, t3, D', S', it'.
  split; [done|]. split; [done|]. split; [done|].
  split; [intros fuel Hf; apply Hrun4; tsimpl; lia|].
  split; [done|]. split; [done|].
  split.
  { apply (visited_snoc _ _ _ _ _ _ r (zlen (edge_allocator t2))).
    - eapply visited_ext; [exact Hvis|fold r; lia|exact Hext|].
      intros n i x Hcx Hx. subst t3.
      apply leaf_child_mono; try done. by apply Hmono2, Hmono1.
    - lia.
    - lia.
    - lia.
    - rewrite HDr, HSr. done.
    - subst t3. by apply leaf_child_new.
    - pose proof (zlen_nonneg (edge_allocator t2)). lia. }
  split.
  { right. rewrite HDr, HSr. split; [lia|]. split; [lia|].
    replace (pos - (j + 1)) with (D v + p - 1) by lia.
    by apply seg_eq_shift. }
  intros Hp'.
  destruct (active_edge_facts Hinv3 _ _ Hact' Hp')
    as (ed' & Hedge' & Hv1' & Hlt' & HD'' & Hseg' & Hold' & Hr').
  exists ed'. split; [apply Hedge'|].
  set (a := start_position ed - D v + 1).
  assert (seg_eq a (j + 1) (pos - j - 1)) as Hocc.
  { subst a. replace (pos - j - 1) with (D v + p - 1) by lia.
    by apply seg_eq_shift. }
  pose proof (eo_start Heo).
  rewrite <- (ti_next_char Hinv3 _ _ _ _ (position it') a Hv1' Hedge');
    try lia.
  - replace (a + D' (node_addr it') + position it')
      with (start_position ed + p) by (subst a; lia). done.
  - eapply seg_eq_trans; [|apply seg_eq_sym, Hseg'].
    eapply seg_eq_le; [exact Hocc|lia].
Qed.

End Round.

(** *** One round of the second stage at a node: a leaf, a suffix jump *)

Lemma leaf_round t D S pos j j0 it :
  tree_inv t D S pos (pos + 1) j 0 no_pend ->
  pos < N ->
  active t D S pos j it ->
  visited t D S pos j0 j ->
  position it = 0 ->
  child t (node_addr it) (idx (tx pos)) = Some (-1) ->
  exists t1 it',
    create_new_edge_to_leaf_from_node letters pos (node_addr it) t
    = Ok (tt, t1) /\
    (forall fuel, (0 < fuel)%nat ->
       go_using_suffix_connection letters fuel it t1 = Ok (it', t1)) /\
    tree_inv t1 D S pos (pos + 1) (j + 1) 0 no_pend /\
    active t1 D S pos (j + 1) it' /\
    visited t1 D S pos j0 (j + 1) /\
    position it' = 0.
Proof.
  intros Hinv Hpos Hact Hvis Hp Hfree.
  pose proof (ti_pos Hinv) as Hpos0. pose proof (ti_j Hinv) as Hj.
  assert (0 <= pos < N) as Hposr by lia.
  pose proof (idx_tx_range _ Hposr) as Hic.
  destruct Hact as [[(_ & He & Hv & HD & Hseg)|(? & _)] Hlt]; [|lia].
  assert (node_addr it <> 1) as Hv1.
  { intros H1. rewrite H1 in Hfree.
    rewrite (ti_dummy_child Hinv _ Hic) in Hfree. injection Hfree. lia. }
  destruct (zlookup_in_range _ _ Hv) as [nd Hnd]. fold (node_of t (node_addr it)) in Hnd.
  assert (0 <= D (node_addr it)) as HDv by (by eapply inv_depth_nonneg).
  set (t1 := leaf_tree t pos (node_addr it) nd).
  assert (tree_inv t1 D S pos (pos + 1) (j + 1) 0 no_pend) as Hinv1.
  { apply (tree_inv_leaf t D S pos j 0 no_pend (node_addr it) nd);
      try done. by apply Hseg. }
  destruct (inv_capacity _ _ _ _ _ _ _ _ Hinv) as (_ & Hce & Hlc).
  assert (0 <= idx (tx pos) < zlen (edges_to_childs nd)) as Hic'
    by (by rewrite (ti_width Hinv (node_addr it) nd)).
  assert (locus t1 D S pos j it) as Hloc1.
  { left. split; [done|]. split; [done|].
    split; [subst t1; by rewrite leaf_zlen_nodes|]. done. }
  destruct (go_using_suffix_connection_spec Hinv1 j _ Hloc1)
    as (it' & Hrun & Hact' & Hp'); try lia.
  { intros []. }
  exists t1, it'.
  split.
  { apply create_new_edge_to_leaf_from_node_run; try done.
    - apply (ti_text Hinv).
    - by apply (ti_width Hinv (node_addr it)).
    - apply Hlc. lia. }
  split; [intros fuel Hf; apply Hrun; lia|].
  split; [done|]. split; [done|]. split; [|auto].
  apply (visited_snoc _ _ _ _ _ _ (node_addr it) (zlen (edge_allocator t))).
  - eapply visited_ext; [exact Hvis| | |].
    + subst t1. rewrite leaf_zlen_nodes. lia.
    + done.
    + intros n i x Hcx Hx. subst t1. by apply leaf_child_mono.
  - subst t1. by rewrite leaf_zlen_nodes.
  - done.
  - lia.
  - by apply Hseg.
  - subst t1. by apply leaf_child_new.
  - pose proof (zlen_nonneg (edge_allocator t)). lia.
Qed.

(** *** The loops of the second stage *)

Definition found (t : SuffixTree) (pos : Z) (it : InnerPosition) : Prop :=
  (position it = 0 /\
   exists e, child t (node_addr it) (idx (tx pos)) = Some e /\ e <> -1)
  \/
  (0 < position it /\
   exists ed, edge_of t (edge_addr it) = Some ed /\
     tx (start_position ed + position it) = tx pos).

Lemma active_j_le t D S pos m j x pend jo it :
  tree_inv t D S pos m j x pend -> active t D S pos jo it ->
  jo <= pos + 1 /\ (0 < position it -> jo < pos).
Proof.
  intros Hinv [[(Hp & He & Hv & HD & Hseg)|(Hp & Hv1 & ed & Hedge & Hple & HD
                                             & Hseg & Hold)] _].
  - destruct (Z.eq_dec (node_addr it) 1) as [H1|H1].
    + rewrite H1, (ti_depth_dummy Hinv) in HD. lia.
    + pose proof (inv_depth_nonneg Hinv _ Hv H1). lia.
  - destruct Hedge as (Hc & _). apply child_Some_range in Hc.
    pose proof (inv_depth_nonneg Hinv _ Hc Hv1). lia.
Qed.

Lemma split_edges_spec pos j0 :
  pos < N ->
  forall (n : nat) t D S j last it,
    (Z.to_nat (pos + 1 - j) <= n)%nat ->
    tree_inv t D S pos (pos + 1) j 0 (pend_of last) ->
    active t D S pos j it ->
    visited t D S pos j0 j ->
    pend_ok t D S pos last j ->
    (last <> 1 -> 0 < position it -> mismatch t pos it) ->
    exists t' D' S' j' last' it',
      (forall fuel loop, (Z.to_nat N < fuel)%nat -> (n < loop)%nat ->
         split_edges letters fuel loop pos last it t
         = Ok ((last', it'), t')) /\
      tree_inv t' D' S' pos (pos + 1) j' 0 (pend_of last') /\
      active t' D' S' pos j' it' /\
      visited t' D' S' pos j0 j' /\
      pend_ok t' D' S' pos last' j' /\
      j <= j' /\
      (position it' = 0 \/ (last' = 1 /\ found t' pos it')).
Proof.
  intros Hpos. induction n as [|n IH];
    intros t D S j last it Hn Hinv Hact Hvis Hpend Hprop.
  - (* no round is left: the iterator is not inside an edge *)
    destruct (is_position_in_edge_without_path_spec Hinv Hpos _ Hact)
      as (b & Hrun & Htrue & Hfalse).
    destruct (active_j_le _ _ _ _ _ _ _ _ _ _ Hinv Hact) as [Hj1 Hj2].
    destruct b.
    { destruct (Htrue eq_refl) as [Hp _]. specialize (Hj2 Hp). lia. }
    exists t, D, S, j, last, it. split.
    { intros fuel [|loop] Hf Hl; [lia|]. simpl.
      by rewrite (bind_ok _ _ _ _ _ Hrun). }
    split_and!; try done; try lia.
  - destruct (is_position_in_edge_without_path_spec Hinv Hpos _ Hact)
      as (b & Hrun & Htrue & Hfalse).
    destruct (active_j_le _ _ _ _ _ _ _ _ _ _ Hinv Hact) as [Hj1 Hj2].
    destruct b.
    + destruct (Htrue eq_refl) as [Hp Hmis]. specialize (Hj2 Hp).
      destruct (split_round t D S pos j j0 last it true Hinv Hpos Hact Hvis
                  Hpend ltac:(done) Hp Hmis)
        as (t1 & t2 & t3 & D' & S' & it1 & Hr1 & Hr2 & Hr3 & Hr4 & Hinv3
            & Hact3 & Hvis3 & Hpend3 & Hprop3).
      destruct (IH t3 D' S' (j + 1) (zlen (node_allocator t)) it1)
        as (t' & D'' & S'' & j' & last' & it' & Hrun' & Hrest);
        try done; try lia.
      exists t', D'', S'', j', last', it'. split.
      { intros fuel [|loop] Hf Hl; [lia|]. simpl.
        rewrite (bind_ok _ _ _ _ _ Hrun).
        rewrite (bind_ok _ _ _ _ _ Hr1).
        rewrite (bind_ok _ _ _ _ _ Hr2).
        rewrite (bind_ok _ _ _ _ _ Hr3).
        rewrite (bind_ok _ _ _ _ _ (Hr4 fuel Hf)).
        apply Hrun'; lia. }
      destruct Hrest as (? & ? & ? & ? & ? & ?).
      split_and!; try done; lia.
    + exists t, D, S, j, last, it. split.
      { intros fuel [|loop] Hf Hl; [lia|]. simpl.
        by rewrite (bind_ok _ _ _ _ _ Hrun). }
      split_and!; try done; try lia.
      destruct (Hfalse eq_refl) as [Hz|[Hp Hfound]]; [by left|right].
      split; [|by right].
      destruct (Z.eq_dec last 1) as [|Hl1]; [done|].
      destruct (Hprop Hl1 Hp) as (ed & Hed & Hne).
      destruct Hfound as (ed' & Hed' & Heq).
      assert (ed' = ed) as -> by congruence. done.
Qed.

Lemma add_leaves_spec pos j0 :
  pos < N ->
  forall (n : nat) t D S j it,
    (Z.to_nat (pos + 1 - j) <= n)%nat ->
    tree_inv t D S pos (pos + 1) j 0 no_pend ->
    active t D S pos j it ->
    visited t D S pos j0 j ->
    position it = 0 ->
    exists t' j' it',
      (forall fuel loop, (0 < fuel)%nat -> (n < loop)%nat ->
         add_leaves letters fuel loop pos it t = Ok (it', t')) /\
      tree_inv t' D S pos (pos + 1) j' 0 no_pend /\
      active t' D S pos j' it' /\
      visited t' D S pos j0 j' /\
      j <= j' /\
      found t' pos it'.
Proof.
  intros Hpos. induction n as [|n IH];
    intros t D S j it Hn Hinv Hact Hvis Hp.
  - destruct (is_position_in_node_without_path_spec Hinv Hpos _ Hact)
      as (b & Hrun & Htrue & Hfalse).
    destruct (active_j_le _ _ _ _ _ _ _ _ _ _ Hinv Hact) as [Hj1 Hj2].
    assert (j = pos + 1) as -> by lia.
    destruct b.
    { exfalso. destruct (Htrue eq_refl) as [_ Hfree].
      destruct Hact as [[(_ & _ & Hv & HD & _)|(? & _)] _]; [|lia].
      assert (node_addr it = 1) as H1.
      { destruct (Z.eq_dec (node_addr it) 1); [done|].
        pose proof (inv_depth_nonneg Hinv _ Hv ltac:(done)). lia. }
      pose proof (ti_pos Hinv).
      assert (0 <= pos < N) as Hposr by lia.
      pose proof (idx_tx_range _ Hposr) as Hic.
      rewrite H1, (ti_dummy_child Hinv _ Hic) in Hfree.
      injection Hfree. lia. }
    exists t, (pos + 1), it. split.
    { intros fuel [|loop] Hf Hl; [lia|]. simpl.
      by rewrite (bind_ok _ _ _ _ _ Hrun). }
    split_and!; try done; try lia.
    destruct (Hfalse eq_refl) as [?|[_ Hc]]; [lia|by left].
  - destruct (is_position_in_node_without_path_spec Hinv Hpos _ Hact)
      as (b & Hrun & Htrue & Hfalse).
    destruct b.
    + destruct (Htrue eq_refl) as [_ Hfree].
      destruct (leaf_round t D S pos j j0 it Hinv Hpos Hact Hvis Hp Hfree)
        as (t1 & it1 & Hr1 & Hr2 & Hinv1 & Hact1 & Hvis1 & Hp1).
      destruct (active_j_le _ _ _ _ _ _ _ _ _ _ Hinv1 Hact1) as [Hj1 _].
      destruct (IH t1 D S (j + 1) it1)
        as (t' & j' & it' & Hrun' & Hrest); try done; try lia.
      exists t', j', it'. split.
      { intros fuel [|loop] Hf Hl; [lia|]. simpl.
        rewrite (bind_ok _ _ _ _ _ Hrun).
        rewrite (bind_ok _ _ _ _ _ Hr1).
        rewrite (bind_ok _ _ _ _ _ (Hr2 fuel Hf)).
        apply Hrun'; lia. }
      destruct Hrest as (? & ? & ? & ? & ?).
      split_and!; try done; lia.
    + exists t, j, it. split.
      { intros fuel [|loop] Hf Hl; [lia|]. simpl.
        by rewrite (bind_ok _ _ _ _ _ Hrun). }
      split_and!; try done; try lia.
      destruct (Hfalse eq_refl) as [?|[_ Hc]]; [lia|by left].
Qed.

(** *** The second stage *)

Lemma tree_inv_enter t D S pos j x pend :
  tree_inv t D S pos pos j x pend -> pos < N ->
  tree_inv t D S pos (pos + 1) j x pend.
Proof.
  intros [] Hpos. constructor; try done; try lia.
  intros a i Hi Ha Hseg. apply (ti_U0 a i Hi Ha).
  eapply seg_eq_le; [exact Hseg|lia].
Qed.

Lemma second_stage_spec t D S pos j it :
  tree_inv t D S pos pos j 0 no_pend -> pos < N ->
  active t D S pos j it ->
  exists t' D' S' j' it',
    (forall fuel, (Z.to_nat N < fuel)%nat ->
       second_stage letters fuel pos it t = Ok (it', t')) /\
    tree_inv t' D' S' pos (pos + 1) j' 0 no_pend /\
    active t' D' S' pos j' it' /\
    visited t' D' S' pos j j' /\
    j <= j' /\
    found t' pos it'.
Proof.
  intros Hinv0 Hpos Hact.
  pose proof (tree_inv_enter _ _ _ _ _ _ _ Hinv0 Hpos) as Hinv.
  assert (tree_inv t D S pos (pos + 1) j 0 (pend_of 1)) as Hinv1.
  { eapply tree_inv_pend; [exact Hinv|]. intros u []. }
  assert (visited t D S pos j j) as Hvis by (intros a Ha; lia).
  (* the first test and round *)
  assert (exists t1 D1 S1 j1 last1 it1,
    (forall fuel, (Z.to_nat N < fuel)%nat ->
       (b <- is_position_in_edge_without_path pos it ;;
        if b then
          new_node_addr <- add_node_in letters it ;;
          create_new_edge_to_leaf_from_node letters pos new_node_addr ;;;
          iterator' <- go_using_suffix_connection letters fuel it ;;
          ret (new_node_addr, iterator')
        else ret (1, it)) t = Ok ((last1, it1), t1)) /\
    tree_inv t1 D1 S1 pos (pos + 1) j1 0 (pend_of last1) /\
    active t1 D1 S1 pos j1 it1 /\
    visited t1 D1 S1 pos j j1 /\
    pend_ok t1 D1 S1 pos last1 j1 /\
    (last1 <> 1 -> 0 < position it1 -> mismatch t1 pos it1) /\
    j <= j1)
    as (t1 & D1 & S1 & j1 & last1 & it1 & Hrun1 & Hinv2 & Hact2 & Hvis2
        & Hpend2 & Hprop2 & Hj1).
  { destruct (is_position_in_edge_without_path_spec Hinv1 Hpos _ Hact)
      as (b & Hrun & Htrue & Hfalse).
    destruct b.
    - destruct (Htrue eq_refl) as [Hp Hmis].
      destruct (split_round t D S pos j j 1 it false Hinv1 Hpos Hact Hvis
                  ltac:(by left) ltac:(done) Hp Hmis)
        as (u1 & u2 & u3 & D' & S' & it1 & Hr1 & Hr2 & Hr3 & Hr4 & Hinv3
            & Hact3 & Hvis3 & Hpend3 & Hprop3).
      subst u2.
      exists u3, D', S', (j + 1), (zlen (node_allocator t)), it1. split.
      { intros fuel Hf.
        rewrite (bind_ok _ _ _ _ _ Hrun).
        rewrite (bind_ok _ _ _ _ _ Hr1).
        rewrite (bind_ok _ _ _ _ _ Hr3).
        rewrite (bind_ok _ _ _ _ _ (Hr4 fuel Hf)). reflexivity. }
      split_and!; try done; try lia.
    - exists t, D, S, j, 1, it. split.
      { intros fuel Hf. by rewrite (bind_ok _ _ _ _ _ Hrun). }
      split_and!; try done; try lia. by left. }
  (* the first loop *)
  destruct (active_j_le _ _ _ _ _ _ _ _ _ _ Hinv2 Hact2) as [Hj1' _].
  pose proof (ti_j Hinv2) as Hj1''.
  destruct (split_edges_spec pos j Hpos (Z.to_nat (pos + 1 - j1))
              t1 D1 S1 j1 last1 it1)
    as (t2 & D2 & S2 & j2 & last2 & it2 & Hrun2 & Hinv3 & Hact3 & Hvis3
        & Hpend3 & Hj2 & Hexit); try done.
  (* the suffix connection of the last node *)
  pose proof (inv_nodes_ge2 Hinv3) as Hn2.
  assert (0 <= last2 < zlen (node_allocator t2)) as Hlr.
  { destruct Hpend3 as [->|(? & _)]; lia. }
  destruct (zlookup_in_range _ _ Hlr) as [ndl Hndl].
  set (t3 := link_tree t2 last2 (node_addr it2) ndl).
  assert (tree_inv t3 D2 S2 pos (pos + 1) j2 0 no_pend) as Hinv4.
  { eapply tree_inv_pend.
    - apply (tree_inv_link _ _ _ _ _ _ _ _ last2 (node_addr it2) ndl
               Hinv3 Hndl).
      + destruct Hpend3 as [->|(? & _)]; lia.
      + destruct Hpend3 as [->|(Hl & HDl & Hsl)]; [by left|right].
        destruct Hexit as [Hz|[? _]]; [|lia].
        destruct Hact3 as [[(_ & _ & Hv & HD & Hseg)|(? & _)] _]; [|lia].
        pose proof (ti_node Hinv3 last2 Hl) as (? & ? & ?).
        assert (node_addr it2 <> 1) as Hw1.
        { intros Hw. rewrite Hw, (ti_depth_dummy Hinv3) in HD. lia. }
        split; [done|]. split; [done|]. split; [lia|].
        eapply seg_eq_trans; [eapply seg_eq_le; [exact Hsl|lia]|].
        apply seg_eq_sym. by apply Hseg.
    - intros u [[-> _] Hu]. done. }
  assert (assign_suffix_connection last2 (node_addr it2) t2 = Ok (tt, t3))
    as Hrun3 by (by apply assign_suffix_connection_run).
  assert (active t3 D2 S2 pos j2 it2) as Hact4.
  { destruct Hact3 as [Hloc Hlt]. split; [|done].
    eapply locus_ext; [exact Hloc| | |].
    - subst t3. rewrite link_zlen_nodes. lia.
    - done.
    - intros i ed H. subst t3. by apply has_edge_link. }
  assert (visited t3 D2 S2 pos j j2) as Hvis4.
  { eapply visited_ext; [exact Hvis3| | |].
    - subst t3. rewrite link_zlen_nodes. lia.
    - done.
    - intros n i e Hc _. subst t3. by rewrite link_child. }
  (* the second loop *)
  assert (exists t' j' it',
    (forall fuel loop, (0 < fuel)%nat ->
       (Z.to_nat (pos + 1 - j2) < loop)%nat ->
       add_leaves letters fuel loop pos it2 t3 = Ok (it', t')) /\
    tree_inv t' D2 S2 pos (pos + 1) j' 0 no_pend /\
    active t' D2 S2 pos j' it' /\
    visited t' D2 S2 pos j j' /\ j2 <= j' /\ found t' pos it')
    as (t' & j' & it' & Hrun4 & Hinv5 & Hact5 & Hvis5 & Hj' & Hfound).
  { destruct (Z.eq_dec (position it2) 0) as [Hz|Hnz].
    - by apply add_leaves_spec.
    - destruct Hexit as [?|[_ Hfound]]; [lia|].
      destruct (is_position_in_node_without_path_spec Hinv4 Hpos _ Hact4)
        as (b & Hrun & Htrue & _).
      destruct b; [destruct (Htrue eq_refl); lia|].
      exists t3, j2, it2. split.
      { intros fuel [|loop] Hf Hl; [lia|]. simpl.
        by rewrite (bind_ok _ _ _ _ _ Hrun). }
      split_and!; try done; try lia.
      destruct Hfound as [[? _]|[Hp (ed & He & Htx)]]; [lia|].
      right. split; [done|]. exists ed. split; [|done].
      subst t3. by rewrite link_edge_of. }
  exists t', D2, S2, j', it'. split.
  { intros fuel Hf. unfold second_stage.
    erewrite bind_ok; cycle 1.
    { unfold get_dummy. erewrite bind_ok; cycle 1.
      { apply read_ok. by rewrite (ti_root_addr Hinv). }
      destruct (ti_root Hinv) as (nd0 & H0 & H1).
      by eapply suffix_connection_of_ok. }
    specialize (Hrun1 fuel Hf). unfold bind in Hrun1 |- *.
    destruct (is_position_in_edge_without_path pos it t)
      as [[b u]| |]; [|done|done].
    destruct b.
    - destruct (add_node_in letters it u) as [[r u1]| |]; [|done|done].
      destruct (create_new_edge_to_leaf_from_node letters pos r u1)
        as [[[] u2]| |]; [|done|done].
      destruct (go_using_suffix_connection letters fuel it u2)
        as [[it1' u3]| |]; [|done|done].
      unfold ret in Hrun1. injection Hrun1 as -> -> ->.
      unfold ret. cbn [fst snd].
      rewrite (Hrun2 fuel fuel Hf) by lia.
      cbn [fst snd]. rewrite Hrun3.
      apply Hrun4; lia.
    - unfold ret in Hrun1. injection Hrun1 as <- <- ->.
      unfold ret. cbn [fst snd].
      rewrite (Hrun2 fuel fuel Hf) by lia.
      cbn [fst snd]. rewrite Hrun3.
      apply Hrun4; lia. }
  split_and!; try done; lia.
Qed.

(** *** One node for one string *)

Section Unique.

Variables (t : SuffixTree) (D S : Z -> Z) (pos m j x : Z) (pend : Z -> Prop).
Hypothesis Hinv : tree_inv t D S pos m j x pend.

Local Abbreviation nn := (zlen (node_allocator t)).

Lemma parent_facts v :
  2 <= v < nn ->
  exists u i e ed,
    u <> 1 /\ 0 <= u < nn /\ has_edge t u i e ed /\
    next_node_addr ed = v /\
    D v = D u + edge_length ed /\ S v = start_position ed - D u /\
    1 <= edge_length ed /\ 0 <= D u /\ seg_eq (S v) (S u) (D u).
Proof.
  intros Hv. destruct (ti_parent Hinv v Hv) as (u & i & e & ed & Hu & He & Hn).
  destruct (ti_edge Hinv _ _ _ _ Hu He).
  pose proof He as (Hc & _). apply child_Some_range in Hc.
  destruct eo_target0 as [[? _]|(_ & HD & HS)]; [lia|].
  rewrite Hn in HD, HS.
  exists u, i, e, ed. split_and!; try done; try lia.
  - eapply inv_depth_nonneg; [exact Hinv|done|done].
  - by rewrite HS.
Qed.

Lemma same_first_char u i e ed i' e' ed' :
  u <> 1 -> has_edge t u i e ed -> has_edge t u i' e' ed' ->
  tx (start_position ed) = tx (start_position ed') ->
  e = e' /\ ed = ed'.
Proof.
  intros Hu He He' Htx.
  pose proof (eo_slot (ti_edge Hinv _ _ _ _ Hu He)) as H1.
  pose proof (eo_slot (ti_edge Hinv _ _ _ _ Hu He')) as H2.
  rewrite Htx in H1. rewrite H1 in H2. subst i'.
  by eapply has_edge_fun.
Qed.

(** At depth [z], a string has at most one node, and no node stands inside
    an edge. *)
Definition uniq_at (z : Z) : Prop :=
  (forall u v,
     0 <= u < nn -> u <> 1 -> 0 <= v < nn -> v <> 1 ->
     D u = z -> D v = z -> seg_eq (S u) (S v) z -> u = v) /\
  (forall n v i e ed,
     0 <= n < nn -> n <> 1 -> v <> 1 -> has_edge t v i e ed ->
     D n = z -> D v < z < D v + edge_length ed ->
     seg_eq (S n) (start_position ed - D v) z -> False).

Lemma depth_zero v : 0 <= v < nn -> v <> 1 -> D v = 0 -> v = 0.
Proof.
  intros Hv H1 HD. destruct (Z.eq_dec v 0); [done|].
  destruct (ti_node Hinv v); lia.
Qed.

Lemma uniq_step z :
  0 <= z -> (forall z', 0 <= z' < z -> uniq_at z') -> uniq_at z.
Proof.
  intros Hz IH. split.
  - intros u v Hu Hu1 Hv Hv1 HDu HDv Hseg.
    destruct (Z.eq_dec z 0) as [->|Hz0].
    { rewrite (depth_zero u), (depth_zero v); done. }
    assert (u <> 0) as Hu0.
    { intros ->. rewrite (ti_depth_root Hinv) in HDu. lia. }
    assert (v <> 0) as Hv0.
    { intros ->. rewrite (ti_depth_root Hinv) in HDv. lia. }
    destruct (parent_facts u) as (pu & iu & eu & edu & Hpu1 & Hpu & Heu & Hnu
                                   & HDpu & HSpu & Hlu & HDpu0 & Hsegu); [lia|].
    destruct (parent_facts v) as (pv & iv & ev & edv & Hpv1 & Hpv & Hev & Hnv
                                   & HDpv & HSpv & Hlv & HDpv0 & Hsegv); [lia|].
    destruct (Z.lt_trichotomy (D pu) (D pv)) as [Hlt|[Heq|Hgt]].
    + exfalso. destruct (IH (D pv)) as [_ HB]; [lia|].
      apply (HB pv pu iu eu edu); try done; try lia.
      rewrite <- HSpu. intros q Hq.
      rewrite <- (Hsegv q) by lia. rewrite (Hseg q) by lia. done.
    + destruct (IH (D pu)) as [HA _]; [lia|].
      assert (pu = pv) as <-.
      { apply HA; try done. intros q Hq.
        rewrite <- (Hsegu q) by lia. rewrite <- (Hsegv q) by lia.
        apply Hseg. lia. }
      destruct (same_first_char pu iu eu edu iv ev edv) as [_ <-];
        try done; [|congruence].
      replace (start_position edu) with (S u + D pu) by lia.
      replace (start_position edv) with (S v + D pu) by lia.
      apply Hseg. lia.
    + exfalso. destruct (IH (D pu)) as [_ HB]; [lia|].
      apply (HB pu pv iv ev edv); try done; try lia.
      rewrite <- HSpv. intros q Hq.
      rewrite <- (Hsegu q) by lia. rewrite (Hseg q) by lia. done.
  - intros n v i e ed Hn Hn1 Hv1 He HDn Hlt Hseg.
    pose proof He as (Hc & _). apply child_Some_range in Hc.
    assert (0 <= D v) as HDv0
      by (eapply inv_depth_nonneg; [exact Hinv|done|done]).
    assert (n <> 0) as Hn0.
    { intros ->. rewrite (ti_depth_root Hinv) in HDn. lia. }
    pose proof (eo_path (ti_edge Hinv _ _ _ _ Hv1 He)) as Hpath.
    destruct (parent_facts n) as (pn & ip & ep & edp & Hpn1 & Hpn & Hep & Hnp
                                   & HDpn & HSpn & Hlp & HDpn0 & Hsegp); [lia|].
    destruct (Z.lt_trichotomy (D pn) (D v)) as [Hlt'|[Heq|Hgt]].
    + destruct (IH (D v)) as [_ HB]; [lia|].
      apply (HB v pn ip ep edp); try done; try lia.
      rewrite <- HSpn. intros q Hq.
      rewrite <- (Hpath q) by lia. rewrite (Hseg q) by lia. done.
    + destruct (IH (D v)) as [HA _]; [lia|].
      assert (pn = v) as ->.
      { apply HA; try done. intros q Hq.
        rewrite <- (Hsegp q) by lia. rewrite (Hseg q) by lia.
        apply Hpath. lia. }
      destruct (same_first_char v ip ep edp i e ed) as [_ ->]; try done; [|lia].
      replace (start_position edp) with (S n + D v) by lia.
      rewrite (Hseg (D v)) by lia. f_equal. lia.
    + destruct (IH (D pn)) as [_ HB]; [lia|].
      apply (HB pn v i e ed); try done; try lia.
      intros q Hq. rewrite <- (Hsegp q) by lia. apply Hseg. lia.
Qed.

Lemma uniq_all z : 0 <= z -> uniq_at z.
Proof.
  assert (forall n : nat, forall z, 0 <= z < Z.of_nat n -> uniq_at z) as H.
  { induction n as [|n IH]; intros z' Hz'; [lia|].
    apply uniq_step; [lia|]. intros z'' Hz''. apply IH. lia. }
  intros Hz. apply (H (Datatypes.S (Z.to_nat z))). lia.
Qed.

Lemma node_unique u v :
  0 <= u < nn -> u <> 1 -> 0 <= v < nn -> v <> 1 ->
  D u = D v -> seg_eq (S u) (S v) (D u) -> u = v.
Proof.
  intros Hu Hu1 Hv Hv1 HD Hseg.
  assert (0 <= D u) as H0
    by (eapply inv_depth_nonneg; [exact Hinv|done|done]).
  destruct (uniq_all (D u) H0) as [HA _]. by apply HA.
Qed.

Lemma no_node_inside_edge n v i e ed :
  0 <= n < nn -> n <> 1 -> v <> 1 -> has_edge t v i e ed ->
  D v < D n < D v + edge_length ed ->
  seg_eq (S n) (start_position ed - D v) (D n) -> False.
Proof.
  intros Hn Hn1 Hv1 He Hlt Hseg.
  assert (0 <= D n) as H0
    by (eapply inv_depth_nonneg; [exact Hinv|done|done]).
  destruct (uniq_all (D n) H0) as [_ HB]. by eapply HB.
Qed.

End Unique.

Arguments node_unique {t D S pos m j x pend} _ _ _ _ _ _ _ _ _.
Arguments no_node_inside_edge {t D S pos m j x pend} _ _ _ _ _ _ _ _ _ _ _ _.

(** *** From one character to the next *)

(** What the second stage stops at has been read before. *)
Lemma found_earlier t D S pos j x pend it :
  tree_inv t D S pos (pos + 1) j x pend -> pos < N ->
  active t D S pos j it -> found t pos it ->
  j = pos + 1 \/ exists b, 0 <= b < j /\ seg_eq b j (pos - j + 1).
Proof.
  intros Hinv Hpos [Hloc _] Hfound.
  pose proof (ti_pos Hinv) as Hp0.
  destruct Hloc as [(Hp & He & Hv & HD & Hseg)|(Hp & Hv1 & ed & Hedge & Hple
                                                 & HD & Hseg & Hold)].
  - destruct Hfound as [(_ & e & Hc & Hne)|[? _]]; [|lia].
    destruct (Z.eq_dec (node_addr it) 1) as [H1|H1].
    { left. rewrite H1, (ti_depth_dummy Hinv) in HD. lia. }
    right. destruct (inv_has_edge Hinv _ _ _ Hc Hne) as [ed Hedge].
    destruct (ti_edge Hinv _ _ _ _ H1 Hedge).
    assert (0 <= D (node_addr it)) as HD0
      by (eapply inv_depth_nonneg; [exact Hinv|done|done]).
    exists (start_position ed - D (node_addr it)).
    split; [lia|].
    replace (pos - j + 1) with (D (node_addr it) + 1) by lia.
    apply seg_eq_snoc; [done| |].
    + eapply seg_eq_trans; [exact eo_path0|by apply Hseg].
    + replace (start_position ed - D (node_addr it) + D (node_addr it))
        with (start_position ed) by lia.
      replace (j + D (node_addr it)) with pos by lia.
      apply tx_inj; [lia|lia|done].
  - destruct Hfound as [[? _]|(_ & ed' & He' & Htx)]; [lia|].
    right. pose proof Hedge as (_ & _ & He2).
    assert (ed' = ed) as -> by congruence.
    destruct (ti_edge Hinv _ _ _ _ Hv1 Hedge).
    pose proof Hedge as (Hc & _). apply child_Some_range in Hc.
    assert (0 <= D (node_addr it)) as HD0
      by (eapply inv_depth_nonneg; [exact Hinv|done|done]).
    exists (start_position ed - D (node_addr it)).
    split; [lia|].
    replace (pos - j + 1) with (D (node_addr it) + position it + 1) by lia.
    apply seg_eq_snoc; [lia|done|].
    replace (start_position ed - D (node_addr it)
             + (D (node_addr it) + position it))
      with (start_position ed + position it) by lia.
    rewrite Htx. f_equal. lia.
Qed.

(** After the second stage for [tx pos], the tree is the tree of the first
    [pos + 1] characters. *)
Lemma tree_inv_advance t D S pos j0 j it :
  tree_inv t D S pos (pos + 1) j 0 no_pend -> pos < N -> j0 <= pos ->
  (forall a i, 0 <= i < a -> a < j0 -> ~ seg_eq i a (pos - a)) ->
  visited t D S pos j0 j -> active t D S pos j it -> found t pos it ->
  tree_inv t D S (pos + 1) (pos + 1) j 0 no_pend.
Proof.
  intros Hinv Hpos Hj0 HU0 Hvis Hact Hfound.
  pose proof (found_earlier _ _ _ _ _ _ _ _ Hinv Hpos Hact Hfound) as Hearly.
  pose proof Hinv as []. constructor; try done; try lia.
  - intros v Hv. destruct (ti_node0 v Hv). lia.
  - intros v a Hv Hv1 Ha Hle Hseg.
    destruct (Z.eq_dec (a + D v) pos) as [Heq|Hne];
      [|apply ti_next_child0; try done; lia].
    rewrite Heq.
    assert (0 <= D v) as HD0
      by (eapply inv_depth_nonneg; [exact Hinv|done|done]).
    destruct (Z.lt_ge_cases a j0) as [Ha0|Ha0].
    { exfalso. assert (v <> 0) as Hv0.
      { intros ->. rewrite ti_depth_root0 in Heq. lia. }
      destruct (ti_node0 v) as (? & ? & ?); [lia|].
      apply (HU0 a (S v)); [lia|done|].
      apply seg_eq_sym. eapply seg_eq_le; [exact Hseg|lia]. }
    destruct (Z.lt_ge_cases a j) as [Ha1|Ha1].
    { destruct (Hvis a) as (n & e & Hn & Hn1 & HDn & Hsn & Hc & He); [lia|].
      assert (n = v) as <-.
      { apply (node_unique Hinv); try done; [lia|].
        eapply seg_eq_trans; [exact Hsn|].
        eapply seg_eq_le; [exact Hseg|lia]. }
      by exists e. }
    destruct Hearly as [->|(b & Hb & Hsb)]; [lia|].
    destruct (ti_next_child0 v (a - j + b)) as (e & Hc & He);
      try done; try lia.
    { intros q Hq. rewrite <- (Hseg q) by lia.
      replace (a - j + b + q) with (b + (a - j + q)) by lia.
      rewrite (Hsb (a - j + q)) by lia. f_equal. lia. }
    exists e. split; [|done]. rewrite <- Hc. do 2 f_equal.
    replace (a - j + b + D v) with (b + (pos - j)) by lia.
    rewrite (Hsb (pos - j)) by lia. f_equal. lia.
  - intros v i e ed q a Hv1 He Hq Ha Hle Hseg.
    destruct (Z.eq_dec (a + D v + q) pos) as [Heq|Hne];
      [|eapply ti_next_char0; try done; lia].
    pose proof He as (Hc & _). apply child_Some_range in Hc.
    assert (0 <= D v) as HD0
      by (eapply inv_depth_nonneg; [exact Hinv|done|done]).
    destruct (ti_edge0 _ _ _ _ Hv1 He).
    destruct (Z.lt_trichotomy a (start_position ed - D v)) as [Hlt|[->|Hgt]].
    { exfalso. apply (ti_U0 (start_position ed - D v) a); [lia|lia|].
      eapply seg_eq_le; [exact Hseg|lia]. }
    { f_equal. lia. }
    destruct (Z.lt_ge_cases a j0) as [Ha0|Ha0].
    { exfalso. apply (HU0 a (start_position ed - D v)); [lia|done|].
      apply seg_eq_sym. eapply seg_eq_le; [exact Hseg|lia]. }
    destruct (Z.lt_ge_cases a j) as [Ha1|Ha1].
    { exfalso.
      destruct (Hvis a) as (n & e' & Hn & Hn1 & HDn & Hsn & _); [lia|].
      apply (no_node_inside_edge Hinv n v i e ed); try done; [lia|].
      eapply seg_eq_trans; [exact Hsn|].
      eapply seg_eq_le; [exact Hseg|lia]. }
    destruct Hearly as [->|(b & Hb & Hsb)]; [lia|].
    rewrite <- (ti_next_char0 v i e ed q (a - j + b)); try done; try lia.
    + replace (a + D v + q) with (j + (pos - j)) by lia.
      rewrite <- (Hsb (pos - j)) by lia. f_equal. lia.
    + intros q' Hq'. rewrite <- (Hseg q') by lia.
      replace (a - j + b + q') with (b + (a - j + q')) by lia.
      rewrite (Hsb (a - j + q')) by lia. f_equal. lia.
Qed.

(** *** The third stage *)

Lemma third_stage_spec t D S pos j it :
  tree_inv t D S pos (pos + 1) j 0 no_pend -> pos < N ->
  active t D S pos j it -> found t pos it ->
  exists it',
    third_stage letters pos it t = Ok (it', t) /\
    active t D S (pos + 1) j it'.
Proof.
  intros Hinv Hpos [Hloc Hlt] Hfound.
  pose proof (ti_pos Hinv) as Hp0.
  assert (0 <= idx (tx pos)) as Hix by (apply Hvalid; lia).
  unfold third_stage.
  rewrite (bind_ok _ _ _ _ _ (char_at_ok t pos (ti_text Hinv) ltac:(lia))).
  unfold go_over_one_letter_next.
  destruct Hloc as [(Hp & He & Hv & HD & Hseg)|(Hp & Hv1 & ed & Hedge & Hple
                                                 & HD & Hseg & Hold)].
  - destruct Hfound as [(_ & e & Hc & Hne)|[? _]]; [|lia].
    destruct (inv_has_edge Hinv _ _ _ Hc Hne) as [ed Hedge].
    pose proof Hedge as (_ & _ & Hed).
    erewrite bind_ok; cycle 1.
    { rewrite Hp. cbn [Z.eqb].
      rewrite (bind_ok _ _ _ _ _ (alphabet_index_of_ok t _ Hix)).
      rewrite (bind_ok _ _ _ _ _ (edge_to_child_run _ _ _ _ Hc)).
      reflexivity. }
    cbn [position edge_addr node_addr].
    rewrite (bind_ok _ _ _ _ _ (get_edge_by_ok _ _ _ Hed)).
    destruct (Z.eq_dec (node_addr it) 1) as [H1|H1].
    { (* from the dummy node to the root *)
      rewrite H1 in Hc.
      rewrite (ti_dummy_child Hinv) in Hc by (by apply idx_tx_range; lia).
      injection Hc as <-.
      rewrite (ti_dummy_edge Hinv) in Hed by (by apply idx_tx_range; lia).
      injection Hed as <-. cbn [edge_length next_node_addr].
      change (0 + 1 =? 1) with true. cbv iota. eexists. split; [reflexivity|].
      rewrite H1, (ti_depth_dummy Hinv) in HD.
      pose proof (inv_nodes_ge2 Hinv).
      split.
      - left. cbn [position edge_addr node_addr].
        rewrite (ti_depth_root Hinv).
        split_and!; try done; try lia.
        intros _. by apply seg_eq_nonpos.
      - cbn [edge_addr]. intros ed' Hed'. unfold edge_of in Hed'.
        apply zlookup_Some_range in Hed'. lia. }
    destruct (ti_edge Hinv _ _ _ _ H1 Hedge).
    assert (0 <= D (node_addr it)) as HD0
      by (eapply inv_depth_nonneg; [exact Hinv|done|done]).
    assert (tx (start_position ed) = tx pos) as Htx
      by (apply tx_inj; [lia|lia|done]).
    assert (seg_eq (start_position ed - D (node_addr it)) j
              (D (node_addr it) + 1)) as Hseg1.
    { apply seg_eq_snoc; [done| |].
      - eapply seg_eq_trans; [exact eo_path0|by apply Hseg].
      - replace (start_position ed - D (node_addr it) + D (node_addr it))
          with (start_position ed) by lia.
        rewrite Htx. f_equal. lia. }
    change (0 + 1) with 1.
    destruct (Z.eqb_spec 1 (edge_length ed)) as [Hlen|Hlen].
    + eexists. split; [reflexivity|].
      destruct eo_target0 as [[Hleaf Hend]|(Hnx & HDn & HSn)].
      { exfalso. assert (pos = N - 1) by (apply Hterm; [lia|];
          rewrite <- Htx; f_equal; lia). lia. }
      split.
      * left. cbn [position edge_addr node_addr].
        split_and!; try done; try lia.
        intros _. rewrite HSn, HDn, <- Hlen. done.
      * cbn [edge_addr]. intros ed' Hed'. unfold edge_of in Hed'.
        apply zlookup_Some_range in Hed'. lia.
    + eexists. split; [reflexivity|]. split.
      * right. cbn [position edge_addr node_addr].
        split; [lia|]. split; [done|]. exists ed.
        rewrite eo_slot0. split_and!; try done; lia.
      * cbn [position edge_addr]. intros ed' Hed'.
        unfold edge_of in Hed, Hed'. assert (ed' = ed) as -> by congruence.
        lia.
  - destruct Hfound as [[? _]|(_ & ed' & He' & Htx)]; [lia|].
    pose proof Hedge as (_ & _ & Hed).
    assert (ed' = ed) as -> by congruence.
    destruct (ti_edge Hinv _ _ _ _ Hv1 Hedge).
    pose proof Hedge as (Hc & _). apply child_Some_range in Hc.
    assert (0 <= D (node_addr it)) as HD0
      by (eapply inv_depth_nonneg; [exact Hinv|done|done]).
    assert (seg_eq (start_position ed - D (node_addr it)) j
              (D (node_addr it) + (position it + 1))) as Hseg1.
    { rewrite Z.add_assoc. apply seg_eq_snoc; [lia|done|].
      replace (start_position ed - D (node_addr it)
               + (D (node_addr it) + position it))
        with (start_position ed + position it) by lia.
      rewrite Htx. f_equal. lia. }
    erewrite bind_ok; cycle 1.
    { destruct (Z.eqb_spec (position it) 0); [lia|]. reflexivity. }
    rewrite (bind_ok _ _ _ _ _ (get_edge_by_ok _ _ _ Hed)).
    specialize (Hlt ed Hed).
    destruct (Z.eqb_spec (position it + 1) (edge_length ed)) as [Hlen|Hlen].
    + eexists. split; [reflexivity|].
      destruct eo_target0 as [[Hleaf Hend]|(Hnx & HDn & HSn)].
      { exfalso. assert (pos = N - 1) by (apply Hterm; [lia|];
          rewrite <- Htx; f_equal; lia). lia. }
      split.
      * left. cbn [position edge_addr node_addr].
        split_and!; try done; try lia.
        intros _. rewrite HSn, HDn, <- Hlen. done.
      * cbn [edge_addr]. intros ed' Hed'. unfold edge_of in Hed'.
        apply zlookup_Some_range in Hed'. lia.
    + eexists. split; [reflexivity|]. split.
      * right. cbn [position edge_addr node_addr].
        split; [lia|]. split; [done|]. exists ed.
        split_and!; try done; lia.
      * cbn [position edge_addr]. intros ed' Hed'.
        unfold edge_of in Hed, Hed'. assert (ed' = ed) as -> by congruence.
        lia.
Qed.

(** *** The loop over the characters *)

(** Once the terminal symbol has been read every suffix has its leaf. *)
Lemma final_j t D S j x pend :
  tree_inv t D S N N j x pend -> j = N.
Proof.
  intros Hinv. pose proof (ti_j Hinv) as Hj.
  pose proof (inv_nodes_ge2 Hinv) as Hn.
  destruct (ti_next_child Hinv 0 (N - 1)) as (e & Hc & He);
    try done; try lia.
  { rewrite (ti_depth_root Hinv). lia. }
  { rewrite (ti_depth_root Hinv). by apply seg_eq_nonpos. }
  destruct (inv_has_edge Hinv _ _ _ Hc He) as [ed Hedge].
  assert (0 <> 1) as H01 by lia.
  destruct (ti_edge Hinv 0 _ _ _ H01 Hedge).
  rewrite (ti_depth_root Hinv) in *.
  replace (N - 1 + 0) with (N - 1) in eo_slot0 by lia.
  assert (start_position ed = N - 1); [|lia].
  apply Hterm; [lia|]. apply tx_inj; [lia|lia|done].
Qed.

Lemma construct_steps_spec (n : nat) :
  forall pos t D S j it,
    (Z.to_nat (N - pos) <= n)%nat ->
    tree_inv t D S pos pos j 0 no_pend ->
    active t D S pos j it ->
    exists t' D' S',
      (forall fuel loop, (Z.to_nat N < fuel)%nat -> (n < loop)%nat ->
         construct_steps letters fuel loop pos it t = Ok (tt, t')) /\
      tree_inv t' D' S' N N N 0 no_pend.
Proof.
  induction n as [|n IH]; intros pos t D S j it Hn Hinv Hact;
    pose proof (ti_pos Hinv) as Hp; pose proof (ti_j Hinv) as Hj.
  - assert (pos = N) as -> by lia.
    pose proof (final_j _ _ _ _ _ _ Hinv) as ->.
    exists t, D, S. split; [|done].
    intros fuel [|loop] Hf Hl; [lia|]. cbn [construct_steps].
    erewrite bind_ok; cycle 1.
    { apply read_ok. by rewrite (ti_text Hinv). }
    by rewrite Z.ltb_irrefl.
  - destruct (Z.eq_dec pos N) as [->|Hne].
    { pose proof (final_j _ _ _ _ _ _ Hinv) as ->.
      exists t, D, S. split; [|done].
      intros fuel [|loop] Hf Hl; [lia|]. cbn [construct_steps].
      erewrite bind_ok; cycle 1.
      { apply read_ok. by rewrite (ti_text Hinv). }
      by rewrite Z.ltb_irrefl. }
    assert (pos < N) as Hpos by lia.
    destruct (second_stage_spec t D S pos j it Hinv Hpos Hact)
      as (t1 & D1 & S1 & j1 & it1 & Hrun2 & Hinv1 & Hact1 & Hvis1 & Hj1
          & Hfound).
    pose proof (tree_inv_advance t1 D1 S1 pos j j1 it1 Hinv1 Hpos
                  ltac:(lia) (ti_U Hinv) Hvis1 Hact1 Hfound) as Hinv2.
    destruct (third_stage_spec t1 D1 S1 pos j1 it1 Hinv1 Hpos Hact1 Hfound)
      as (it2 & Hrun3 & Hact2).
    destruct (IH (pos + 1) t1 D1 S1 j1 it2 ltac:(lia) Hinv2 Hact2)
      as (t' & D' & S' & Hrun & Hfinal).
    exists t', D', S'. split; [|done].
    intros fuel [|loop] Hf Hl; [lia|]. cbn [construct_steps].
    erewrite bind_ok; cycle 1.
    { apply read_ok. by rewrite (ti_text Hinv). }
    destruct (Z.ltb_spec pos N); [|lia].
    unfold first_stage. erewrite bind_ok; [|reflexivity].
    rewrite (bind_ok _ _ _ _ _ (Hrun2 fuel Hf)).
    rewrite (bind_ok _ _ _ _ _ Hrun3).
    pose proof (zlen_nonneg letters). rewrite to_uint32_id by lia.
    apply Hrun; lia.
Qed.

(** *** The tree before the first character *)

Definition dummy_edge : Edge :=
  {| start_position := -1; edge_length := 1; next_node_addr := 0 |}.

(** The tree inside [create_dummy_node], after [a] rounds of its loop. *)
Definition dummy_state (a : nat) : SuffixTree :=
  {| expanded_string := s;
     root_addr := 0;
     node_allocator :=
       [Node_new letters;
        {| suffix_connection := Some 1;
           edges_to_childs :=
             map Z.of_nat (seq 0 a)
             ++ replicate (length letters - a) no_connection |}];
     edge_allocator := replicate a dummy_edge;
     leaf_addr_allocator := c0 |}.

Lemma zlen_seq_map a : zlen (map Z.of_nat (seq 0 a)) = Z.of_nat a.
Proof. unfold zlen. by rewrite length_map, length_seq. Qed.

Lemma zupdate_app_head {A} (l1 l2 : list A) x y :
  zupdate (l1 ++ x :: l2) (zlen l1) y = l1 ++ y :: l2.
Proof.
  unfold zupdate, zlen.
  destruct (Z.leb_spec 0 (Z.of_nat (length l1))); [|lia].
  rewrite Nat2Z.id, insert_app_r_alt by lia.
  by rewrite Nat.sub_diag.
Qed.

Lemma create_dummy_edges_run (b : nat) :
  forall a : nat, (a + b = length letters)%nat ->
    create_dummy_edges 1 (map Z.of_nat (seq a b)) (dummy_state a)
    = Ok (tt, dummy_state (a + b)).
Proof.
  induction b as [|b IH]; intros a Hab.
  - rewrite Nat.add_0_r. reflexivity.
  - cbn [seq map create_dummy_edges].
    assert (zlen letters = Z.of_nat (length letters)) as Hk by done.
    unfold dummy_state at 1.
    mstep ltac:(apply allocate_edge_ok; tsimpl; rewrite zlen_replicate; lia).
    rewrite zlen_replicate.
    erewrite bind_ok; cycle 1.
    { eapply assign_edge_to_child_ok; tsimpl; [reflexivity|]. tsimpl.
      rewrite zlookup_app_r by (rewrite zlen_seq_map; lia).
      rewrite zlen_seq_map, Z.sub_diag.
      apply zlookup_replicate. lia. }
    tsimpl.
    assert (forall ed : Edge,
      zlookup (replicate a dummy_edge ++ [ed]) (Z.of_nat a) = Some ed) as Hl.
    { intros ed. rewrite <- (zlen_replicate a dummy_edge) at 1.
      apply zlookup_snoc. }
    assert (forall ed ed' : Edge,
      zupdate (replicate a dummy_edge ++ [ed]) (Z.of_nat a) ed'
      = replicate a dummy_edge ++ [ed']) as Hu.
    { intros ed ed'. rewrite <- (zlen_replicate a dummy_edge) at 1.
      apply zupdate_snoc. }
    unfold assign_start_position at 1.
    mstep ltac:(apply modify_edge_ok; tsimpl; by apply Hl).
    rewrite Hu.
    unfold assign_length at 1.
    mstep ltac:(apply modify_edge_ok; tsimpl; by apply Hl).
    rewrite Hu.
    mstep ltac:(by apply read_ok).
    unfold assign_next_node_addr at 1.
    mstep ltac:(apply modify_edge_ok; tsimpl; by apply Hl).
    rewrite Hu.
    replace (a + Datatypes.S b)%nat with (Datatypes.S a + b)%nat by lia.
    rewrite <- IH by lia. do 2 f_equal.
    unfold dummy_state, set_edges, set_nodes. tsimpl.
    change (zupdate [?n0; ?n1] 1 ?x) with [n0; x].
    rewrite <- replicate_S_end. do 4 f_equal.
    replace (length letters - a)%nat
      with (Datatypes.S (length letters - Datatypes.S a)) by lia.
    rewrite replicate_S.
    rewrite <- (zlen_seq_map a) at 1.
    rewrite zupdate_app_head, seq_S, map_app.
    by rewrite <- app_assoc.
Qed.

(** The tree handed to [construct_tree]. *)
Definition init_tree : SuffixTree :=
  {| expanded_string := s;
     root_addr := 0;
     node_allocator :=
       [{| suffix_connection := Some 1;
           edges_to_childs := replicate (length letters) no_connection |};
        {| suffix_connection := Some 1;
           edges_to_childs := map Z.of_nat (seq 0 (length letters)) |}];
     edge_allocator := replicate (length letters) dummy_edge;
     leaf_addr_allocator := c0 |}.

Definition init_depth (v : Z) : Z := if v =? 1 then -1 else 0.

Definition empty_tree : SuffixTree :=
  {| expanded_string := s; root_addr := 0; node_allocator := [];
     edge_allocator := []; leaf_addr_allocator := c0 |}.

Lemma init_run :
  (r <- allocate_node letters ;;
   (fun t => Ok (tt, set_root t r)) ;;;
   dummy_addr <- create_dummy_node letters ;;
   r <- read (fun t => Ok (root_addr t)) ;;
   assign_suffix_connection r dummy_addr) empty_tree
  = Ok (tt, init_tree).
Proof.
  pose proof (zlen_nonneg letters). unfold empty_tree.
  mstep ltac:(by apply allocate_node_ok).
  erewrite bind_ok; [|reflexivity]. tsimpl.
  erewrite bind_ok; cycle 1.
  { unfold create_dummy_node.
    mstep ltac:(apply allocate_node_ok; tsimpl; unfold zlen; cbn [app length]; lia).
    unfold assign_suffix_connection at 1.
    mstep ltac:(apply modify_node_ok; reflexivity).
    erewrite bind_ok; cycle 1.
    { pose proof (create_dummy_edges_run (length letters) 0 eq_refl) as Hrun.
      unfold dummy_state in Hrun. rewrite Nat.sub_0_r in Hrun.
      exact Hrun. }
    reflexivity. }
  erewrite bind_ok; [|reflexivity].
  unfold assign_suffix_connection.
  erewrite modify_node_ok; [|reflexivity].
  unfold dummy_state, init_tree, set_nodes. tsimpl.
  change (0 + length letters)%nat with (length letters).
  rewrite Nat.sub_diag. cbn [replicate]. rewrite app_nil_r.
  reflexivity.
Qed.

Lemma init_child_root i e : child init_tree 0 i = Some e -> e = -1.
Proof. unfold child. cbn. apply zlookup_replicate_Some. Qed.

Lemma lookup_map_seq (n : nat) : forall (a i : nat) (x : Z),
  map Z.of_nat (seq a n) !! i = Some x <->
  (i < n)%nat /\ x = Z.of_nat (a + i).
Proof.
  induction n as [|n IH]; intros a i x; cbn [seq map].
  - split; [done|lia].
  - destruct i as [|i]; cbn.
    + split.
      * intros [= <-]. split; [lia|f_equal; lia].
      * intros [_ ->]. do 2 f_equal. lia.
    + rewrite IH. split; intros [? ->]; (split; [lia|f_equal; lia]).
Qed.

Lemma init_child_dummy_inv i e :
  child init_tree 1 i = Some e -> e = i /\ 0 <= i < k.
Proof.
  unfold child, zlookup. cbn.
  destruct (Z.leb_spec 0 i); [|done].
  intros [Hl ->]%lookup_map_seq. unfold zlen. lia.
Qed.

Lemma init_child_dummy i : 0 <= i < k -> child init_tree 1 i = Some i.
Proof.
  intros Hi. unfold child, zlookup. cbn.
  destruct (Z.leb_spec 0 i); [|lia].
  apply lookup_map_seq. unfold zlen in Hi. lia.
Qed.

Lemma init_edge_of i :
  0 <= i < k -> edge_of init_tree i = Some dummy_edge.
Proof. intros Hi. unfold edge_of. cbn. by apply zlookup_replicate. Qed.

Lemma init_leaf_refs : leaf_refs init_tree = [].
Proof.
  unfold leaf_refs. cbn [edge_allocator init_tree].
  induction (length letters) as [|n IH]; [done|].
  cbn [replicate fmap list_fmap]. rewrite list.filter_cons_False; [done|].
  cbn. lia.
Qed.

Lemma init_inv :
  tree_inv init_tree init_depth (fun _ => 0) 0 0 0 0 no_pend.
Proof.
  assert (zlen (node_allocator init_tree) = 2) as Hnn by done.
  assert (zlen (edge_allocator init_tree) = k) as Hne
    by apply zlen_replicate.
  assert (forall v i e, v <> 1 -> child init_tree v i = Some e -> e = -1)
    as Hroot.
  { intros v i e Hv Hc. pose proof (child_Some_range _ _ _ _ Hc) as Hr.
    rewrite Hnn in Hr. assert (v = 0) as -> by lia.
    by eapply init_child_root. }
  constructor; rewrite ?Hnn, ?Hne; try done; try lia.
  - by eexists.
  - by eexists.
  - apply init_child_dummy.
  - apply init_edge_of.
  - intros v nd Hv. pose proof (zlookup_Some_range _ _ _ Hv) as Hr.
    unfold node_of in Hv. rewrite Hnn in Hr.
    assert (v = 0 \/ v = 1) as Hcase by lia.
    destruct Hcase as [-> | ->]; injection Hv as <-; cbn.
    + apply zlen_replicate.
    + apply zlen_seq_map.
  - intros v i e Hc He.
    destruct (Z.eq_dec v 1) as [->|Hv]; [|by apply Hroot in Hc].
    apply init_child_dummy_inv in Hc. lia.
  - intros v i e ed Hv (Hc & He & _). by apply Hroot in Hc.
  - intros v v' i i' e ed ed' Hv _ (Hc & He & _). by apply Hroot in Hc.
  - intros v a Hv Hv1 Ha Hle. unfold init_depth in Hle.
    destruct (Z.eqb_spec v 1); lia.
  - intros v i e ed q a Hv (Hc & He & _). by apply Hroot in Hc.
  - cbn. lia.
  - by rewrite init_leaf_refs.
Qed.

Lemma init_active :
  active init_tree init_depth (fun _ => 0) 0 0
    {| node_addr := 0; edge_addr := no_connection; position := 0 |}.
Proof.
  split.
  - left. cbn. split_and!; try done.
  - cbn. intros ed Hed. apply zlookup_Some_range in Hed.
    unfold no_connection in Hed. lia.
Qed.

(** The constructor returns a tree in which every suffix has its leaf. *)
Lemma construct_run :
  exists t D S,
    (forall fuel, (Z.to_nat N < fuel)%nat ->
       (r <- allocate_node letters ;;
        (fun t => Ok (tt, set_root t r)) ;;;
        dummy_addr <- create_dummy_node letters ;;
        r <- read (fun t => Ok (root_addr t)) ;;
        assign_suffix_connection r dummy_addr ;;;
        construct_tree letters fuel) empty_tree = Ok (tt, t)) /\
    tree_inv t D S N N N 0 no_pend.
Proof.
  destruct (construct_steps_spec (Z.to_nat N) 0 init_tree init_depth
              (fun _ => 0) 0 _ ltac:(lia) init_inv init_active)
    as (t & D & S & Hrun & Hinv).
  exists t, D, S. split; [|done]. intros fuel Hf.
  pose proof init_run as Hinit. unfold bind in Hinit |- *.
  destruct (allocate_node letters empty_tree) as [[r u1]| |]; [|done|done].
  destruct (create_dummy_node letters (set_root u1 r))
    as [[d u2]| |]; [|done|done].
  unfold read in Hinit |- *.
  destruct (assign_suffix_connection (root_addr u2) d u2)
    as [[[] u3]| |]; [|done|done].
  injection Hinit as ->.
  unfold construct_tree, bind. cbn [root_addr init_tree].
  by apply Hrun.
Qed.

(** *** The leaves and the suffix connections of the finished tree *)

Lemma leaf_edges_refs t : next_node_addr <$> leaf_edges t = leaf_refs t.
Proof.
  unfold leaf_edges, leaf_refs.
  induction (edge_allocator t) as [|ed l IH]; [done|].
  cbn [fmap list_fmap]. rewrite !list.filter_cons.
  pose proof (Z.ltb_spec (next_node_addr ed) 0) as Hspec.
  unfold is_leaf at 1.
  repeat case_decide; destruct Hspec; try done; try lia.
  cbn [fmap list_fmap]. f_equal. exact IH.
Qed.

Lemma leaf_ids_NoDup j : NoDup (leaf_ids j).
Proof.
  unfold leaf_ids. apply NoDup_fmap_2; [|apply NoDup_seq].
  intros a b H. lia.
Qed.

Lemma leaf_ids_length j : 0 <= j -> zlen (leaf_ids j) = j.
Proof.
  intros Hj. unfold zlen, leaf_ids. rewrite length_fmap, length_seq. lia.
Qed.

Lemma leaf_ids_elem j z : 0 <= j -> z ∈ leaf_ids j <-> c0 - j <= z < c0.
Proof.
  intros Hj. unfold leaf_ids. rewrite list_elem_of_fmap. split.
  - intros (i & -> & Hi). apply elem_of_seq in Hi. lia.
  - intros Hz. exists (Z.to_nat (c0 - 1 - z)). split; [lia|].
    apply elem_of_seq. lia.
Qed.

Lemma final_leaves t D S pos m x pend :
  tree_inv t D S pos m N x pend ->
  zlen (leaf_edges t) = N /\
  NoDup (next_node_addr <$> leaf_edges t) /\
  (forall z, z ∈ (next_node_addr <$> leaf_edges t) <-> c0 - N <= z < c0) /\
  Forall (fun ed => edge_length ed = N - start_position ed) (leaf_edges t) /\
  leaf_addr_allocator t = c0 - N.
Proof.
  intros Hinv. pose proof (ti_leaf_refs Hinv) as Hperm.
  rewrite <- leaf_edges_refs in Hperm.
  split_and!.
  - rewrite <- (leaf_ids_length N) by lia. unfold zlen. f_equal.
    rewrite <- (length_fmap next_node_addr). by apply Permutation_length.
  - rewrite Hperm. apply leaf_ids_NoDup.
  - intros z. rewrite Hperm. apply leaf_ids_elem. lia.
  - apply Forall_forall. intros ed Hed.
    apply list_elem_of_In, list_elem_of_filter in Hed as [Hleaf Hin].
    unfold is_leaf in Hleaf. apply Z.ltb_lt in Hleaf.
    apply list_elem_of_lookup in Hin as [n Hn].
    assert (edge_of t (Z.of_nat n) = Some ed) as He.
    { unfold edge_of, zlookup. destruct (Z.leb_spec 0 (Z.of_nat n)); [|lia].
      by rewrite Nat2Z.id. }
    pose proof (zlookup_Some_range _ _ _ He) as Hr.
    destruct (Z.lt_ge_cases (Z.of_nat n) k) as [Hlt|Hge].
    { rewrite (ti_dummy_edge Hinv) in He by lia.
      injection He as <-. cbn in Hleaf. lia. }
    destruct (ti_owner Hinv (Z.of_nat n)) as (v & i & ed' & Hv & Hedge);
      [lia|].
    pose proof Hedge as (_ & _ & He').
    assert (ed' = ed) as -> by congruence.
    destruct (eo_target (ti_edge Hinv _ _ _ _ Hv Hedge)) as [[_ ?]|[? _]]; lia.
  - by rewrite (ti_leaf_counter Hinv).
Qed.

(** The text between two positions. *)
Definition text_seg (a n : Z) : list Z :=
  take (Z.to_nat n) (drop (Z.to_nat a) s).

Lemma text_seg_zero a n : n <= 0 -> text_seg a n = [].
Proof.
  intros Hn. unfold text_seg. replace (Z.to_nat n) with O by lia. done.
Qed.

Lemma text_seg_app a n m :
  0 <= a -> 0 <= n -> 0 <= m ->
  text_seg a (n + m) = text_seg a n ++ text_seg (a + n) m.
Proof.
  intros Ha Hn Hm. unfold text_seg.
  rewrite (Z2Nat.inj_add n m), (Z2Nat.inj_add a n) by lia.
  by rewrite <- take_take_drop, drop_drop.
Qed.

Lemma lookup_tx (i : nat) : Z.of_nat i < N -> s !! i = Some (tx (Z.of_nat i)).
Proof.
  intros Hi. pose proof (zlookup_tx (Z.of_nat i) ltac:(lia)) as H.
  unfold zlookup in H. destruct (Z.leb_spec 0 (Z.of_nat i)); [|lia].
  by rewrite Nat2Z.id in H.
Qed.

Lemma text_seg_ext a b n :
  0 <= a -> 0 <= b -> a + n <= N -> b + n <= N ->
  seg_eq a b n -> text_seg a n = text_seg b n.
Proof.
  intros Ha Hb Han Hbn Hseg. apply list_eq. intros i. unfold text_seg.
  rewrite !lookup_take, !lookup_drop. case_decide; [|done].
  rewrite !lookup_tx by lia. f_equal.
  replace (Z.of_nat (Z.to_nat a + i)) with (a + Z.of_nat i) by lia.
  replace (Z.of_nat (Z.to_nat b + i)) with (b + Z.of_nat i) by lia.
  apply Hseg. lia.
Qed.

Lemma text_seg_cons a n :
  0 <= a < N -> 1 <= n -> text_seg a n = tx a :: text_seg (a + 1) (n - 1).
Proof.
  intros Ha Hn. replace n with (1 + (n - 1)) at 1 by lia.
  rewrite text_seg_app by lia. unfold text_seg at 1.
  change (Z.to_nat 1) with 1%nat.
  erewrite drop_S; [|apply lookup_tx; lia].
  rewrite Z2Nat.id by lia. done.
Qed.

Lemma label_text_seg t ed :
  expanded_string t = s ->
  label t ed = text_seg (start_position ed) (edge_length ed).
Proof. intros H. unfold label, text_seg. by rewrite H. Qed.

Section Strings.

Variables (t : SuffixTree) (D S : Z -> Z) (pos m j x : Z) (pend : Z -> Prop).
Hypothesis Hinv : tree_inv t D S pos m j x pend.

(** Going down an edge appends its label to the string of the node. *)
Lemma edge_text u i e ed :
  u <> 1 -> has_edge t u i e ed -> 2 <= next_node_addr ed ->
  text_seg (S u) (D u) ++ label t ed
  = text_seg (S (next_node_addr ed)) (D (next_node_addr ed)).
Proof.
  intros Hu He Hnx. pose proof (ti_pos Hinv) as Hp.
  destruct (ti_edge Hinv _ _ _ _ Hu He).
  pose proof He as (Hc & _). apply child_Some_range in Hc.
  assert (0 <= D u) as HD
    by (eapply inv_depth_nonneg; [exact Hinv|done|done]).
  destruct eo_target0 as [[? _]|(_ & -> & ->)]; [lia|].
  rewrite (label_text_seg _ _ (ti_text Hinv)).
  rewrite text_seg_app by lia.
  replace (start_position ed - D u + D u) with (start_position ed) by lia.
  f_equal. destruct (Z.eq_dec (D u) 0) as [Hz|Hz].
  { by rewrite !(text_seg_zero _ (D u)) by lia. }
  assert (u <> 0) as Hu0.
  { intros ->. by rewrite (ti_depth_root Hinv) in Hz. }
  destruct (ti_node Hinv u) as (_ & ? & ?); [lia|].
  apply text_seg_ext; try lia. by apply seg_eq_sym.
Qed.

Lemma spells_has_edge u nd i e ed :
  zlookup (node_allocator t) u = Some nd ->
  zlookup (edges_to_childs nd) i = Some e ->
  e <> no_connection ->
  zlookup (edge_allocator t) e = Some ed ->
  has_edge t u i e ed.
Proof.
  intros Hu Hi He Hed. unfold has_edge, child, node_of, edge_of.
  by rewrite Hu.
Qed.

Lemma spells_sound v str :
  spells t v str ->
  v <> 1 /\
  (0 <= v -> 0 <= v < zlen (node_allocator t) /\
             str = text_seg (S v) (D v)).
Proof.
  induction 1 as [|u nd i e ed str Hsp [Hu1 IH] Hu Hi He Hed].
  - rewrite (ti_root_addr Hinv). split; [done|]. intros _.
    pose proof (inv_nodes_ge2 Hinv). split; [lia|].
    rewrite text_seg_zero; [done|]. by rewrite (ti_depth_root Hinv).
  - pose proof (spells_has_edge _ _ _ _ _ Hu Hi He Hed) as Hedge.
    pose proof (zlookup_Some_range _ _ _ Hu) as Hur.
    destruct (IH ltac:(lia)) as [_ ->].
    destruct (eo_target (ti_edge Hinv _ _ _ _ Hu1 Hedge))
      as [[? _]|(Hnx & _)]; [split; lia|].
    split; [lia|]. intros _. split; [lia|].
    apply edge_text with i e; [done|done|lia].
Qed.

Lemma spells_complete v :
  0 <= v < zlen (node_allocator t) -> v <> 1 ->
  spells t v (text_seg (S v) (D v)).
Proof.
  assert (forall n : nat, forall v,
    0 <= v < zlen (node_allocator t) -> v <> 1 -> D v < Z.of_nat n ->
    spells t v (text_seg (S v) (D v))) as H.
  { induction n as [|n IH]; intros u Hu Hu1 HD.
    - pose proof (inv_depth_nonneg Hinv u Hu Hu1). lia.
    - destruct (Z.eq_dec u 0) as [->|Hu0].
      { rewrite text_seg_zero by (by rewrite (ti_depth_root Hinv)).
        rewrite <- (ti_root_addr Hinv). constructor. }
      destruct (parent_facts _ _ _ _ _ _ _ _ Hinv u)
        as (p & i & e & ed & Hp1 & Hp & He & Hnx & HDp & HSp & Hl & HDp0
            & Hseg); [lia|].
      rewrite <- Hnx, <- (edge_text p i e ed); [|done|done|lia].
      pose proof He as (Hc & Hne & Hed). unfold child, node_of in Hc.
      destruct (zlookup (node_allocator t) p) as [nd|] eqn:E; [|done].
      eapply spells_edge; try done.
      apply IH; [done|done|lia]. }
  intros Hv Hv1. apply (H (Datatypes.S (Z.to_nat (D v)))); [done|done|lia].
Qed.

Lemma suffix_connection_string v nd :
  (forall u, ~ pend u) ->
  node_of t v = Some nd -> 2 <= v ->
  exists w c str,
    suffix_connection nd = Some w /\
    0 <= w < zlen (node_allocator t) /\ w <> 1 /\
    spells t v (c :: str) /\ spells t w str /\
    (forall str', spells t v str' -> str' = c :: str) /\
    (forall str', spells t w str' -> str' = str).
Proof.
  intros Hpend Hnd Hv. pose proof (zlookup_Some_range _ _ _ Hnd) as Hr.
  pose proof (ti_pos Hinv) as Hp.
  destruct (ti_suffix Hinv v ltac:(lia) (Hpend v))
    as (nd' & w & Hnd' & Hw & Hw1 & Hwr & HDw & Hseg).
  assert (nd' = nd) as -> by congruence.
  destruct (ti_node Hinv v) as (HD & HS & HSD); [lia|].
  assert (text_seg (S w) (D w) = text_seg (S v + 1) (D v - 1)) as Hstr.
  { rewrite HDw. destruct (Z.eq_dec (D v) 1) as [Hz|Hz].
    { by rewrite !text_seg_zero by lia. }
    assert (w <> 0) as Hw0.
    { intros ->. rewrite (ti_depth_root Hinv) in HDw. lia. }
    destruct (ti_node Hinv w) as (_ & ? & ?); [lia|].
    apply text_seg_ext; try lia. apply seg_eq_sym. by rewrite <- HDw. }
  assert (text_seg (S v) (D v) = tx (S v) :: text_seg (S w) (D w)) as Hcons.
  { rewrite Hstr. apply text_seg_cons; lia. }
  exists w, (tx (S v)), (text_seg (S w) (D w)). split_and!; try done; try lia.
  - rewrite <- Hcons. apply spells_complete; [lia|lia].
  - by apply spells_complete.
  - intros str' Hsp. apply spells_sound in Hsp as [_ Hsp].
    destruct Hsp as [_ ->]; [lia|]. done.
  - intros str' Hsp. apply spells_sound in Hsp as [_ Hsp].
    destruct Hsp as [_ ->]; [lia|]. done.
Qed.

End Strings.

(** *** The locator on the finished tree *)

(** [w] is read in the text at [b]. *)
Definition text_occ (b : Z) (w : list Z) : Prop :=
  0 <= b /\ text_seg b (zlen w) = w.

Lemma text_seg_length a n :
  0 <= a -> 0 <= n -> a + n <= N -> zlen (text_seg a n) = n.
Proof.
  intros Ha Hn Han. unfold zlen, text_seg.
  rewrite length_take, length_drop. unfold zlen in Han. lia.
Qed.

Lemma text_seg_short a n :
  0 <= a -> 0 < n -> zlen (text_seg a n) = n -> a + n <= N.
Proof.
  intros Ha Hn. unfold zlen, text_seg.
  rewrite length_take, length_drop. lia.
Qed.

Lemma text_seg_lookup a n q :
  0 <= a -> 0 <= q < n -> a + n <= N ->
  zlookup (text_seg a n) q = Some (tx (a + q)).
Proof.
  intros Ha Hq Han. unfold zlookup, text_seg.
  destruct (Z.leb_spec 0 q); [|lia].
  rewrite lookup_take_lt, lookup_drop by lia.
  rewrite lookup_tx by lia. do 2 f_equal. lia.
Qed.

Lemma text_seg_inj a b n :
  0 <= a -> 0 <= b -> a + n <= N -> b + n <= N ->
  text_seg a n = text_seg b n -> seg_eq a b n.
Proof.
  intros Ha Hb Han Hbn Heq q Hq.
  pose proof (text_seg_lookup a n q Ha Hq Han) as H1.
  pose proof (text_seg_lookup b n q Hb Hq Hbn) as H2.
  rewrite Heq in H1. congruence.
Qed.

Lemma text_occ_range b w :
  text_occ b w -> 0 < zlen w -> 0 <= b /\ b + zlen w <= N.
Proof.
  intros [Hb Hw] Hl. split; [done|].
  apply text_seg_short; [done|done|by rewrite Hw].
Qed.

Lemma text_occ_app b w1 w2 :
  text_occ b (w1 ++ w2) -> 0 < zlen w2 ->
  text_occ b w1 /\ text_occ (b + zlen w1) w2.
Proof.
  intros Hocc Hl2.
  pose proof (zlen_nonneg w1). pose proof (zlen_nonneg w2).
  pose proof (text_occ_range _ _ Hocc) as [Hb Hr];
    [rewrite zlen_app; lia|].
  destruct Hocc as [_ Hw]. rewrite zlen_app in Hw, Hr.
  rewrite text_seg_app in Hw by lia.
  apply app_inj_1 in Hw as [H1 H2].
  - by repeat split; try lia.
  - apply Nat2Z.inj. fold (zlen (text_seg b (zlen w1))). fold (zlen w1).
    apply text_seg_length; lia.
Qed.

Lemma zlen_cons {A} (x : A) l : zlen (x :: l) = 1 + zlen l.
Proof. unfold zlen. cbn [length]. lia. Qed.

Lemma text_occ_cons b c w : text_occ b (c :: w) -> b < N /\ tx b = c.
Proof.
  intros Hocc. pose proof (zlen_nonneg w).
  pose proof (text_occ_range _ _ Hocc) as [Hb Hr];
    [rewrite zlen_cons; lia|].
  destruct Hocc as [_ Hw]. rewrite zlen_cons in Hw, Hr. split; [lia|].
  rewrite text_seg_cons in Hw by lia. by injection Hw.
Qed.

Lemma text_seg_snoc a n :
  0 <= a -> 0 <= n -> a + n < N ->
  text_seg a (n + 1) = text_seg a n ++ [tx (a + n)].
Proof.
  intros Ha Hn Han. rewrite text_seg_app by lia. f_equal.
  rewrite text_seg_cons by lia. by rewrite text_seg_zero by lia.
Qed.

Section Locate.

Variables (t : SuffixTree) (D S : Z -> Z) (x : Z) (pend : Z -> Prop).
Hypothesis Hinv : tree_inv t D S N N N x pend.

(** The characters of a pattern: letters of the alphabet other than the
    terminal symbol. *)
Definition patt_ok (w : list Z) : Prop :=
  Forall (fun c => 0 <= idx c /\ c <> tx (N - 1)) w.

(** The locator after it has read [pre]: on the node of [pre], which the
    edge [last_edge_addr] enters, or inside an edge. *)
Definition loc_inv (pre : list Z) (st : LocatorState) : Prop :=
  let it := loc_iterator st in
  (position it = 0 /\ edge_addr it = no_connection /\
   0 <= node_addr it < zlen (node_allocator t) /\ node_addr it <> 1 /\
   pre = text_seg (S (node_addr it)) (D (node_addr it)) /\
   (node_addr it <> 0 ->
    exists u i ed, u <> 1 /\ has_edge t u i (last_edge_addr st) ed /\
                   next_node_addr ed = node_addr it))
  \/
  (0 < position it /\ node_addr it <> 1 /\
   exists i ed,
     has_edge t (node_addr it) i (edge_addr it) ed /\
     position it < edge_length ed /\
     pre = text_seg (start_position ed - D (node_addr it))
             (D (node_addr it) + position it)).

Lemma node_bounds v :
  0 <= v < zlen (node_allocator t) -> v <> 1 ->
  0 <= D v /\ (0 < D v -> 0 <= S v /\ S v + D v <= N).
Proof.
  intros Hv Hv1. destruct (Z.eq_dec v 0) as [->|Hv0].
  - rewrite (ti_depth_root Hinv). lia.
  - destruct (ti_node Hinv v) as (? & ? & ?); lia.
Qed.

Lemma node_text_occ v b pre :
  0 <= v < zlen (node_allocator t) -> v <> 1 ->
  pre = text_seg (S v) (D v) -> text_occ b pre ->
  zlen pre = D v /\ seg_eq b (S v) (D v).
Proof.
  intros Hv Hv1 -> Hocc. destruct (node_bounds v Hv Hv1) as [HD Hb].
  destruct (Z.eq_dec (D v) 0) as [Hz|Hz].
  { rewrite Hz, text_seg_zero by lia. split; [done|by apply seg_eq_nonpos]. }
  destruct Hb as [HS HSD]; [lia|].
  assert (zlen (text_seg (S v) (D v)) = D v) as Hl
    by (apply text_seg_length; lia).
  split; [done|].
  pose proof (text_occ_range _ _ Hocc ltac:(lia)) as [Hb0 Hbr].
  destruct Hocc as [_ Hw]. rewrite Hl in Hw, Hbr.
  by apply text_seg_inj.
Qed.

Lemma edge_path_text v i e ed :
  v <> 1 -> has_edge t v i e ed ->
  text_seg (start_position ed - D v) (D v) = text_seg (S v) (D v).
Proof.
  intros Hv He. destruct (ti_edge Hinv _ _ _ _ Hv He).
  pose proof He as (Hc & _). apply child_Some_range in Hc.
  destruct (node_bounds v Hc Hv) as [HD Hb].
  destruct (Z.eq_dec (D v) 0) as [Hz|Hz].
  { by rewrite Hz, !text_seg_zero by lia. }
  destruct Hb as [HS HSD]; [lia|].
  apply text_seg_ext; try lia. done.
Qed.

Lemma edge_text_occ v i e ed p b pre :
  v <> 1 -> has_edge t v i e ed -> 0 < p <= edge_length ed ->
  pre = text_seg (start_position ed - D v) (D v + p) ->
  text_occ b pre ->
  zlen pre = D v + p /\ seg_eq b (start_position ed - D v) (D v + p).
Proof.
  intros Hv He Hp -> Hocc. destruct (ti_edge Hinv _ _ _ _ Hv He).
  pose proof He as (Hc & _). apply child_Some_range in Hc.
  destruct (node_bounds v Hc Hv) as [HD _].
  assert (zlen (text_seg (start_position ed - D v) (D v + p)) = D v + p)
    as Hl by (apply text_seg_length; lia).
  split; [done|].
  pose proof (text_occ_range _ _ Hocc ltac:(lia)) as [Hb0 Hbr].
  destruct Hocc as [_ Hw]. rewrite Hl in Hw, Hbr.
  apply text_seg_inj; try done; lia.
Qed.

(** The string of the node at the end of an edge, when a character other
    than the terminal symbol stands last on the edge. *)
Lemma edge_end_text v i e ed c :
  v <> 1 -> has_edge t v i e ed ->
  tx (start_position ed + edge_length ed - 1) = c -> c <> tx (N - 1) ->
  2 <= next_node_addr ed < zlen (node_allocator t) /\
  text_seg (start_position ed - D v) (D v + edge_length ed)
  = text_seg (S (next_node_addr ed)) (D (next_node_addr ed)).
Proof.
  intros Hv He Htx Hc. destruct (ti_edge Hinv _ _ _ _ Hv He).
  destruct eo_target0 as [[_ Hend]|(Hnx & -> & ->)].
  - exfalso. apply Hc. rewrite <- Htx. f_equal. lia.
  - done.
Qed.

Lemma index_of_step_spec pre c st :
  loc_inv pre st -> 0 <= idx c -> c <> tx (N - 1) ->
  exists r,
    index_of_step letters c st t = Ok (r, t) /\
    match r with
    | Return z => z = -1 /\ forall b rest, ~ text_occ b (pre ++ c :: rest)
    | Continue st' => loc_inv (pre ++ [c]) st'
    end.
Proof.
  intros Hloc Hidx Hc. unfold index_of_step. cbv zeta.
  assert (forall rest, 0 < zlen (c :: rest)) as Hpos.
  { intros rest. rewrite zlen_cons. pose proof (zlen_nonneg rest). lia. }
  destruct Hloc as [(Hp & He & Hv & Hv1 & Hpre & Hlast)
                   |(Hp & Hv1 & i & ed & Hedge & Hlt & Hpre)].
  - (* on a node *)
    destruct (node_bounds _ Hv Hv1) as [HD _].
    destruct (inv_child Hinv (node_addr (loc_iterator st)) (idx c))
      as [e Hch]; [done|split; [done|by apply idx_range]|].
    erewrite bind_ok; cycle 1.
    { rewrite He, Z.eqb_refl.
      rewrite (bind_ok _ _ _ _ _ (alphabet_index_of_ok t c Hidx)).
      rewrite (bind_ok _ _ _ _ _ (edge_to_child_run _ _ _ _ Hch)).
      reflexivity. }
    destruct (Z.eqb_spec e no_connection) as [Hno|Hne].
    { exists (Return (-1)). split; [done|]. split; [done|].
      intros b rest Hocc.
      apply text_occ_app in Hocc as [Hocc1 Hocc2]; [|done].
      destruct (node_text_occ _ _ _ Hv Hv1 Hpre Hocc1) as [Hl Hseg].
      apply text_occ_cons in Hocc2 as [Hb Htx]. rewrite Hl in Hb, Htx.
      destruct Hocc1 as [Hb0 _].
      destruct (ti_next_child Hinv _ b Hv Hv1 Hb0 ltac:(lia) Hseg)
        as (e' & Hch' & He').
      rewrite Htx in Hch'. unfold no_connection in Hno. congruence. }
    destruct (inv_has_edge Hinv _ _ _ Hch Hne) as [ed Hedge].
    pose proof Hedge as (_ & _ & Hed).
    destruct (ti_edge Hinv _ _ _ _ Hv1 Hedge).
    rewrite (bind_ok _ _ _ _ _ (get_edge_by_ok _ _ _ Hed)).
    rewrite Hp, Z.add_0_r.
    rewrite (bind_ok _ _ _ _ _
               (char_at_ok t (start_position ed) (ti_text Hinv)
                  ltac:(lia))).
    assert (tx (start_position ed) = c) as Htx.
    { apply idx_inj; [apply Hvalid; lia|done]. }
    rewrite Htx, Z.eqb_refl. cbn [negb].
    pose proof (edge_path_text _ _ _ _ Hv1 Hedge) as Hpath.
    assert (pre ++ [c]
            = text_seg (start_position ed
                        - D (node_addr (loc_iterator st)))
                (D (node_addr (loc_iterator st)) + 1)) as Hpre1.
    { rewrite text_seg_snoc by lia. rewrite Hpath, <- Hpre. do 2 f_equal.
      rewrite <- Htx. f_equal. lia. }
    destruct (Z.eqb_spec (edge_length ed) (0 + 1)) as [Hlen|Hlen].
    + eexists (Continue _). split; [reflexivity|].
      destruct (edge_end_text _ _ _ _ c Hv1 Hedge) as [Hnx Htext];
        [rewrite <- Htx; f_equal; lia|done|].
      left. cbn [loc_iterator last_edge_addr node_addr edge_addr position].
      split_and!; try done; try lia.
      * rewrite Hpre1, <- Htext. f_equal. lia.
      * intros _. by exists (node_addr (loc_iterator st)), (idx c), ed.
    + eexists (Continue _). split; [reflexivity|].
      right. cbn [loc_iterator last_edge_addr node_addr edge_addr position].
      split; [lia|]. split; [done|]. exists (idx c), ed.
      split_and!; try done; try lia.
  - (* inside an edge *)
    pose proof Hedge as (Hch & Hne & Hed).
    destruct (ti_edge Hinv _ _ _ _ Hv1 Hedge).
    pose proof (child_Some_range _ _ _ _ Hch) as Hv.
    destruct (node_bounds _ Hv Hv1) as [HD _].
    erewrite bind_ok; cycle 1.
    { destruct (Z.eqb_spec (edge_addr (loc_iterator st)) no_connection);
        [done|reflexivity]. }
    destruct (Z.eqb_spec (edge_addr (loc_iterator st)) no_connection);
      [done|].
    rewrite (bind_ok _ _ _ _ _ (get_edge_by_ok _ _ _ Hed)).
    rewrite (bind_ok _ _ _ _ _
               (char_at_ok t
                  (start_position ed + position (loc_iterator st))
                  (ti_text Hinv) ltac:(lia))).
    destruct (Z.eqb_spec
                (tx (start_position ed + position (loc_iterator st))) c)
      as [Htx|Htx]; cbn [negb].
    + assert (pre ++ [c]
              = text_seg (start_position ed
                          - D (node_addr (loc_iterator st)))
                  (D (node_addr (loc_iterator st))
                   + (position (loc_iterator st) + 1))) as Hpre1.
      { rewrite Z.add_assoc, text_seg_snoc by lia. rewrite <- Hpre.
        do 2 f_equal. rewrite <- Htx. f_equal. lia. }
      destruct (Z.eqb_spec (edge_length ed)
                  (position (loc_iterator st) + 1)) as [Hlen|Hlen].
      * eexists (Continue _). split; [reflexivity|].
        destruct (edge_end_text _ _ _ _ c Hv1 Hedge) as [Hnx Htext];
          [rewrite <- Htx; f_equal; lia|done|].
        left. cbn [loc_iterator last_edge_addr node_addr edge_addr position].
        split_and!; try done; try lia.
        -- rewrite Hpre1, <- Htext. f_equal. lia.
        -- intros _. by exists (node_addr (loc_iterator st)), i, ed.
      * eexists (Continue _). split; [reflexivity|].
        right. cbn [loc_iterator last_edge_addr node_addr edge_addr position].
        split; [lia|]. split; [done|]. exists i, ed.
        split_and!; try done; try lia.
    + exists (Return (-1)). split; [done|]. split; [done|].
      intros b rest Hocc.
      apply text_occ_app in Hocc as [Hocc1 Hocc2]; [|done].
      destruct (edge_text_occ _ _ _ _ (position (loc_iterator st)) _ _
                  Hv1 Hedge ltac:(lia) Hpre Hocc1) as [Hl Hseg].
      apply text_occ_cons in Hocc2 as [Hb Htx']. rewrite Hl in Hb, Htx'.
      destruct Hocc1 as [Hb0 _]. apply Htx. rewrite <- Htx'.
      symmetry. rewrite Z.add_assoc.
      eapply (ti_next_char Hinv); try done; lia.
Qed.

Lemma index_of_loop_spec rest :
  forall pre st,
    loc_inv pre st -> patt_ok rest ->
    exists r,
      index_of_loop letters rest st t = Ok (r, t) /\
      match r with
      | Return z => z = -1 /\ forall b, ~ text_occ b (pre ++ rest)
      | Continue st' => loc_inv (pre ++ rest) st'
      end.
Proof.
  induction rest as [|c rest IH]; intros pre st Hloc Hok.
  - exists (Continue st). rewrite app_nil_r. done.
  - apply list.Forall_cons in Hok as [[Hidx Hc] Hok].
    destruct (index_of_step_spec pre c st Hloc Hidx Hc) as (r & Hrun & Hr).
    cbn [index_of_loop]. rewrite (bind_ok _ _ _ _ _ Hrun).
    destruct r as [st'|z].
    + destruct (IH (pre ++ [c]) st' Hr Hok) as (r' & Hrun' & Hr').
      exists r'. split; [done|]. by rewrite <- app_assoc in Hr'.
    + exists (Return z). split; [done|]. destruct Hr as [-> Hno].
      split; [done|]. intros b. apply Hno.
Qed.

(** [index_of] on a pattern of letters: the first position at which the
    pattern is read in the text, or -1 when it is read nowhere. *)
Lemma index_of_spec w :
  patt_ok w ->
  exists z,
    index_of letters w t = Ok (z, t) /\
    ((z = -1 /\ forall b, ~ text_occ b w) \/
     (text_occ z w /\ forall b, 0 <= b < z -> ~ text_occ b w)).
Proof.
  intros Hok. unfold index_of.
  erewrite bind_ok; [|by apply read_ok]. cbv zeta.
  destruct w as [|c w].
  { exists 0. split; [done|]. right. split; [|intros; lia].
    split; [done|]. by apply text_seg_zero. }
  cbn [length Nat.eqb].
  pose proof Hok as [[Hidx _] _]%list.Forall_cons.
  pose proof (idx_range _ Hidx) as Hk.
  pose proof (inv_nodes_ge2 Hinv) as Hnn.
  erewrite bind_ok; cycle 1.
  { unfold get_dummy. erewrite bind_ok; [|by apply read_ok].
    rewrite (ti_root_addr Hinv).
    destruct (ti_root Hinv) as (nd0 & H0 & H1).
    by eapply suffix_connection_of_ok. }
  erewrite bind_ok; cycle 1.
  { apply edge_to_child_run. apply (ti_dummy_child Hinv). lia. }
  rewrite (ti_root_addr Hinv).
  destruct (index_of_loop_spec (c :: w) []
              {| loc_iterator :=
                   {| node_addr := 0; edge_addr := no_connection;
                      position := 0 |};
                 last_edge_addr := 0 |}) as (r & Hrun & Hr); [|done|].
  { left. cbn. split_and!; try done; try lia.
    rewrite text_seg_zero; [done|]. by rewrite (ti_depth_root Hinv). }
  rewrite (bind_ok _ _ _ _ _ Hrun). cbn [app] in Hr.
  assert (0 < zlen (c :: w)) as Hpos.
  { rewrite zlen_cons. pose proof (zlen_nonneg w). lia. }
  pose proof (ti_pos Hinv) as Hp.
  destruct r as [st|z].
  - destruct Hr as [(Hp0 & He & Hv & Hv1 & Hpre & Hlast)
                   |(Hp0 & Hv1 & i & ed & Hedge & Hlt & Hpre)].
    + rewrite He, Z.eqb_refl.
      destruct (node_bounds _ Hv Hv1) as [HD Hb].
      assert (node_addr (loc_iterator st) <> 0) as Hv0.
      { intros H0. rewrite H0, (ti_depth_root Hinv) in Hpre.
        by rewrite text_seg_zero in Hpre. }
      destruct (Hlast Hv0) as (u & iu & ed & Hu & Hedge & Hnx).
      pose proof Hedge as (Hch & _ & Hed).
      pose proof (child_Some_range _ _ _ _ Hch) as Hur.
      destruct (node_bounds _ Hur Hu) as [HDu _].
      destruct (ti_edge Hinv _ _ _ _ Hu Hedge).
      destruct eo_target0 as [[? _]|(_ & HDv & HSv)]; [lia|].
      rewrite Hnx in HDv, HSv.
      rewrite (bind_ok _ _ _ _ _ (get_edge_by_ok _ _ _ Hed)).
      destruct Hb as [HS HSD]; [lia|].
      assert (zlen (c :: w) = D (node_addr (loc_iterator st))) as Hl.
      { rewrite Hpre. apply text_seg_length; lia. }
      rewrite Hl, to_int32_id by lia.
      eexists. split; [reflexivity|]. right.
      replace (start_position ed + edge_length ed
               - D (node_addr (loc_iterator st)))
        with (S (node_addr (loc_iterator st))) by lia.
      split.
      * split; [lia|]. by rewrite Hl.
      * intros b Hb Hocc.
        destruct (node_text_occ _ _ _ Hv Hv1 Hpre Hocc) as [_ Hseg].
        apply (eo_first0 b); [lia|].
        rewrite <- HSv. eapply seg_eq_le; [exact Hseg|lia].
    + pose proof Hedge as (Hch & Hne & Hed).
      destruct (Z.eqb_spec (edge_addr (loc_iterator st)) no_connection);
        [done|].
      pose proof (child_Some_range _ _ _ _ Hch) as Hv.
      destruct (node_bounds _ Hv Hv1) as [HD _].
      destruct (ti_edge Hinv _ _ _ _ Hv1 Hedge).
      rewrite (bind_ok _ _ _ _ _ (get_edge_by_ok _ _ _ Hed)).
      assert (zlen (c :: w)
              = D (node_addr (loc_iterator st)) + position (loc_iterator st))
        as Hl.
      { rewrite Hpre. apply text_seg_length; lia. }
      rewrite Hl, to_int32_id by lia.
      eexists. split; [reflexivity|]. right.
      replace (start_position ed + position (loc_iterator st)
               - (D (node_addr (loc_iterator st))
                  + position (loc_iterator st)))
        with (start_position ed - D (node_addr (loc_iterator st))) by lia.
      split.
      * split; [lia|]. by rewrite Hl.
      * intros b Hb Hocc.
        destruct (edge_text_occ _ _ _ _ (position (loc_iterator st)) _ _
                    Hv1 Hedge ltac:(lia) Hpre Hocc) as [_ Hseg].
        apply (eo_first0 b); [lia|].
        eapply seg_eq_le; [exact Hseg|lia].
  - destruct Hr as [-> Hno]. exists (-1). split; [done|]. by left.
Qed.

(** The locator stays on the inner nodes of the tree. *)
Lemma index_of_loop_inner w st0 :
  patt_ok w ->
  loc_iterator st0
  = {| node_addr := 0; edge_addr := no_connection; position := 0 |} ->
  exists r,
    index_of_loop letters w st0 t = Ok (r, t) /\
    match r with
    | Return z => z = -1
    | Continue st =>
        0 <= node_addr (loc_iterator st) < zlen (node_allocator t)
    end.
Proof.
  intros Hok Hst. pose proof (inv_nodes_ge2 Hinv) as Hnn.
  destruct (index_of_loop_spec w [] st0) as (r & Hrun & Hr); [|done|].
  { left. rewrite Hst. cbn. split_and!; try done; try lia.
    rewrite text_seg_zero; [done|]. by rewrite (ti_depth_root Hinv). }
  exists r. split; [done|]. destruct r as [st|z]; [|by destruct Hr].
  destruct Hr as [(_ & _ & Hv & _)|(_ & _ & i & ed & (Hch & _) & _)];
    [done|].
  by apply child_Some_range in Hch.
Qed.

(** *** The shape of the finished tree *)

(** The edge below a slot of a node other than the dummy node. *)
Lemma finished_edge v i e ed :
  v <> 1 -> has_edge t v i e ed ->
  k <= e /\ 1 <= edge_length ed /\ 0 <= start_position ed /\
  start_position ed + edge_length ed <= N /\
  idx (tx (start_position ed)) = i /\
  ((next_node_addr ed < 0 /\ start_position ed + edge_length ed = N) \/
   2 <= next_node_addr ed < zlen (node_allocator t)).
Proof.
  intros Hv He. destruct (ti_edge Hinv _ _ _ _ Hv He).
  pose proof He as (Hc & _). apply child_Some_range in Hc.
  destruct (node_bounds v Hc Hv) as [HD _].
  split_and!; try done; try lia.
Qed.

(** Two edges that enter the same inner node are one edge. *)
Lemma unique_parent u i e ed u' i' e' ed' :
  u <> 1 -> u' <> 1 ->
  has_edge t u i e ed -> has_edge t u' i' e' ed' ->
  next_node_addr ed = next_node_addr ed' -> 2 <= next_node_addr ed ->
  u = u' /\ i = i' /\ e = e'.
Proof.
  intros Hu Hu' He He' Hnx Hv.
  destruct (ti_edge Hinv _ _ _ _ Hu He).
  destruct (ti_edge Hinv _ _ _ _ Hu' He') as [? ? ? ? Hslot' Hpath' ? ? Htg'].
  pose proof He as (Hc & _). apply child_Some_range in Hc.
  pose proof He' as (Hc' & _). apply child_Some_range in Hc'.
  destruct eo_target0 as [[? _]|(_ & HD & HS)]; [lia|].
  destruct Htg' as [[? _]|(_ & HD' & HS')]; [lia|].
  rewrite <- Hnx in HD', HS'.
  assert (seg_eq (S u) (S u') (Z.min (D u) (D u'))) as Hseg.
  { intros q Hq. rewrite <- (eo_path0 q) by lia.
    rewrite <- (Hpath' q) by lia. f_equal. lia. }
  destruct (Z.lt_trichotomy (D u) (D u')) as [Hlt|[Heq|Hgt]].
  - exfalso. apply (no_node_inside_edge Hinv u' u i e ed); try done; [lia|].
    intros q Hq. rewrite <- (Hpath' q) by lia. f_equal. lia.
  - assert (u = u') as <-.
    { apply (node_unique Hinv); try done.
      eapply seg_eq_le; [exact Hseg|lia]. }
    destruct (same_first_char _ _ _ _ _ _ _ _ Hinv u i e ed i' e' ed')
      as [<- <-]; try done; [f_equal; lia|].
    split; [done|]. split; [|done]. by rewrite <- eo_slot0, <- Hslot'.
  - exfalso. apply (no_node_inside_edge Hinv u u' i' e' ed'); try done; [lia|].
    intros q Hq. rewrite <- (eo_path0 q) by lia. f_equal. lia.
Qed.

(** *** The suffixes and the leaves *)

(** A string that ends with the terminal symbol is read at one place. *)
Lemma terminal_segments a b n :
  1 <= n -> 0 <= a -> 0 <= b -> a + n = N -> b + n <= N ->
  seg_eq a b n -> a = b.
Proof.
  intros Hn Ha Hb Han Hbn Hseg.
  assert (b + n - 1 = N - 1); [|lia].
  apply Hterm; [lia|].
  replace (b + n - 1) with (b + (n - 1)) by lia.
  rewrite <- Hseg by lia. f_equal. lia.
Qed.

(** From a node whose string is read at [j], the rest of the suffix that
    starts at [j] leads down to a leaf. *)
Lemma leaf_below j (n : nat) :
  forall v,
    0 <= v < zlen (node_allocator t) -> v <> 1 -> 0 <= j ->
    seg_eq j (S v) (D v) -> j + D v < N ->
    (Z.to_nat (N - j - D v) <= n)%nat ->
    exists l, l < 0 /\ spells t l (text_seg j (N - j)).
Proof.
  induction n as [|n IH]; intros v Hv Hv1 Hj Hseg Hlt Hn; [lia|].
  destruct (node_bounds v Hv Hv1) as [HD Hb].
  destruct (ti_next_child Hinv v j Hv Hv1 Hj ltac:(lia) Hseg)
    as (e & Hc & He).
  destruct (inv_has_edge Hinv _ _ _ Hc He) as [ed Hedge].
  destruct (ti_edge Hinv _ _ _ _ Hv1 Hedge).
  assert (tx (j + D v) = tx (start_position ed)) as Htx.
  { apply tx_inj; [lia|lia|done]. }
  assert (seg_eq j (start_position ed - D v) (D v)) as Hpre.
  { intros q Hq. rewrite (Hseg q) by done. symmetry. by apply eo_path0. }
  assert (forall q, 1 <= q <= edge_length ed -> j + D v + q <= N ->
            seg_eq j (start_position ed - D v) (D v + q)) as Hmatch.
  { intros q Hq Hle. by apply (edge_match Hinv v (idx (tx (j + D v))) e ed j q). }
  destruct eo_target0 as [[Hleaf Hend]|(Hnx & HDw & HSw)].
  - assert (start_position ed - D v = j) as Hbj.
    { destruct (Z.lt_trichotomy (start_position ed - D v) j)
        as [Hcmp|[Hcmp|Hcmp]]; [|done|].
      - symmetry. apply (terminal_segments j _ (N - j)); try lia.
        replace (N - j) with (D v + (N - j - D v)) by lia.
        apply Hmatch; lia.
      - apply (terminal_segments _ j (N - (start_position ed - D v)));
          try lia.
        apply seg_eq_sym.
        replace (N - (start_position ed - D v))
          with (D v + edge_length ed) by lia.
        apply Hmatch; lia. }
    exists (next_node_addr ed). split; [done|].
    pose proof (spells_complete t D S N N N x pend Hinv v Hv Hv1) as Hsp.
    pose proof Hedge as (Hch & _ & Hed). unfold child, node_of in Hch.
    destruct (zlookup (node_allocator t) v) as [nd|] eqn:End; [|done].
    replace (text_seg j (N - j))
      with (text_seg (S v) (D v) ++ label t ed).
    { by eapply spells_edge. }
    rewrite (label_text_seg _ _ (ti_text Hinv)).
    rewrite <- (edge_path_text _ _ _ _ Hv1 Hedge), Hbj.
    replace (start_position ed) with (j + D v) by lia.
    rewrite <- text_seg_app by lia. f_equal. lia.
  - destruct (ti_node Hinv (next_node_addr ed)) as (HDw1 & HSw0 & HSDw);
      [lia|].
    assert (edge_length ed <= N - j - D v) as Hlen.
    { destruct (Z.le_gt_cases (edge_length ed) (N - j - D v)); [done|].
      assert (j = start_position ed - D v); [|lia].
      apply (terminal_segments j _ (N - j)); try lia.
      replace (N - j) with (D v + (N - j - D v)) by lia.
      apply Hmatch; lia. }
    assert (seg_eq j (S (next_node_addr ed)) (D (next_node_addr ed)))
      as Hseg'.
    { rewrite HSw, HDw. apply Hmatch; lia. }
    assert (j + D (next_node_addr ed) < N) as Hlt'.
    { destruct (Z.eq_dec (j + D (next_node_addr ed)) N) as [HeqN|]; [|lia].
      assert (j = S (next_node_addr ed)); [|lia].
      apply (terminal_segments j _ (D (next_node_addr ed))); try lia.
      done. }
    apply (IH (next_node_addr ed)); try done; lia.
Qed.

Lemma leaf_of_suffix j :
  0 <= j < N -> exists l, l < 0 /\ spells t l (text_seg j (N - j)).
Proof.
  intros Hj. pose proof (inv_nodes_ge2 Hinv).
  apply (leaf_below j (Z.to_nat N) 0); try done; try lia.
  - rewrite (ti_depth_root Hinv). by apply seg_eq_nonpos.
  - rewrite (ti_depth_root Hinv). lia.
  - rewrite (ti_depth_root Hinv). lia.
Qed.

Lemma suffix_of_leaf l w :
  spells t l w -> l < 0 ->
  exists j, 0 <= j < N /\ w = text_seg j (N - j).
Proof.
  intros Hsp Hl.
  inversion Hsp as [Hroot|u nd i e ed str Hu Hnd Hi He Hed Hnx]; subst.
  { rewrite (ti_root_addr Hinv) in Hl. lia. }
  pose proof (spells_has_edge _ _ _ _ _ _ Hnd Hi He Hed) as Hedge.
  pose proof (zlookup_Some_range _ _ _ Hnd) as Hur.
  destruct (spells_sound t D S N N N x pend Hinv u str Hu) as [Hu1 Hstr].
  destruct (Hstr ltac:(lia)) as [_ ->].
  destruct (ti_edge Hinv _ _ _ _ Hu1 Hedge).
  destruct (node_bounds u Hur Hu1) as [HD _].
  destruct eo_target0 as [[_ Hend]|[? _]]; [|lia].
  exists (start_position ed - D u). split; [lia|].
  rewrite (label_text_seg _ _ (ti_text Hinv)).
  rewrite <- (edge_path_text _ _ _ _ Hu1 Hedge).
  replace (N - (start_position ed - D u)) with (D u + edge_length ed) by lia.
  rewrite text_seg_app by lia. do 2 f_equal. lia.
Qed.

Lemma NoDup_filter_fmap_lookup {A} (f : A -> Z) (l : list A) :
  NoDup (filter (fun z => z < 0) (f <$> l)) ->
  forall (i i' : nat) a b,
    l !! i = Some a -> l !! i' = Some b -> f a < 0 -> f a = f b -> i = i'.
Proof.
  induction l as [|y l IH]; intros Hnd i i' a b Hi Hi' Ha Hab; [done|].
  cbn [fmap list_fmap] in Hnd. rewrite list.filter_cons in Hnd.
  assert (forall (n : nat) c, l !! n = Some c -> f c < 0 ->
            f c ∈ filter (fun z => z < 0) (f <$> l)) as Hmem.
  { intros n c Hn Hc. apply list_elem_of_filter. split; [done|].
    apply list_elem_of_fmap. exists c. split; [done|].
    by eapply list_elem_of_lookup_2. }
  destruct i as [|i], i' as [|i']; cbn in Hi, Hi'.
  - done.
  - injection Hi as ->. exfalso.
    rewrite decide_True in Hnd by done. apply list.NoDup_cons in Hnd as [Hn _].
    apply Hn. rewrite Hab. apply (Hmem i' b Hi'). lia.
  - injection Hi' as ->. exfalso.
    rewrite decide_True in Hnd by lia. apply list.NoDup_cons in Hnd as [Hn _].
    apply Hn. rewrite <- Hab. by apply (Hmem i a Hi).
  - f_equal. apply (IH) with a b; try done.
    case_decide; [by apply list.NoDup_cons in Hnd as [_ ?]|done].
Qed.

(** A leaf is entered by one edge. *)
Lemma leaf_edge_unique e e' ed ed' :
  edge_of t e = Some ed -> edge_of t e' = Some ed' ->
  next_node_addr ed < 0 -> next_node_addr ed = next_node_addr ed' ->
  e = e'.
Proof.
  intros He He' Hl Heq.
  pose proof (zlookup_Some_range _ _ _ He) as Hr.
  pose proof (zlookup_Some_range _ _ _ He') as Hr'.
  unfold edge_of, zlookup in He, He'.
  destruct (Z.leb_spec 0 e); [|lia]. destruct (Z.leb_spec 0 e'); [|lia].
  assert (NoDup (leaf_refs t)) as Hnd.
  { rewrite (ti_leaf_refs Hinv). apply leaf_ids_NoDup. }
  assert (Z.to_nat e = Z.to_nat e'); [|lia].
  by eapply (NoDup_filter_fmap_lookup next_node_addr (edge_allocator t) Hnd).
Qed.

Lemma leaf_path_unique l w w' :
  spells t l w -> spells t l w' -> l < 0 -> w = w'.
Proof.
  intros Hsp Hsp' Hl.
  inversion Hsp as [Hroot|u nd i e ed str Hu Hnd Hi He Hed Hnx].
  { rewrite <- Hroot, (ti_root_addr Hinv) in Hl. lia. }
  inversion Hsp' as [Hroot|u' nd' i' e' ed' str' Hu' Hnd' Hi' He' Hed' Hnx'].
  { rewrite <- Hroot, (ti_root_addr Hinv) in Hl. lia. }
  subst l.
  assert (e = e') as <-.
  { apply (leaf_edge_unique e e' ed ed'); try done. }
  assert (ed' = ed) as -> by congruence.
  pose proof (spells_has_edge _ _ _ _ _ _ Hnd Hi He Hed) as Hedge.
  pose proof (spells_has_edge _ _ _ _ _ _ Hnd' Hi' He' Hed') as Hedge'.
  destruct (spells_sound t D S N N N x pend Hinv u str Hu) as [Hu1 Hstr].
  destruct (spells_sound t D S N N N x pend Hinv u' str' Hu') as [Hu1' Hstr'].
  assert (u = u') as <- by (by eapply (ti_noshare Hinv)).
  pose proof (zlookup_Some_range _ _ _ Hnd) as Hur.
  destruct (Hstr ltac:(lia)) as [_ ->].
  destruct (Hstr' ltac:(lia)) as [_ ->]. done.
Qed.

(** *** The locator on the terminal symbol and on unknown characters *)

(** The locator on a leaf, which the edge [last_edge_addr] enters. *)
Definition on_leaf (pre : list Z) (st : LocatorState) : Prop :=
  node_addr (loc_iterator st) < 0 /\
  edge_addr (loc_iterator st) = no_connection /\
  position (loc_iterator st) = 0 /\
  (exists ed, edge_of t (last_edge_addr st) = Some ed /\
              start_position ed + edge_length ed = N) /\
  text_occ (N - zlen pre) pre.

Lemma terminal_position i : 0 <= i < N -> tx i = tx (N - 1) -> i = N - 1.
Proof. apply Hterm. Qed.

(** An edge whose label reaches the terminal symbol ends there, at a leaf. *)
Lemma terminal_edge v i e ed p :
  v <> 1 -> has_edge t v i e ed -> 0 <= p < edge_length ed ->
  tx (start_position ed + p) = tx (N - 1) ->
  edge_length ed = p + 1 /\ next_node_addr ed < 0 /\
  start_position ed + edge_length ed = N.
Proof.
  intros Hv He Hp Htx. destruct (ti_edge Hinv _ _ _ _ Hv He).
  pose proof He as (Hc & _). apply child_Some_range in Hc.
  destruct (node_bounds v Hc Hv) as [HD _].
  assert (start_position ed + p = N - 1) as Hpos
    by (apply terminal_position; [lia|done]).
  split; [lia|].
  destruct eo_target0 as [[? ?]|(Hnx & HDw & HSw)]; [done|].
  destruct (ti_node Hinv (next_node_addr ed)) as (_ & _ & ?); lia.
Qed.

Lemma index_of_step_terminal pre st :
  loc_inv pre st ->
  exists r,
    index_of_step letters (tx (N - 1)) st t = Ok (r, t) /\
    match r with
    | Return z =>
        z = -1 /\ forall b rest, ~ text_occ b (pre ++ tx (N - 1) :: rest)
    | Continue st' => on_leaf (pre ++ [tx (N - 1)]) st'
    end.
Proof.
  intros Hloc. unfold index_of_step. cbv zeta.
  pose proof (Hvalid (N - 1) ltac:(lia)) as Hidx.
  assert (forall rest, 0 < zlen (tx (N - 1) :: rest)) as Hpos.
  { intros rest. rewrite zlen_cons. pose proof (zlen_nonneg rest). lia. }
  destruct Hloc as [(Hp & He & Hv & Hv1 & Hpre & Hlast)
                   |(Hp & Hv1 & i & ed & Hedge & Hlt & Hpre)].
  - destruct (node_bounds _ Hv Hv1) as [HD _].
    destruct (inv_child Hinv (node_addr (loc_iterator st))
                (idx (tx (N - 1))))
      as [e Hch]; [done|split; [done|by apply idx_range]|].
    erewrite bind_ok; cycle 1.
    { rewrite He, Z.eqb_refl.
      rewrite (bind_ok _ _ _ _ _ (alphabet_index_of_ok t _ Hidx)).
      rewrite (bind_ok _ _ _ _ _ (edge_to_child_run _ _ _ _ Hch)).
      reflexivity. }
    destruct (Z.eqb_spec e no_connection) as [Hno|Hne].
    { exists (Return (-1)). split; [done|]. split; [done|].
      intros b rest Hocc.
      apply text_occ_app in Hocc as [Hocc1 Hocc2]; [|done].
      destruct (node_text_occ _ _ _ Hv Hv1 Hpre Hocc1) as [Hl Hseg].
      apply text_occ_cons in Hocc2 as [Hb Htx]. rewrite Hl in Hb, Htx.
      destruct Hocc1 as [Hb0 _].
      destruct (ti_next_child Hinv _ b Hv Hv1 Hb0 ltac:(lia) Hseg)
        as (e' & Hch' & He').
      rewrite Htx in Hch'. unfold no_connection in Hno. congruence. }
    destruct (inv_has_edge Hinv _ _ _ Hch Hne) as [ed Hedge].
    pose proof Hedge as (_ & _ & Hed).
    destruct (ti_edge Hinv _ _ _ _ Hv1 Hedge).
    rewrite (bind_ok _ _ _ _ _ (get_edge_by_ok _ _ _ Hed)).
    rewrite Hp, Z.add_0_r.
    rewrite (bind_ok _ _ _ _ _
               (char_at_ok t (start_position ed) (ti_text Hinv)
                  ltac:(lia))).
    assert (tx (start_position ed) = tx (N - 1)) as Htx.
    { apply idx_inj; [apply Hvalid; lia|done]. }
    rewrite Htx, Z.eqb_refl. cbn [negb].
    destruct (terminal_edge _ _ _ _ 0 Hv1 Hedge ltac:(lia))
      as (Hlen & Hleaf & Hend); [by rewrite Z.add_0_r|].
    destruct (Z.eqb_spec (edge_length ed) (0 + 1)) as [_|]; [|lia].
    eexists (Continue _). split; [reflexivity|].
    unfold on_leaf.
    cbn [loc_iterator last_edge_addr node_addr edge_addr position].
    split_and!; try done.
    + by exists ed.
    + pose proof (edge_path_text _ _ _ _ Hv1 Hedge) as Hpath.
      assert (pre ++ [tx (N - 1)]
              = text_seg (start_position ed
                          - D (node_addr (loc_iterator st)))
                  (D (node_addr (loc_iterator st)) + 1)) as Hpre1.
      { rewrite text_seg_snoc by lia. rewrite Hpath, <- Hpre. do 2 f_equal.
        rewrite <- Htx. f_equal. lia. }
      assert (zlen (pre ++ [tx (N - 1)])
              = D (node_addr (loc_iterator st)) + 1) as Hl.
      { rewrite Hpre1. apply text_seg_length; lia. }
      unfold text_occ. rewrite Hl. split; [lia|]. rewrite Hpre1. f_equal; lia.
  - pose proof Hedge as (Hch & Hne & Hed).
    destruct (ti_edge Hinv _ _ _ _ Hv1 Hedge).
    pose proof (child_Some_range _ _ _ _ Hch) as Hv.
    destruct (node_bounds _ Hv Hv1) as [HD _].
    erewrite bind_ok; cycle 1.
    { destruct (Z.eqb_spec (edge_addr (loc_iterator st)) no_connection);
        [done|reflexivity]. }
    destruct (Z.eqb_spec (edge_addr (loc_iterator st)) no_connection);
      [done|].
    rewrite (bind_ok _ _ _ _ _ (get_edge_by_ok _ _ _ Hed)).
    rewrite (bind_ok _ _ _ _ _
               (char_at_ok t
                  (start_position ed + position (loc_iterator st))
                  (ti_text Hinv) ltac:(lia))).
    destruct (Z.eqb_spec
                (tx (start_position ed + position (loc_iterator st)))
                (tx (N - 1)))
      as [Htx|Htx]; cbn [negb].
    + destruct (terminal_edge _ _ _ _ (position (loc_iterator st))
                  Hv1 Hedge ltac:(lia) Htx) as (Hlen & Hleaf & Hend).
      destruct (Z.eqb_spec (edge_length ed)
                  (position (loc_iterator st) + 1)) as [_|]; [|lia].
      eexists (Continue _). split; [reflexivity|].
      unfold on_leaf.
      cbn [loc_iterator last_edge_addr node_addr edge_addr position].
      split_and!; try done.
      * by exists ed.
      * assert (pre ++ [tx (N - 1)]
                = text_seg (start_position ed
                            - D (node_addr (loc_iterator st)))
                    (D (node_addr (loc_iterator st))
                     + (position (loc_iterator st) + 1))) as Hpre1.
        { rewrite Z.add_assoc, text_seg_snoc by lia. rewrite <- Hpre.
          do 2 f_equal. rewrite <- Htx. f_equal. lia. }
        assert (zlen (pre ++ [tx (N - 1)])
                = D (node_addr (loc_iterator st))
                  + (position (loc_iterator st) + 1)) as Hl.
        { rewrite Hpre1. apply text_seg_length; lia. }
        unfold text_occ. rewrite Hl. split; [lia|]. rewrite Hpre1. f_equal; lia.
    + exists (Return (-1)). split; [done|]. split; [done|].
      intros b rest Hocc.
      apply text_occ_app in Hocc as [Hocc1 Hocc2]; [|done].
      destruct (edge_text_occ _ _ _ _ (position (loc_iterator st)) _ _
                  Hv1 Hedge ltac:(lia) Hpre Hocc1) as [Hl Hseg].
      apply text_occ_cons in Hocc2 as [Hb Htx']. rewrite Hl in Hb, Htx'.
      destruct Hocc1 as [Hb0 _]. apply Htx. rewrite <- Htx'.
      symmetry. rewrite Z.add_assoc.
      eapply (ti_next_char Hinv); try done; lia.
Qed.

Lemma index_of_loop_app w1 w2 st u :
  index_of_loop letters (w1 ++ w2) st u
  = match index_of_loop letters w1 st u with
    | Ok (Continue st', u') => index_of_loop letters w2 st' u'
    | r => r
    end.
Proof.
  revert st u. induction w1 as [|c w1 IH]; intros st u; [done|].
  cbn [app index_of_loop]. unfold bind.
  destruct (index_of_step letters c st u) as [[[st'|z] u']| |]; try done.
Qed.

(** The state in which [index_of] enters its loop. *)
Definition loc_start : LocatorState :=
  {| loc_iterator :=
       {| node_addr := 0; edge_addr := no_connection; position := 0 |};
     last_edge_addr := 0 |}.

Lemma loc_start_inv : loc_inv [] loc_start.
Proof.
  pose proof (inv_nodes_ge2 Hinv). left. cbn.
  split_and!; try done; try lia.
  rewrite text_seg_zero; [done|]. by rewrite (ti_depth_root Hinv).
Qed.

Lemma locator_start_eq : locator_start letters t = loc_start.
Proof.
  unfold locator_start, loc_start. rewrite (ti_root_addr Hinv).
  pose proof (idx_tx_range (N - 1) ltac:(lia)) as Hk.
  unfold get_dummy. erewrite bind_ok; [|by apply read_ok].
  rewrite (ti_root_addr Hinv).
  destruct (ti_root Hinv) as (nd0 & H0 & H1).
  erewrite suffix_connection_of_ok; [|exact H0|exact H1].
  by rewrite (edge_to_child_run _ _ _ _
                (ti_dummy_child Hinv 0 ltac:(lia))).
Qed.

(** [index_of] in terms of its loop, on a pattern that is not empty. *)
Lemma index_of_unfold w :
  w <> [] ->
  index_of letters w t
  = match index_of_loop letters w loc_start t with
    | Ok (Return z, u) => Ok (z, u)
    | Ok (Continue st, u) =>
        (if edge_addr (loc_iterator st) =? no_connection then
           edge <- get_edge_by (last_edge_addr st) ;;
           ret (to_int32 (start_position edge + edge_length edge - zlen w))
         else
           edge <- get_edge_by (edge_addr (loc_iterator st)) ;;
           ret (to_int32 (start_position edge
                          + position (loc_iterator st) - zlen w))) u
    | Undefined => Undefined
    | OutOfFuel => OutOfFuel
    end.
Proof.
  intros Hw. unfold index_of.
  erewrite bind_ok; [|by apply read_ok]. cbv zeta.
  destruct w as [|c w]; [done|]. cbn [length Nat.eqb].
  pose proof (idx_tx_range (N - 1) ltac:(lia)) as Hk.
  erewrite bind_ok; cycle 1.
  { unfold get_dummy. erewrite bind_ok; [|by apply read_ok].
    rewrite (ti_root_addr Hinv).
    destruct (ti_root Hinv) as (nd0 & H0 & H1).
    by eapply suffix_connection_of_ok. }
  erewrite bind_ok; cycle 1.
  { apply edge_to_child_run. apply (ti_dummy_child Hinv). lia. }
  rewrite (ti_root_addr Hinv). fold loc_start. unfold bind at 1.
  by destruct (index_of_loop letters (c :: w) loc_start t)
    as [[[st|z] u]| |].
Qed.

(** The loop up to a terminal symbol that follows letters. *)
Lemma index_of_loop_terminal w :
  patt_ok w ->
  exists r,
    index_of_loop letters (w ++ [tx (N - 1)]) loc_start t = Ok (r, t) /\
    match r with
    | Return z => z = -1 /\ forall b rest, ~ text_occ b (w ++ tx (N - 1) :: rest)
    | Continue st => on_leaf (w ++ [tx (N - 1)]) st
    end.
Proof.
  intros Hok.
  destruct (index_of_loop_spec w [] loc_start loc_start_inv Hok)
    as (r & Hrun & Hr).
  rewrite index_of_loop_app, Hrun. cbn [app] in Hr.
  destruct r as [st|z].
  - destruct (index_of_step_terminal w st Hr) as (r' & Hrun' & Hr').
    cbn [index_of_loop]. rewrite (bind_ok _ _ _ _ _ Hrun').
    exists r'. split; [by destruct r'|]. by destruct r'.
  - exists (Return z). split; [done|]. destruct Hr as [-> Hno].
    split; [done|]. intros b rest Hocc.
    assert (0 < zlen (tx (N - 1) :: rest)) as Hpos.
    { rewrite zlen_cons. pose proof (zlen_nonneg rest). lia. }
    apply text_occ_app in Hocc as [Hocc _]; [|done]. by apply (Hno b).
Qed.


(** On a leaf the next character of a pattern makes the loop read
    [node_allocator] at the leaf reference. *)
Lemma index_of_step_on_leaf pre c st u :
  on_leaf pre st -> index_of_step letters c st u = Undefined.
Proof.
  intros (Hleaf & He & _). unfold index_of_step. cbv zeta.
  rewrite He, Z.eqb_refl.
  unfold bind, alphabet_index_of, read, Alphabet.index_of.
  destruct (zlookup (Alphabet.indices letters) c) as [i|];
    cbn [of_option]; [|done].
  unfold edge_to_child, bind, get_node_by, read.
  destruct (zlookup (node_allocator u) (node_addr (loc_iterator st)))
    as [nd|] eqn:E; [|done].
  apply zlookup_Some_range in E. lia.
Qed.

(** A pattern that goes on after the terminal symbol. *)
Lemma index_of_past_terminal_spec w c rest :
  patt_ok w ->
  ((forall b, ~ text_occ b (w ++ [tx (N - 1)])) /\
   index_of letters (w ++ tx (N - 1) :: c :: rest) t = Ok (-1, t)) \/
  (text_occ (N - 1 - zlen w) (w ++ [tx (N - 1)]) /\
   index_of letters (w ++ tx (N - 1) :: c :: rest) t = Undefined).
Proof.
  intros Hok. rewrite index_of_unfold by (by destruct w).
  replace (w ++ tx (N - 1) :: c :: rest)
    with ((w ++ [tx (N - 1)]) ++ c :: rest) by (by rewrite <- app_assoc).
  rewrite index_of_loop_app.
  destruct (index_of_loop_terminal w Hok) as (r & -> & Hr).
  destruct r as [st|z].
  - right. pose proof Hr as (_ & _ & _ & _ & Hocc).
    rewrite zlen_app in Hocc. change (zlen [tx (N - 1)]) with 1 in Hocc.
    replace (N - (zlen w + 1)) with (N - 1 - zlen w) in Hocc by lia.
    split; [done|]. cbn [index_of_loop]. unfold bind.
    by rewrite (index_of_step_on_leaf _ c st t Hr).
  - left. destruct Hr as [-> Hno]. split; [|done].
    intros b. apply Hno.
Qed.

(** The loop on a character that is no letter: its index is -1, or it lies
    outside the table of the alphabet. *)
Lemma index_of_step_unknown pre c st :
  loc_inv pre st ->
  Alphabet.index_of letters c = Ok (-1) \/
  Alphabet.index_of letters c = Undefined ->
  index_of_step letters c st t
  = if edge_addr (loc_iterator st) =? no_connection then Undefined
    else Ok (Return (-1), t).
Proof.
  intros Hloc Hc. unfold index_of_step. cbv zeta.
  destruct Hloc as [(Hp & He & Hv & Hv1 & Hpre & Hlast)
                   |(Hp & Hv1 & i & ed & Hedge & Hlt & Hpre)].
  - rewrite He, Z.eqb_refl.
    destruct (zlookup_in_range (node_allocator t) _ Hv) as [nd Hnd].
    unfold bind, alphabet_index_of, read.
    destruct Hc as [-> | ->]; [|done].
    unfold edge_to_child, bind, get_node_by, read.
    rewrite Hnd. cbn.
    destruct (zlookup (edges_to_childs nd) (-1)) as [e|] eqn:E; [|done].
    apply zlookup_Some_range in E. lia.
  - pose proof Hedge as (Hch & Hne & Hed).
    destruct (ti_edge Hinv _ _ _ _ Hv1 Hedge).
    pose proof (child_Some_range _ _ _ _ Hch) as Hv.
    destruct (node_bounds _ Hv Hv1) as [HD _].
    destruct (Z.eqb_spec (edge_addr (loc_iterator st)) no_connection);
      [done|].
    erewrite bind_ok; [|reflexivity].
    destruct (Z.eqb_spec (edge_addr (loc_iterator st)) no_connection);
      [done|].
    rewrite (bind_ok _ _ _ _ _ (get_edge_by_ok _ _ _ Hed)).
    rewrite (bind_ok _ _ _ _ _
               (char_at_ok t
                  (start_position ed + position (loc_iterator st))
                  (ti_text Hinv) ltac:(lia))).
    destruct (Z.eqb_spec
                (tx (start_position ed + position (loc_iterator st))) c)
      as [Htx|Htx]; [|done].
    exfalso.
    pose proof (Hvalid (start_position ed + position (loc_iterator st))
                  ltac:(lia)) as Hidx.
    rewrite Htx in Hidx. unfold idx in Hidx.
    destruct Hc as [Hc|Hc]; rewrite Hc in Hidx; lia.
Qed.

(** A pattern with a character that is no letter, after letters. *)
Lemma index_of_unknown_spec w c rest :
  patt_ok w ->
  Alphabet.index_of letters c = Ok (-1) \/
  Alphabet.index_of letters c = Undefined ->
  exists r,
    index_of_loop letters w loc_start t = Ok (r, t) /\
    index_of letters (w ++ c :: rest) t
    = match r with
      | Return _ => Ok (-1, t)
      | Continue st =>
          if edge_addr (loc_iterator st) =? no_connection then Undefined
          else Ok (-1, t)
      end.
Proof.
  intros Hok Hc.
  destruct (index_of_loop_spec w [] loc_start loc_start_inv Hok)
    as (r & Hrun & Hr).
  exists r. split; [done|].
  rewrite index_of_unfold by (by destruct w).
  rewrite index_of_loop_app, Hrun. cbn [app] in Hr.
  destruct r as [st|z].
  - cbn [index_of_loop]. unfold bind at 1.
    rewrite (index_of_step_unknown w c st Hr Hc).
    by destruct (edge_addr (loc_iterator st) =? no_connection).
  - by destruct Hr as [-> _].
Qed.

End Locate.

End Construction.

(** ** The constructor on a valid source *)

(** The source passes the check of the constructor and holds no terminal
    symbol. *)
Definition valid_source (letters source : list Z) : Prop :=
  constructor_precondition letters source = Ok true /\
  ~ In terminal_symbol source.

(** The references fit [int32_t]: the arenas stay below [2^31] entries and
    the static leaf counter, which starts at [c0], stays above [INT32_MIN]. *)
Definition within_capacity (letters source : list Z) (c0 : Z) : Prop :=
  zlen letters + 2 * zlen source + 5 < 2147483648 /\
  int32_min + zlen source + 1 <= c0 <= 0.

Lemma zlookup_cons {A} (x : A) l i :
  zlookup (x :: l) i = if i =? 0 then Some x else zlookup l (i - 1).
Proof.
  unfold zlookup. destruct (Z.eqb_spec i 0) as [->|Hi]; [done|].
  destruct (Z.leb_spec 0 i), (Z.leb_spec 0 (i - 1)); try lia; try done.
  replace (Z.to_nat i) with (Datatypes.S (Z.to_nat (i - 1))) by lia. done.
Qed.

Lemma is_alphabet_of_lookup letters str :
  Alphabet.is_alphabet_of letters str = Ok true ->
  forall i c, zlookup str i = Some c ->
    exists ix, Alphabet.index_of letters c = Ok ix /\ 0 <= ix.
Proof.
  induction str as [|a str IH]; intros H i c Hl.
  - unfold zlookup in Hl. by destruct (0 <=? i).
  - cbn [Alphabet.is_alphabet_of] in H.
    destruct (Alphabet.index_of letters a) as [ix| |] eqn:E; try done.
    destruct (Z.ltb_spec ix 0); [done|].
    rewrite zlookup_cons in Hl. destruct (Z.eqb_spec i 0).
    + injection Hl as <-. by exists ix.
    + by eapply IH.
Qed.

Lemma zlookup_In {A} (l : list A) i x : zlookup l i = Some x -> In x l.
Proof.
  unfold zlookup. destruct (0 <=? i); [|done].
  intros H. apply list_elem_of_In. by eapply list_elem_of_lookup_2.
Qed.

Section ValidSource.

Variables (letters source : list Z) (c0 : Z).
Hypothesis Hvalid : valid_source letters source.
Hypothesis Hcap : within_capacity letters source c0.

Local Abbreviation s := (source ++ [terminal_symbol]).

Lemma expanded_length : zlen s = zlen source + 1.
Proof. by rewrite zlen_app. Qed.

Lemma expanded_in_alphabet i : 0 <= i < zlen s -> 0 <= idx letters (tx s i).
Proof.
  intros Hi. destruct Hvalid as [Hpre _].
  destruct (zlookup_in_range s i Hi) as [c Hc].
  destruct (is_alphabet_of_lookup _ _ Hpre i c Hc) as (ix & Hix & H0).
  unfold tx, idx. by rewrite Hc, Hix.
Qed.

Lemma expanded_terminal i :
  0 <= i < zlen s -> tx s i = tx s (zlen s - 1) -> i = zlen s - 1.
Proof.
  intros Hi Htx. destruct Hvalid as [_ Hno].
  pose proof expanded_length as Hlen.
  destruct (Z.eq_dec i (zlen s - 1)) as [|Hne]; [done|]. exfalso.
  apply Hno. unfold tx in Htx.
  replace (zlen s - 1) with (zlen source) in Htx by lia.
  rewrite zlookup_snoc in Htx.
  rewrite zlookup_app_l in Htx by lia.
  destruct (zlookup source i) as [c|] eqn:E.
  - subst c. by eapply zlookup_In.
  - apply zlookup_None_range in E. lia.
Qed.

(** The constructor returns, and its tree satisfies the invariant of the
    construction with all [zlen s] suffixes inserted. *)
Lemma construction_spec :
  exists t D S,
    (forall fuel, (length source + 1 < fuel)%nat ->
       SuffixTree_new letters fuel source c0 = Ok t) /\
    tree_inv letters s c0 t D S (zlen s) (zlen s) (zlen s) 0 no_pend.
Proof.
  pose proof expanded_length as Hlen. destruct Hcap as [Hc1 Hc2].
  pose proof (zlen_nonneg source) as Hs0.
  destruct (construct_run letters s c0 expanded_in_alphabet)
    as (t & D & S & Hrun & Hinv); try lia.
  { apply expanded_terminal. }
  exists t, D, S. split; [|done]. intros fuel Hf.
  assert (Z.to_nat (zlen s) < fuel)%nat as Hf'.
  { rewrite Hlen. unfold zlen. lia. }
  specialize (Hrun fuel Hf'). unfold empty_tree in Hrun.
  unfold SuffixTree_new. cbv zeta. by rewrite Hrun.
Qed.

End ValidSource.

(** C7.  On a valid source whose references fit [int32_t] the constructor
    returns: a fuel above the length of the expanded string is enough for the
    loop of [construct_tree] over the characters, for both loops of
    [second_stage] in every round of it, and for the loop of
    [go_using_suffix_connection] in every round of those; none of them runs
    out of fuel and no step is undefined. *)
Theorem construction_terminates (letters source : list Z) (c0 : Z) :
  valid_source letters source ->
  within_capacity letters source c0 ->
  exists t, forall fuel, (length source + 1 < fuel)%nat ->
    SuffixTree_new letters fuel source c0 = Ok t.
Proof.
  intros Hvalid Hcap.
  destruct (construction_spec letters source c0 Hvalid Hcap)
    as (t & _ & _ & Hrun & _).
  by exists t.
Qed.

Lemma construction_terminates_witness :
  valid_source EnglishLowercaseLetters mississipi /\
  within_capacity EnglishLowercaseLetters mississipi 0 /\
  exists t, forall fuel, (length mississipi + 1 < fuel)%nat ->
    SuffixTree_new EnglishLowercaseLetters fuel mississipi 0 = Ok t.
Proof.
  assert (valid_source EnglishLowercaseLetters mississipi) as Hvalid.
  { split; [vm_compute; reflexivity|].
    cbv [In mississipi terminal_symbol]. lia. }
  assert (within_capacity EnglishLowercaseLetters mississipi 0) as Hcap.
  { unfold within_capacity, int32_min.
    change (zlen EnglishLowercaseLetters) with 27.
    change (zlen mississipi) with 10. lia. }
  split; [exact Hvalid|]. split; [exact Hcap|].
  exact (construction_terminates EnglishLowercaseLetters mississipi 0
           Hvalid Hcap).
Defined.

(** C5.  The tree of a valid source of length [m] has exactly [m + 1] edges
    that lead to a leaf; their leaf references are pairwise different, they
    are the [m + 1] values the static counter took during the construction,
    and a leaf edge that starts at [start_position] has the length
    [m + 1 - start_position], up to the end of the expanded string. *)
Theorem leaf_edges_count (letters source : list Z) (c0 : Z) (fuel : nat)
    (t : SuffixTree) :
  valid_source letters source ->
  within_capacity letters source c0 ->
  (length source + 1 < fuel)%nat ->
  SuffixTree_new letters fuel source c0 = Ok t ->
  zlen (leaf_edges t) = zlen source + 1 /\
  NoDup (next_node_addr <$> leaf_edges t) /\
  (forall z, z ∈ (next_node_addr <$> leaf_edges t) <->
             c0 - (zlen source + 1) <= z < c0) /\
  Forall (fun ed => edge_length ed = zlen source + 1 - start_position ed)
    (leaf_edges t) /\
  leaf_addr_allocator t = c0 - (zlen source + 1).
Proof.
  intros Hvalid Hcap Hfuel Hnew.
  destruct (construction_spec letters source c0 Hvalid Hcap)
    as (t' & D & S & Hrun & Hinv).
  rewrite (Hrun fuel Hfuel) in Hnew. injection Hnew as <-.
  rewrite <- (expanded_length source).
  eapply final_leaves; [|exact Hinv].
  rewrite expanded_length. pose proof (zlen_nonneg source). lia.
Qed.

Lemma leaf_edges_count_witness :
  let t := tree_of EnglishLowercaseLetters mississipi in
  SuffixTree_new EnglishLowercaseLetters 12 mississipi 0 = Ok t /\
  zlen (leaf_edges t) = 11 /\
  NoDup (next_node_addr <$> leaf_edges t) /\
  (forall z, z ∈ (next_node_addr <$> leaf_edges t) <-> 0 - 11 <= z < 0) /\
  Forall (fun ed => edge_length ed = 11 - start_position ed) (leaf_edges t) /\
  leaf_addr_allocator t = 0 - 11.
Proof.
  cbv zeta. split; [vm_compute; reflexivity|].
  apply (leaf_edges_count EnglishLowercaseLetters mississipi 0 12).
  - split; [vm_compute; reflexivity|].
    cbv [In mississipi terminal_symbol]. lia.
  - unfold within_capacity, int32_min.
    change (zlen EnglishLowercaseLetters) with 27.
    change (zlen mississipi) with 10. lia.
  - cbn. lia.
  - vm_compute. reflexivity.
Defined.

(** C6.  In the tree of a valid source every node other than the root and
    the dummy node has a suffix connection; it refers to a node of the tree,
    not to a leaf, and the string read from the root to that node is the
    string read from the root to the connected node without its first
    character.  Each of the two nodes has one string only. *)
Theorem suffix_connection_drops_first_character (letters source : list Z)
    (c0 : Z) (fuel : nat) (t : SuffixTree) :
  valid_source letters source ->
  within_capacity letters source c0 ->
  (length source + 1 < fuel)%nat ->
  SuffixTree_new letters fuel source c0 = Ok t ->
  exists dummy,
    get_dummy t = Ok (dummy, t) /\
    forall v nd,
      zlookup (node_allocator t) v = Some nd ->
      v <> root_addr t -> v <> dummy ->
      exists w c str,
        suffix_connection nd = Some w /\
        is_leaf w = false /\ w < zlen (node_allocator t) /\
        spells t v (c :: str) /\ spells t w str /\
        (forall str', spells t v str' -> str' = c :: str) /\
        (forall str', spells t w str' -> str' = str).
Proof.
  intros Hvalid Hcap Hfuel Hnew.
  destruct (construction_spec letters source c0 Hvalid Hcap)
    as (t' & D & S & Hrun & Hinv).
  rewrite (Hrun fuel Hfuel) in Hnew. injection Hnew as <-.
  assert (1 <= zlen (source ++ [terminal_symbol])) as HN.
  { rewrite expanded_length. pose proof (zlen_nonneg source). lia. }
  pose proof (ti_root_addr _ _ _ _ _ _ _ _ _ _ _ Hinv) as Hroot.
  destruct (ti_root _ _ _ _ _ _ _ _ _ _ _ Hinv) as (nd0 & Hnd0 & Hsuf0).
  exists 1. split.
  { unfold get_dummy. erewrite bind_ok; [|by apply read_ok].
    rewrite Hroot. by eapply suffix_connection_of_ok. }
  intros v nd Hv Hv0 Hv1. rewrite Hroot in Hv0.
  pose proof (zlookup_Some_range _ _ _ Hv) as Hr.
  destruct (suffix_connection_string _ _ _ HN _ _ _ _ _ _ _ _ Hinv v nd)
    as (w & c & str & Hw & Hwr & _ & Hsp); [intros u Hu; exact Hu|done|lia|].
  exists w, c, str. split; [done|].
  split; [unfold is_leaf; apply Z.ltb_ge; lia|]. split; [lia|done].
Qed.

Lemma suffix_connection_drops_first_character_witness :
  let t := tree_of EnglishLowercaseLetters mississipi in
  SuffixTree_new EnglishLowercaseLetters 12 mississipi 0 = Ok t /\
  exists dummy,
    get_dummy t = Ok (dummy, t) /\
    forall v nd,
      zlookup (node_allocator t) v = Some nd ->
      v <> root_addr t -> v <> dummy ->
      exists w c str,
        suffix_connection nd = Some w /\
        is_leaf w = false /\ w < zlen (node_allocator t) /\
        spells t v (c :: str) /\ spells t w str /\
        (forall str', spells t v str' -> str' = c :: str) /\
        (forall str', spells t w str' -> str' = str).
Proof.
  cbv zeta. split; [vm_compute; reflexivity|].
  apply (suffix_connection_drops_first_character EnglishLowercaseLetters
           mississipi 0 12).
  - split; [vm_compute; reflexivity|].
    cbv [In mississipi terminal_symbol]. lia.
  - unfold within_capacity, int32_min.
    change (zlen EnglishLowercaseLetters) with 27.
    change (zlen mississipi) with 10. lia.
  - cbn. lia.
  - vm_compute. reflexivity.
Defined.

(** ** The locator on the tree of a valid source *)

Lemma take_drop_snoc {A} (l w : list A) (x : A) (a : nat) :
  ~ In x w ->
  take (length w) (drop a (l ++ [x])) = w <->
  take (length w) (drop a l) = w.
Proof.
  intros Hx. destruct (Nat.le_gt_cases a (length l)) as [Ha|Ha].
  - rewrite drop_app_le by done.
    destruct (Nat.le_gt_cases (length w) (length (drop a l))) as [Hw|Hw].
    + by rewrite take_app_le.
    + rewrite take_app_ge by lia. split.
      * intros H. exfalso. apply Hx. rewrite <- H.
        apply in_or_app. right.
        destruct (length w - length (drop a l))%nat eqn:E; [lia|].
        by left.
      * intros H. apply (f_equal length) in H.
        rewrite length_take in H. lia.
  - rewrite !drop_ge by (rewrite ?length_app; cbn; lia).
    by rewrite !take_nil.
Qed.

Lemma text_occ_occurs_at source w b :
  ~ In terminal_symbol w ->
  text_occ (source ++ [terminal_symbol]) b w <-> occurs_at source w b.
Proof.
  intros Hw. unfold text_occ, text_seg, occurs_at.
  replace (Z.to_nat (zlen w)) with (length w) by (unfold zlen; lia).
  by rewrite take_drop_snoc.
Qed.

Lemma In_zlookup {A} (l : list A) x : In x l -> exists i, zlookup l i = Some x.
Proof.
  intros [i Hi]%list_elem_of_In%list_elem_of_lookup_1.
  exists (Z.of_nat i). unfold zlookup.
  destruct (Z.leb_spec 0 (Z.of_nat i)); [|lia]. by rewrite Nat2Z.id.
Qed.

Lemma pattern_ok letters source pattern :
  zlen (source ++ [terminal_symbol]) = zlen source + 1 ->
  Alphabet.is_alphabet_of letters pattern = Ok true ->
  ~ In terminal_symbol pattern ->
  patt_ok letters (source ++ [terminal_symbol]) pattern.
Proof.
  intros Hlen Hpat Hno. apply Forall_forall. intros c Hc. split.
  - destruct (In_zlookup _ _ Hc) as [i Hi].
    destruct (is_alphabet_of_lookup _ _ Hpat i c Hi) as (ix & Hix & H0).
    unfold idx. by rewrite Hix.
  - unfold tx. replace (zlen (source ++ [terminal_symbol]) - 1)
      with (zlen source) by lia.
    rewrite zlookup_snoc. by intros ->.
Qed.

(** X1.  On the tree of a valid source, [index_of] on a pattern made of
    letters of the alphabet other than the terminal symbol returns the first
    position at which the pattern occurs in the source, or -1 when the
    pattern occurs nowhere in it, and [contains] tells which of the two. *)
Theorem index_of_leftmost (letters source pattern : list Z) (c0 : Z)
    (fuel : nat) (t : SuffixTree) :
  valid_source letters source ->
  within_capacity letters source c0 ->
  (length source + 1 < fuel)%nat ->
  SuffixTree_new letters fuel source c0 = Ok t ->
  Alphabet.is_alphabet_of letters pattern = Ok true ->
  ~ In terminal_symbol pattern ->
  exists z,
    index_of letters pattern t = Ok (z, t) /\
    contains letters pattern t = Ok (negb (z =? -1), t) /\
    ((z = -1 /\ ~ is_substring pattern source) \/
     (occurs_at source pattern z /\
      forall b, 0 <= b < z -> ~ occurs_at source pattern b)).
Proof.
  intros Hvalid Hcap Hfuel Hnew Hpat Hno.
  destruct (construction_spec letters source c0 Hvalid Hcap)
    as (t' & D & S & Hrun & Hinv).
  rewrite (Hrun fuel Hfuel) in Hnew. injection Hnew as <-.
  pose proof (expanded_length source) as Hlen.
  pose proof (zlen_nonneg source) as Hs0.
  destruct Hcap as [Hc1 Hc2].
  destruct (index_of_spec letters (source ++ [terminal_symbol]) c0
              (expanded_in_alphabet letters source Hvalid)
              ltac:(lia) ltac:(lia)
              t' D S 0 no_pend Hinv pattern) as (z & Hz & Hres).
  { by apply pattern_ok. }
  exists z. split; [done|]. split.
  { unfold contains. by rewrite (bind_ok _ _ _ _ _ Hz). }
  destruct Hres as [[-> Hnone]|[Hocc Hleft]]; [left|right].
  - split; [done|]. intros [b Hb]. apply (Hnone b).
    by apply text_occ_occurs_at.
  - split; [by apply text_occ_occurs_at|].
    intros b Hb Hocc'. apply (Hleft b Hb). by apply text_occ_occurs_at.
Qed.

Lemma index_of_leftmost_witness :
  let t := tree_of EnglishLowercaseLetters mississipi in
  let pattern := [115; 105; 112] in
  SuffixTree_new EnglishLowercaseLetters 12 mississipi 0 = Ok t /\
  exists z,
    index_of EnglishLowercaseLetters pattern t = Ok (z, t) /\
    contains EnglishLowercaseLetters pattern t = Ok (negb (z =? -1), t) /\
    ((z = -1 /\ ~ is_substring pattern mississipi) \/
     (occurs_at mississipi pattern z /\
      forall b, 0 <= b < z -> ~ occurs_at mississipi pattern b)).
Proof.
  cbv zeta. split; [vm_compute; reflexivity|].
  apply (index_of_leftmost EnglishLowercaseLetters mississipi [115; 105; 112]
           0 12).
  - split; [vm_compute; reflexivity|].
    cbv [In mississipi terminal_symbol]. lia.
  - unfold within_capacity, int32_min.
    change (zlen EnglishLowercaseLetters) with 27.
    change (zlen mississipi) with 10. lia.
  - cbn. lia.
  - vm_compute. reflexivity.
  - vm_compute. reflexivity.
  - cbv [In terminal_symbol]. lia.
Defined.

(** X2.  On the tree of a valid source the loop of [index_of], run on a
    pattern made of letters of the alphabet other than the terminal symbol,
    never stands on a leaf: after every prefix of the pattern it has either
    answered -1 or its iterator refers to a node of the tree, so the
    condition of the assertion in the loop holds. *)
Theorem locator_stays_off_leaves (letters source pattern : list Z) (c0 : Z)
    (fuel : nat) (t : SuffixTree) :
  valid_source letters source ->
  within_capacity letters source c0 ->
  (length source + 1 < fuel)%nat ->
  SuffixTree_new letters fuel source c0 = Ok t ->
  Alphabet.is_alphabet_of letters pattern = Ok true ->
  ~ In terminal_symbol pattern ->
  forall pre rest, pattern = pre ++ rest ->
    exists r,
      index_of_loop letters pre (locator_start letters t) t = Ok (r, t) /\
      match r with
      | Return z => z = -1
      | Continue st =>
          is_leaf (node_addr (loc_iterator st)) = false /\
          node_addr (loc_iterator st) < zlen (node_allocator t)
      end.
Proof.
  intros Hvalid Hcap Hfuel Hnew Hpat Hno pre rest ->.
  destruct (construction_spec letters source c0 Hvalid Hcap)
    as (t' & D & S & Hrun & Hinv).
  rewrite (Hrun fuel Hfuel) in Hnew. injection Hnew as <-.
  pose proof (expanded_length source) as Hlen.
  pose proof (zlen_nonneg source) as Hs0.
  destruct Hcap as [Hc1 Hc2].
  pose proof (pattern_ok _ _ _ Hlen Hpat Hno) as Hok.
  apply Forall_app in Hok as [Hok _].
  destruct (index_of_loop_inner letters (source ++ [terminal_symbol]) c0
              (expanded_in_alphabet letters source Hvalid) ltac:(lia)
              t' D S 0 no_pend Hinv pre (locator_start letters t') Hok)
    as (r & Hr & Hres).
  { unfold locator_start. cbn [loc_iterator].
    by rewrite (ti_root_addr _ _ _ _ _ _ _ _ _ _ _ Hinv). }
  exists r. split; [done|]. destruct r as [st|z]; [|done].
  split; [|lia]. unfold is_leaf. apply Z.ltb_ge. lia.
Qed.

Lemma locator_stays_off_leaves_witness :
  let t := tree_of EnglishLowercaseLetters mississipi in
  SuffixTree_new EnglishLowercaseLetters 12 mississipi 0 = Ok t /\
  exists r,
    index_of_loop EnglishLowercaseLetters [115; 105]
      (locator_start EnglishLowercaseLetters t) t = Ok (r, t) /\
    match r with
    | Return z => z = -1
    | Continue st =>
        is_leaf (node_addr (loc_iterator st)) = false /\
        node_addr (loc_iterator st) < zlen (node_allocator t)
    end.
Proof.
  cbv zeta. split; [vm_compute; reflexivity|].
  apply (locator_stays_off_leaves EnglishLowercaseLetters mississipi
           [115; 105; 112] 0 12 _
           ltac:(split; [vm_compute; reflexivity|];
                 cbv [In mississipi terminal_symbol]; lia)
           ltac:(unfold within_capacity, int32_min;
                 change (zlen EnglishLowercaseLetters) with 27;
                 change (zlen mississipi) with 10; lia)
           ltac:(cbn; lia)
           ltac:(vm_compute; reflexivity)
           ltac:(vm_compute; reflexivity)
           ltac:(cbv [In terminal_symbol]; lia)
           [115; 105] [112] eq_refl).
Defined.

(** * Further properties *)

(** ** Alphabet.h: the table and the membership test *)

Lemma fold_shl_size rest : forall acc,
  Alphabet.acc_size (fold_left Alphabet.shl rest acc)
  = Alphabet.acc_size acc + zlen rest.
Proof.
  induction rest as [|l rest IH]; intros acc; cbn [fold_left].
  - unfold zlen. cbn. lia.
  - rewrite IH, zlen_cons. cbn. lia.
Qed.

Lemma fold_shl_length rest : forall acc,
  zlen (Alphabet.acc_indices (fold_left Alphabet.shl rest acc))
  = zlen (Alphabet.acc_indices acc).
Proof.
  induction rest as [|l rest IH]; intros acc; cbn [fold_left]; [done|].
  rewrite IH. cbn. apply zlen_zupdate.
Qed.

(** What the table holds for [c] after the letters [rest] are shifted in:
    the old entry when [c] is not among them, the number of its last
    occurrence otherwise. *)
Lemma fold_shl_lookup rest : forall acc c,
  0 <= c < zlen (Alphabet.acc_indices acc) ->
  (~ In c rest ->
   zlookup (Alphabet.acc_indices (fold_left Alphabet.shl rest acc)) c
   = zlookup (Alphabet.acc_indices acc) c) /\
  (forall p, zlookup rest p = Some c ->
     (forall p', p < p' -> zlookup rest p' <> Some c) ->
     zlookup (Alphabet.acc_indices (fold_left Alphabet.shl rest acc)) c
     = Some (Alphabet.acc_size acc + p)).
Proof.
  induction rest as [|l rest IH]; intros acc c Hc.
  - split; [done|]. intros p Hp. unfold zlookup in Hp.
    by destruct (0 <=? p).
  - cbn [fold_left].
    destruct (IH (Alphabet.shl acc l) c) as [IH1 IH2].
    { cbn. by rewrite zlen_zupdate. }
    split.
    + intros Hnot. rewrite IH1 by (intros H; apply Hnot; by right).
      cbn. apply zlookup_zupdate_ne. intros ->. apply Hnot. by left.
    + intros p Hp Hlast. rewrite zlookup_cons in Hp.
      destruct (Z.eqb_spec p 0) as [Hp0|Hp0].
      * subst p. injection Hp as ->. rewrite IH1.
        { cbn. rewrite zlookup_zupdate_eq by done. f_equal. lia. }
        intros [i Hi]%In_zlookup.
        pose proof (zlookup_Some_range _ _ _ Hi).
        apply (Hlast (i + 1)); [lia|].
        rewrite zlookup_cons. destruct (Z.eqb_spec (i + 1) 0); [lia|].
        by replace (i + 1 - 1) with i by lia.
      * pose proof (zlookup_Some_range _ _ _ Hp).
        rewrite (IH2 (p - 1) Hp).
        { cbn. f_equal. lia. }
        intros p' Hp' H'. apply (Hlast (p' + 1)); [lia|].
        rewrite zlookup_cons. destruct (Z.eqb_spec (p' + 1) 0); [lia|].
        by replace (p' + 1 - 1) with p' by lia.
Qed.

Lemma last_occurrence (c : Z) (l : list Z) :
  In c l ->
  exists p, zlookup l p = Some c /\
            forall p', p < p' -> zlookup l p' <> Some c.
Proof.
  induction l as [|x l IH]; [done|]. intros Hin.
  destruct (In_dec Z.eq_dec c l) as [Hl|Hl].
  - destruct (IH Hl) as (p & Hp & Hlast).
    pose proof (zlookup_Some_range _ _ _ Hp).
    exists (p + 1). split.
    + rewrite zlookup_cons. destruct (Z.eqb_spec (p + 1) 0); [lia|].
      by replace (p + 1 - 1) with p by lia.
    + intros p' Hp' H'. rewrite zlookup_cons in H'.
      destruct (Z.eqb_spec p' 0); [lia|]. apply (Hlast (p' - 1)); [lia|done].
  - destruct Hin as [->|Hin]; [|done].
    exists 0. split; [done|]. intros p' Hp' H'. rewrite zlookup_cons in H'.
    destruct (Z.eqb_spec p' 0); [lia|]. apply Hl. by eapply zlookup_In.
Qed.

Lemma indices_length letters : zlen (Alphabet.indices letters) = 256.
Proof. unfold Alphabet.indices. by rewrite fold_shl_length. Qed.

Lemma is_exist_In letters c : Alphabet.is_exist letters c = true <-> In c letters.
Proof.
  unfold Alphabet.is_exist.
  assert (forall b, fold_left (fun exist l => exist || (c =? l)) letters b
                    = true <-> b = true \/ In c letters) as H.
  { induction letters as [|l letters IH]; intros b; cbn [fold_left In].
    - tauto.
    - rewrite IH, orb_true_iff, Z.eqb_eq. intuition congruence. }
  rewrite H. intuition discriminate.
Qed.

(** X3.  For a character in the range of the table, [index_of] returns -1
    when the character is not a letter of the alphabet and an index from 0
    below [size()] when it is; the compile-time test [is_exist] tells the
    same. *)
Theorem index_of_nonneg_iff_member (letters : list Z) (c : Z) :
  0 <= c < Alphabet.max_alphabet_size ->
  exists i,
    Alphabet.index_of letters c = Ok i /\
    -1 <= i < Alphabet.size letters /\
    (0 <= i <-> In c letters) /\
    (Alphabet.is_exist letters c = true <-> 0 <= i).
Proof.
  intros Hc. unfold Alphabet.max_alphabet_size in Hc.
  unfold Alphabet.index_of, Alphabet.indices, Alphabet.size.
  set (acc0 := {| Alphabet.acc_indices :=
                    replicate (Z.to_nat Alphabet.max_alphabet_size) (-1);
                  Alphabet.acc_size := 0 |}).
  assert (zlen (Alphabet.acc_indices acc0) = 256) as Hlen by done.
  destruct (fold_shl_lookup letters acc0 c ltac:(lia)) as [Hout Hin].
  pose proof (zlen_nonneg letters) as Hk.
  destruct (In_dec Z.eq_dec c letters) as [Hmem|Hmem].
  - destruct (last_occurrence c letters Hmem) as (p & Hp & Hlast).
    pose proof (zlookup_Some_range _ _ _ Hp).
    rewrite (Hin p Hp Hlast). exists (0 + p). split; [done|].
    rewrite is_exist_In. split; [lia|]. split; (split; intros; first [done|lia]).
  - rewrite (Hout Hmem). cbn [Alphabet.acc_indices acc0].
    rewrite zlookup_replicate by (unfold Alphabet.max_alphabet_size; lia).
    exists (-1). split; [done|]. rewrite is_exist_In.
    split; [lia|]. split; (split; intros; first [done|lia]).
Qed.

Lemma index_of_nonneg_iff_member_witness :
  0 <= 99 < Alphabet.max_alphabet_size /\
  exists i,
    Alphabet.index_of [97; 98; 99; 103] 99 = Ok i /\
    -1 <= i < Alphabet.size [97; 98; 99; 103] /\
    (0 <= i <-> In 99 [97; 98; 99; 103]) /\
    (Alphabet.is_exist [97; 98; 99; 103] 99 = true <-> 0 <= i).
Proof.
  assert (0 <= 99 < Alphabet.max_alphabet_size) as H
    by (unfold Alphabet.max_alphabet_size; lia).
  split; [exact H|]. exact (index_of_nonneg_iff_member [97; 98; 99; 103] 99 H).
Defined.

(** X4.  The index of a letter is its position among the template
    arguments: for a character in the range of the table, [index_of] returns
    the index [i >= 0] exactly when the character stands at position [i] of
    the letters and at no later one.  A letter listed twice keeps its last
    position only; in an alphabet without repetitions [index_of] inverts the
    numbering of the letters. *)
Theorem index_of_last_position (letters : list Z) (c i : Z) :
  0 <= c < Alphabet.max_alphabet_size ->
  (Alphabet.index_of letters c = Ok i /\ 0 <= i) <->
  (zlookup letters i = Some c /\
   forall i', i < i' -> zlookup letters i' <> Some c).
Proof.
  intros Hc. unfold Alphabet.max_alphabet_size in Hc.
  unfold Alphabet.index_of, Alphabet.indices.
  set (acc0 := {| Alphabet.acc_indices :=
                    replicate (Z.to_nat Alphabet.max_alphabet_size) (-1);
                  Alphabet.acc_size := 0 |}).
  assert (zlen (Alphabet.acc_indices acc0) = 256) as Hlen by done.
  destruct (fold_shl_lookup letters acc0 c ltac:(lia)) as [Hout Hin].
  split.
  - intros [Hi Hi0].
    destruct (In_dec Z.eq_dec c letters) as [Hmem|Hmem].
    + destruct (last_occurrence c letters Hmem) as (p & Hp & Hlast).
      rewrite (Hin p Hp Hlast) in Hi. cbn in Hi.
      injection Hi as <-. by replace (0 + p) with p by lia.
    + rewrite (Hout Hmem) in Hi. cbn [Alphabet.acc_indices acc0] in Hi.
      rewrite zlookup_replicate in Hi
        by (unfold Alphabet.max_alphabet_size; lia).
      cbn in Hi. injection Hi as <-. lia.
  - intros [Hp Hlast]. pose proof (zlookup_Some_range _ _ _ Hp).
    rewrite (Hin i Hp Hlast). cbn. split; [f_equal|]; lia.
Qed.

Lemma index_of_last_position_witness :
  0 <= 98 < Alphabet.max_alphabet_size /\
  ((Alphabet.index_of [97; 98; 99; 98] 98 = Ok 3 /\ 0 <= 3) <->
   (zlookup [97; 98; 99; 98] 3 = Some 98 /\
    forall i', 3 < i' -> zlookup [97; 98; 99; 98] i' <> Some 98)).
Proof.
  assert (0 <= 98 < Alphabet.max_alphabet_size) as H
    by (unfold Alphabet.max_alphabet_size; lia).
  split; [exact H|]. exact (index_of_last_position [97; 98; 99; 98] 98 3 H).
Defined.

Lemma is_alphabet_of_app letters pre rest :
  Alphabet.is_alphabet_of letters (pre ++ rest)
  = match Alphabet.is_alphabet_of letters pre with
    | Ok true => Alphabet.is_alphabet_of letters rest
    | r => r
    end.
Proof.
  induction pre as [|c pre IH]; [done|].
  cbn [app Alphabet.is_alphabet_of].
  destruct (Alphabet.index_of letters c) as [i| |]; [|done|done].
  by destruct (i <? 0).
Qed.

(** X5.  A character outside the range of the table, a negative [char] or a
    value from 256 on, makes [index_of] read outside [char_to_index]; and
    [is_alphabet_of] does so on a string that holds such a character after
    letters of the alphabet. *)
Theorem index_of_outside_table (letters : list Z) (c : Z) :
  c < 0 \/ Alphabet.max_alphabet_size <= c ->
  Alphabet.index_of letters c = Undefined /\
  forall pre rest,
    Alphabet.is_alphabet_of letters pre = Ok true ->
    Alphabet.is_alphabet_of letters (pre ++ c :: rest) = Undefined.
Proof.
  intros Hc. unfold Alphabet.max_alphabet_size in Hc.
  assert (Alphabet.index_of letters c = Undefined) as Hu.
  { unfold Alphabet.index_of.
    destruct (zlookup (Alphabet.indices letters) c) as [i|] eqn:E; [|done].
    apply zlookup_Some_range in E. rewrite indices_length in E. lia. }
  split; [done|]. intros pre rest Hpre.
  rewrite is_alphabet_of_app, Hpre. cbn [Alphabet.is_alphabet_of].
  by rewrite Hu.
Qed.

Lemma index_of_outside_table_witness :
  (-23 < 0 \/ Alphabet.max_alphabet_size <= -23) /\
  Alphabet.index_of EnglishLowercaseLetters (-23) = Undefined /\
  forall pre rest,
    Alphabet.is_alphabet_of EnglishLowercaseLetters pre = Ok true ->
    Alphabet.is_alphabet_of EnglishLowercaseLetters (pre ++ -23 :: rest)
    = Undefined.
Proof.
  assert (-23 < 0 \/ Alphabet.max_alphabet_size <= -23) as H by (left; lia).
  split; [exact H|].
  exact (index_of_outside_table EnglishLowercaseLetters (-23) H).
Defined.

Lemma index_of_is_exist letters c :
  0 <= c < 256 ->
  exists i, Alphabet.index_of letters c = Ok i /\
            (i <? 0) = negb (Alphabet.is_exist letters c).
Proof.
  intros Hc. unfold Alphabet.index_of, Alphabet.indices.
  set (acc0 := {| Alphabet.acc_indices :=
                    replicate (Z.to_nat Alphabet.max_alphabet_size) (-1);
                  Alphabet.acc_size := 0 |}).
  assert (zlen (Alphabet.acc_indices acc0) = 256) as Hlen by done.
  destruct (fold_shl_lookup letters acc0 c ltac:(lia)) as [Hout Hin].
  destruct (In_dec Z.eq_dec c letters) as [Hmem|Hmem].
  - destruct (last_occurrence c letters Hmem) as (p & Hp & Hlast).
    pose proof (zlookup_Some_range _ _ _ Hp).
    rewrite (Hin p Hp Hlast). eexists. split; [done|].
    apply is_exist_In in Hmem. rewrite Hmem. cbn. lia.
  - rewrite (Hout Hmem). cbn [Alphabet.acc_indices acc0].
    rewrite zlookup_replicate by (unfold Alphabet.max_alphabet_size; lia).
    eexists. split; [done|].
    destruct (Alphabet.is_exist letters c) eqn:E; [|done].
    by apply is_exist_In in E.
Qed.

(** X6.  On a string of characters in the range of the table the run-time
    check [is_alphabet_of] returns what the compile-time test [is_exist]
    gives on all of its characters: true exactly when each one is a letter of
    the alphabet, on the empty string too. *)
Theorem is_alphabet_of_all_exist (letters str : list Z) :
  Forall (fun c => 0 <= c < Alphabet.max_alphabet_size) str ->
  Alphabet.is_alphabet_of letters str
  = Ok (forallb (Alphabet.is_exist letters) str).
Proof.
  induction 1 as [|c str Hc Hstr IH]; [done|].
  cbn [Alphabet.is_alphabet_of forallb].
  destruct (index_of_is_exist letters c Hc) as (i & -> & Hi).
  rewrite Hi. destruct (Alphabet.is_exist letters c); cbn; [exact IH|done].
Qed.

Lemma is_alphabet_of_all_exist_witness :
  Forall (fun c => 0 <= c < Alphabet.max_alphabet_size)
    [97; 98; 99; 99; 103] /\
  Alphabet.is_alphabet_of [97; 98; 99; 103] [97; 98; 99; 99; 103]
  = Ok (forallb (Alphabet.is_exist [97; 98; 99; 103]) [97; 98; 99; 99; 103]).
Proof.
  assert (Forall (fun c => 0 <= c < Alphabet.max_alphabet_size)
            [97; 98; 99; 99; 103]) as H
    by (repeat constructor; unfold Alphabet.max_alphabet_size; lia).
  split; [exact H|].
  exact (is_alphabet_of_all_exist [97; 98; 99; 103] [97; 98; 99; 99; 103] H).
Defined.

(** ** SuffixTree.h: the alphabets of a tree *)

(** X7.  The terminal symbol is a letter of every [SuffixTreeAlphabet], so
    the check of the constructor on the expanded string answers what
    [is_alphabet_of] answers on the source alone: it passes, fails or is
    undefined with the bytes of the source. *)
Theorem constructor_precondition_of_source (letters source : list Z) :
  constructor_precondition (SuffixTreeAlphabet letters) source
  = Alphabet.is_alphabet_of (SuffixTreeAlphabet letters) source.
Proof.
  unfold constructor_precondition. rewrite is_alphabet_of_app.
  destruct (terminal_in_alphabet letters) as (i & Hi & H0).
  cbn [Alphabet.is_alphabet_of]. rewrite Hi.
  destruct (Z.ltb_spec i 0); [lia|].
  by destruct (Alphabet.is_alphabet_of (SuffixTreeAlphabet letters) source)
    as [[]| |].
Qed.

(** [StandartSuffixTreeAlphabet], the default alphabet of [SuffixTree]: the
    characters from the space to the tilde, in the order of the source. *)
Definition StandartSuffixTreeAlphabet : list Z :=
  SuffixTreeAlphabet
    [32; 33; 34; 35; 36; 37; 38; 39; 40; 41; 42; 43; 44; 45;
     46; 47; 48; 49; 50; 51; 52; 53; 54; 55; 56; 57; 58; 59; 60;
     61; 62; 63; 64; 65; 66; 67; 68; 69; 70; 71; 72; 73; 74; 75;
     76; 77; 78; 79; 80; 81; 82; 83; 84; 85; 86; 87; 88; 89; 90;
     91; 92; 93; 94; 95; 96; 97; 98; 99; 100; 101; 102; 103; 104; 105;
     106; 107; 108; 109; 110; 111; 112; 113; 114; 115; 116; 117; 118; 119; 120;
     121; 122; 123; 124; 125; 126].

(** X8.  The default alphabet holds the terminal symbol and the printable
    ASCII characters, 96 letters: [index_of] returns 0 for the terminal
    symbol, [c - 31] for a character from the space (32) to the tilde (126)
    and -1 for every other character of the table, among them the tabulator
    and the line feed. *)
Theorem standard_alphabet_index (c : Z) :
  0 <= c < Alphabet.max_alphabet_size ->
  Alphabet.size StandartSuffixTreeAlphabet = 96 /\
  Alphabet.index_of StandartSuffixTreeAlphabet c
  = Ok (if c =? terminal_symbol then 0
        else if (32 <=? c) && (c <=? 126) then c - 31 else -1).
Proof.
  intros Hc. split; [reflexivity|].
  assert (forallb
            (fun n : nat =>
               match Alphabet.index_of StandartSuffixTreeAlphabet
                       (Z.of_nat n) with
               | Ok i =>
                   i =? (if Z.of_nat n =? terminal_symbol then 0
                         else if (32 <=? Z.of_nat n) && (Z.of_nat n <=? 126)
                              then Z.of_nat n - 31 else -1)
               | _ => false
               end) (seq 0 256) = true) as Hall by (vm_compute; reflexivity).
  rewrite forallb_forall in Hall.
  specialize (Hall (Z.to_nat c)).
  rewrite Z2Nat.id in Hall by lia.
  destruct (Alphabet.index_of StandartSuffixTreeAlphabet c) as [i| |].
  - f_equal. apply Z.eqb_eq, Hall. apply in_seq.
    unfold Alphabet.max_alphabet_size in Hc. lia.
  - discriminate Hall. apply in_seq.
    unfold Alphabet.max_alphabet_size in Hc. lia.
  - discriminate Hall. apply in_seq.
    unfold Alphabet.max_alphabet_size in Hc. lia.
Qed.

Lemma standard_alphabet_index_witness :
  0 <= 10 < Alphabet.max_alphabet_size /\
  Alphabet.size StandartSuffixTreeAlphabet = 96 /\
  Alphabet.index_of StandartSuffixTreeAlphabet 10
  = Ok (if 10 =? terminal_symbol then 0
        else if (32 <=? 10) && (10 <=? 126) then 10 - 31 else -1).
Proof.
  assert (0 <= 10 < Alphabet.max_alphabet_size) as H
    by (unfold Alphabet.max_alphabet_size; lia).
  split; [exact H|]. exact (standard_alphabet_index 10 H).
Defined.

(** ** SuffixTree.h: the tree the constructor returns *)

(** The tree of a valid source satisfies the invariant of the construction
    with every suffix inserted. *)
Lemma finished_tree (letters source : list Z) (c0 : Z) (fuel : nat)
    (t : SuffixTree) :
  valid_source letters source ->
  within_capacity letters source c0 ->
  (length source + 1 < fuel)%nat ->
  SuffixTree_new letters fuel source c0 = Ok t ->
  exists D S,
    tree_inv letters (source ++ [terminal_symbol]) c0 t D S
      (zlen (source ++ [terminal_symbol]))
      (zlen (source ++ [terminal_symbol]))
      (zlen (source ++ [terminal_symbol])) 0 no_pend /\
    zlen letters + 2 * zlen (source ++ [terminal_symbol]) + 3 < 2147483648 /\
    int32_min + zlen (source ++ [terminal_symbol]) <= c0 <= 0 /\
    1 <= zlen (source ++ [terminal_symbol]) /\
    tx (source ++ [terminal_symbol]) (zlen (source ++ [terminal_symbol]) - 1)
    = terminal_symbol.
Proof.
  intros Hvalid Hcap Hfuel Hnew.
  destruct (construction_spec letters source c0 Hvalid Hcap)
    as (t' & D & S & Hrun & Hinv).
  rewrite (Hrun fuel Hfuel) in Hnew. injection Hnew as <-.
  pose proof (expanded_length source) as Hlen.
  pose proof (zlen_nonneg source) as Hs0.
  destruct Hcap as [Hc1 Hc2].
  exists D, S. split_and!; try done; try lia.
  unfold tx. replace (zlen (source ++ [terminal_symbol]) - 1)
    with (zlen source) by lia.
  by rewrite zlookup_snoc.
Qed.

(** X9.  The tree of a source of [m] bytes has at most [m + 3] nodes, the
    root and the dummy node among them, and one edge for each letter of the
    alphabet below the dummy node, one for each of the [m + 1] suffixes and
    one for each other node: the arenas grow linearly with the source. *)
Theorem tree_size_linear (letters source : list Z) (c0 : Z) (fuel : nat)
    (t : SuffixTree) :
  valid_source letters source ->
  within_capacity letters source c0 ->
  (length source + 1 < fuel)%nat ->
  SuffixTree_new letters fuel source c0 = Ok t ->
  2 <= zlen (node_allocator t) <= zlen source + 3 /\
  zlen (edge_allocator t)
  = Alphabet.size letters + (zlen source + 1) + (zlen (node_allocator t) - 2).
Proof.
  intros Hvalid Hcap Hfuel Hnew.
  destruct (finished_tree _ _ _ _ _ Hvalid Hcap Hfuel Hnew)
    as (D & S & Hinv & _).
  pose proof (expanded_length source) as Hlen.
  pose proof (ti_count_nodes _ _ _ _ _ _ _ _ _ _ _ Hinv) as Hn.
  pose proof (ti_count_edges _ _ _ _ _ _ _ _ _ _ _ Hinv) as He.
  destruct (ti_dummy _ _ _ _ _ _ _ _ _ _ _ Hinv) as [nd Hnd].
  apply zlookup_Some_range in Hnd. unfold Alphabet.size. lia.
Qed.

Lemma tree_size_linear_witness :
  let t := tree_of EnglishLowercaseLetters mississipi in
  SuffixTree_new EnglishLowercaseLetters 12 mississipi 0 = Ok t /\
  2 <= zlen (node_allocator t) <= zlen mississipi + 3 /\
  zlen (edge_allocator t)
  = Alphabet.size EnglishLowercaseLetters + (zlen mississipi + 1)
    + (zlen (node_allocator t) - 2).
Proof.
  cbv zeta. split; [vm_compute; reflexivity|].
  apply (tree_size_linear EnglishLowercaseLetters mississipi 0 12).
  - split; [vm_compute; reflexivity|].
    cbv [In mississipi terminal_symbol]. lia.
  - unfold within_capacity, int32_min.
    change (zlen EnglishLowercaseLetters) with 27.
    change (zlen mississipi) with 10. lia.
  - cbn. lia.
  - vm_compute. reflexivity.
Defined.

(** The tree of main.cpp as a witness. *)
Lemma mississipi_valid : valid_source EnglishLowercaseLetters mississipi.
Proof.
  split; [vm_compute; reflexivity|].
  cbv [In mississipi terminal_symbol]. lia.
Qed.

Lemma mississipi_capacity :
  within_capacity EnglishLowercaseLetters mississipi 0.
Proof.
  unfold within_capacity, int32_min.
  change (zlen EnglishLowercaseLetters) with 27.
  change (zlen mississipi) with 10. lia.
Qed.

Lemma mississipi_fuel : (length mississipi + 1 < 12)%nat.
Proof. cbn. lia. Qed.

Lemma mississipi_tree :
  SuffixTree_new EnglishLowercaseLetters 12 mississipi 0
  = Ok (tree_of EnglishLowercaseLetters mississipi).
Proof. vm_compute. reflexivity. Qed.

(** X10.  In the tree of a valid source the root has the reference 0 and the
    dummy node the reference 1, every node has one slot for each letter, and
    below a node other than the dummy node a slot that is not [no_connection]
    holds the reference of an edge of the tree: its label is a substring of
    the expanded string of at least one character, the first character of
    the label is the letter of the slot, and the edge leads to a leaf, with
    its label up to the end of the expanded string, or to a node other than
    the root and the dummy node. *)
Theorem edges_well_formed (letters source : list Z) (c0 : Z) (fuel : nat)
    (t : SuffixTree) :
  valid_source letters source ->
  within_capacity letters source c0 ->
  (length source + 1 < fuel)%nat ->
  SuffixTree_new letters fuel source c0 = Ok t ->
  expanded_string t = source ++ [terminal_symbol] /\
  root_addr t = 0 /\ get_dummy t = Ok (1, t) /\
  forall v nd,
    zlookup (node_allocator t) v = Some nd ->
    zlen (edges_to_childs nd) = Alphabet.size letters /\
    (v <> 1 -> forall i e,
       zlookup (edges_to_childs nd) i = Some e -> e <> no_connection ->
       exists ed c,
         zlookup (edge_allocator t) e = Some ed /\
         1 <= edge_length ed /\ 0 <= start_position ed /\
         start_position ed + edge_length ed <= zlen (expanded_string t) /\
         zlookup (expanded_string t) (start_position ed) = Some c /\
         Alphabet.index_of letters c = Ok i /\
         ((is_leaf (next_node_addr ed) = true /\
           start_position ed + edge_length ed = zlen (expanded_string t)) \/
          2 <= next_node_addr ed < zlen (node_allocator t))).
Proof.
  intros Hvalid Hcap Hfuel Hnew.
  destruct (finished_tree _ _ _ _ _ Hvalid Hcap Hfuel Hnew)
    as (D & S & Hinv & Hc & Hc0 & HN & Hlast).
  pose proof (ti_text _ _ _ _ _ _ _ _ _ _ _ Hinv) as Htext.
  pose proof (ti_root_addr _ _ _ _ _ _ _ _ _ _ _ Hinv) as Hroot.
  destruct (ti_root _ _ _ _ _ _ _ _ _ _ _ Hinv) as (nd0 & Hnd0 & Hsuf0).
  split; [done|]. split; [done|]. split.
  { unfold get_dummy. erewrite bind_ok; [|by apply read_ok].
    rewrite Hroot. by eapply suffix_connection_of_ok. }
  intros v nd Hv. split.
  { apply (ti_width _ _ _ _ _ _ _ _ _ _ _ Hinv v nd Hv). }
  intros Hv1 i e Hi He.
  pose proof (spells_has_edge t v nd i e) as Hedge.
  destruct (zlookup_in_range (edge_allocator t) e) as [ed Hed].
  { apply (ti_child_valid _ _ _ _ _ _ _ _ _ _ _ Hinv v i e); [|done].
    unfold child, node_of. by rewrite Hv. }
  specialize (Hedge ed Hv Hi He Hed).
  destruct (finished_edge letters _ c0 t D S 0 no_pend Hinv v i e ed
              Hv1 Hedge)
    as (_ & Hlen & Hstart & Hend & Hslot & Htarget).
  exists ed, (tx (source ++ [terminal_symbol]) (start_position ed)).
  rewrite Htext. split_and!; try done.
  - apply zlookup_tx. lia.
  - rewrite <- Hslot. apply index_of_idx. rewrite Hslot.
    apply (inv_child_slot _ _ _ _ _ _ _ _ _ _ _ Hinv v i e).
    unfold child, node_of. by rewrite Hv.
  - destruct Htarget as [[Hleaf ?]|?]; [left|by right].
    split; [|done]. unfold is_leaf. by apply Z.ltb_lt.
Qed.

Lemma edges_well_formed_witness :
  let t := tree_of EnglishLowercaseLetters mississipi in
  expanded_string t = mississipi ++ [terminal_symbol] /\
  root_addr t = 0 /\ get_dummy t = Ok (1, t) /\
  forall v nd,
    zlookup (node_allocator t) v = Some nd ->
    zlen (edges_to_childs nd) = Alphabet.size EnglishLowercaseLetters /\
    (v <> 1 -> forall i e,
       zlookup (edges_to_childs nd) i = Some e -> e <> no_connection ->
       exists ed c,
         zlookup (edge_allocator t) e = Some ed /\
         1 <= edge_length ed /\ 0 <= start_position ed /\
         start_position ed + edge_length ed <= zlen (expanded_string t) /\
         zlookup (expanded_string t) (start_position ed) = Some c /\
         Alphabet.index_of EnglishLowercaseLetters c = Ok i /\
         ((is_leaf (next_node_addr ed) = true /\
           start_position ed + edge_length ed = zlen (expanded_string t)) \/
          2 <= next_node_addr ed < zlen (node_allocator t))).
Proof.
  exact (edges_well_formed EnglishLowercaseLetters mississipi 0 12 _
           mississipi_valid mississipi_capacity mississipi_fuel
           mississipi_tree).
Defined.

(** X11.  The edges below the nodes other than the dummy node form a tree:
    every node other than the root and the dummy node is entered by such an
    edge, and two such edges that lead to the same node or to the same leaf
    are one edge, below one slot of one node. *)
Theorem one_edge_enters_each_node (letters source : list Z) (c0 : Z)
    (fuel : nat) (t : SuffixTree) :
  valid_source letters source ->
  within_capacity letters source c0 ->
  (length source + 1 < fuel)%nat ->
  SuffixTree_new letters fuel source c0 = Ok t ->
  (forall v, 2 <= v < zlen (node_allocator t) ->
     exists u i e ed,
       u <> 1 /\ has_edge t u i e ed /\ next_node_addr ed = v) /\
  (forall u i e ed u' i' e' ed',
     u <> 1 -> u' <> 1 ->
     has_edge t u i e ed -> has_edge t u' i' e' ed' ->
     next_node_addr ed = next_node_addr ed' ->
     u = u' /\ i = i' /\ e = e').
Proof.
  intros Hvalid Hcap Hfuel Hnew.
  destruct (finished_tree _ _ _ _ _ Hvalid Hcap Hfuel Hnew)
    as (D & S & Hinv & Hc & Hc0 & HN & Hlast).
  split.
  - apply (ti_parent _ _ _ _ _ _ _ _ _ _ _ Hinv).
  - intros u i e ed u' i' e' ed' Hu Hu' He He' Hnx.
    destruct (finished_edge _ _ _ _ _ _ _ _ Hinv _ _ _ _ Hu He)
      as (_ & _ & _ & _ & Hslot & [[Hleaf _]|[Hnode _]]).
    + pose proof He as (_ & _ & Hed). pose proof He' as (_ & _ & Hed').
      assert (e = e') as <-
        by apply (leaf_edge_unique _ _ _ _ _ _ _ _ Hinv e e' ed ed'
                    Hed Hed' Hleaf Hnx).
      assert (ed' = ed) as -> by congruence.
      assert (u = u') as <-
        by apply (ti_noshare _ _ _ _ _ _ _ _ _ _ _ Hinv u u' i i' e ed ed
                    Hu Hu' He He').
      destruct (finished_edge _ _ _ _ _ _ _ _ Hinv _ _ _ _ Hu He')
        as (_ & _ & _ & _ & Hslot' & _).
      split; [done|]. split; [congruence|done].
    + by apply (unique_parent _ _ _ _ _ _ _ _ Hinv u i e ed u' i' e' ed').
Qed.

Lemma one_edge_enters_each_node_witness :
  let t := tree_of EnglishLowercaseLetters mississipi in
  (forall v, 2 <= v < zlen (node_allocator t) ->
     exists u i e ed,
       u <> 1 /\ has_edge t u i e ed /\ next_node_addr ed = v) /\
  (forall u i e ed u' i' e' ed',
     u <> 1 -> u' <> 1 ->
     has_edge t u i e ed -> has_edge t u' i' e' ed' ->
     next_node_addr ed = next_node_addr ed' ->
     u = u' /\ i = i' /\ e = e').
Proof.
  exact (one_edge_enters_each_node EnglishLowercaseLetters mississipi 0 12 _
           mississipi_valid mississipi_capacity mississipi_fuel
           mississipi_tree).
Defined.

Lemma text_seg_drop (s : list Z) (j : nat) :
  text_seg s (Z.of_nat j) (zlen s - Z.of_nat j) = drop j s.
Proof.
  unfold text_seg. rewrite Nat2Z.id. apply take_ge.
  rewrite length_drop. unfold zlen. lia.
Qed.

(** X12.  Every suffix of the expanded string, from the whole string down to
    the terminal symbol alone, is the string of the edge labels on a path
    from the root to a leaf. *)
Theorem every_suffix_reaches_leaf (letters source : list Z) (c0 : Z)
    (fuel : nat) (t : SuffixTree) :
  valid_source letters source ->
  within_capacity letters source c0 ->
  (length source + 1 < fuel)%nat ->
  SuffixTree_new letters fuel source c0 = Ok t ->
  forall j : nat, (j <= length source)%nat ->
    exists l,
      is_leaf l = true /\
      spells t l (drop j (source ++ [terminal_symbol])).
Proof.
  intros Hvalid Hcap Hfuel Hnew j Hj.
  destruct (finished_tree _ _ _ _ _ Hvalid Hcap Hfuel Hnew)
    as (D & S & Hinv & Hc & Hc0 & HN & Hlast).
  pose proof (expanded_length source) as Hlen.
  destruct (leaf_of_suffix letters _ c0 (expanded_in_alphabet _ _ Hvalid)
              (expanded_terminal _ _ Hvalid) HN t D S 0 no_pend Hinv
              (Z.of_nat j)) as (l & Hl & Hsp).
  { unfold zlen in *. lia. }
  exists l. split; [unfold is_leaf; by apply Z.ltb_lt|].
  by rewrite text_seg_drop in Hsp.
Qed.

Lemma every_suffix_reaches_leaf_witness :
  let t := tree_of EnglishLowercaseLetters mississipi in
  exists l,
    is_leaf l = true /\
    spells t l (drop 7 (mississipi ++ [terminal_symbol])).
Proof.
  apply (every_suffix_reaches_leaf EnglishLowercaseLetters mississipi 0 12 _
           mississipi_valid mississipi_capacity mississipi_fuel
           mississipi_tree 7%nat).
  vm_compute. lia.
Defined.

(** X13.  The string of the edge labels on a path from the root to a leaf is
    a suffix of the expanded string, and all paths to one leaf read the same
    string. *)
Theorem leaf_paths_spell_suffixes (letters source : list Z) (c0 : Z)
    (fuel : nat) (t : SuffixTree) :
  valid_source letters source ->
  within_capacity letters source c0 ->
  (length source + 1 < fuel)%nat ->
  SuffixTree_new letters fuel source c0 = Ok t ->
  forall l w, is_leaf l = true -> spells t l w ->
    (exists j : nat, (j <= length source)%nat /\
                     w = drop j (source ++ [terminal_symbol])) /\
    (forall w', spells t l w' -> w' = w).
Proof.
  intros Hvalid Hcap Hfuel Hnew l w Hl Hsp.
  destruct (finished_tree _ _ _ _ _ Hvalid Hcap Hfuel Hnew)
    as (D & S & Hinv & Hc & Hc0 & HN & Hlast).
  pose proof (expanded_length source) as Hlen.
  unfold is_leaf in Hl. apply Z.ltb_lt in Hl. split.
  - destruct (suffix_of_leaf letters _ c0 HN t D S 0 no_pend Hinv l w Hsp Hl)
      as (j & Hj & ->).
    exists (Z.to_nat j). split; [unfold zlen in *; lia|].
    rewrite <- text_seg_drop. f_equal; lia.
  - intros w' Hsp'.
    by apply (leaf_path_unique letters _ c0 HN t D S 0 no_pend Hinv l).
Qed.

Lemma mississipi_terminal_path :
  spells (tree_of EnglishLowercaseLetters mississipi) (-11) [terminal_symbol].
Proof.
  set (t := tree_of EnglishLowercaseLetters mississipi).
  pose (ed := {| start_position := 10; edge_length := 1;
                 next_node_addr := -11 |}).
  change (spells t (next_node_addr ed) ([] ++ label t ed)).
  destruct (zlookup (node_allocator t) 0) as [nd|] eqn:Hnd;
    [|by vm_compute in Hnd].
  apply (spells_edge t 0 nd 0 42 ed []).
  - apply (spells_root t).
  - exact Hnd.
  - vm_compute in Hnd. injection Hnd as <-. reflexivity.
  - done.
  - by vm_compute.
Qed.

Lemma leaf_paths_spell_suffixes_witness :
  let t := tree_of EnglishLowercaseLetters mississipi in
  (exists j : nat, (j <= length mississipi)%nat /\
                   [terminal_symbol] =
                   drop j (mississipi ++ [terminal_symbol])) /\
  (forall w', spells t (-11) w' -> w' = [terminal_symbol]).
Proof.
  apply (leaf_paths_spell_suffixes EnglishLowercaseLetters mississipi 0 12 _
           mississipi_valid mississipi_capacity mississipi_fuel
           mississipi_tree (-11) [terminal_symbol]).
  - reflexivity.
  - exact mississipi_terminal_path.
Defined.

(** ** SuffixTree.h: queries outside the letters *)

Lemma index_of_not_member letters c :
  ~ In c letters ->
  Alphabet.index_of letters c = Ok (-1) \/
  Alphabet.index_of letters c = Undefined.
Proof.
  intros Hc. unfold Alphabet.index_of.
  destruct (zlookup (Alphabet.indices letters) c) as [i|] eqn:E; [|by right].
  left. pose proof (zlookup_Some_range _ _ _ E) as Hr.
  rewrite indices_length in Hr. unfold Alphabet.indices in E.
  set (acc0 := {| Alphabet.acc_indices :=
                    replicate (Z.to_nat Alphabet.max_alphabet_size) (-1);
                  Alphabet.acc_size := 0 |}) in E.
  destruct (fold_shl_lookup letters acc0 c) as [Hout _]; [done|].
  rewrite (Hout Hc) in E. cbn [Alphabet.acc_indices acc0] in E.
  rewrite zlookup_replicate in E
    by (unfold Alphabet.max_alphabet_size; lia).
  by injection E as <-.
Qed.

Lemma suffix_text_occ (source w : list Z) z :
  z = zlen source - zlen w ->
  text_occ (source ++ [terminal_symbol]) z (w ++ [terminal_symbol]) ->
  exists pre, source = pre ++ w.
Proof.
  intros -> [Hz Hocc]. unfold text_seg in Hocc.
  exists (take (Z.to_nat (zlen source - zlen w)) source).
  rewrite drop_app_le in Hocc by (unfold zlen in *; lia).
  rewrite take_ge in Hocc
    by (rewrite length_app, length_drop; unfold zlen in *;
        rewrite length_app; cbn; lia).
  apply app_inj_tail in Hocc as [Hocc _].
  rewrite <- (take_drop (Z.to_nat (zlen source - zlen w)) source) at 1.
  by rewrite Hocc.
Qed.

Lemma text_occ_suffix (pre w : list Z) :
  text_occ ((pre ++ w) ++ [terminal_symbol]) (zlen pre)
    (w ++ [terminal_symbol]).
Proof.
  split; [apply zlen_nonneg|]. unfold text_seg, zlen.
  rewrite !Nat2Z.id, <- app_assoc, drop_app_length.
  by apply take_ge.
Qed.



(** X15.  A pattern that goes on after a terminal symbol: when the letters
    before the terminal symbol end the source, the loop of [index_of] stands
    on a leaf and reads [node_allocator] at the negative leaf reference for
    the next character, whatever it is; when they do not, [index_of]
    returns -1. *)
Theorem index_of_past_terminal (letters source w : list Z) (c : Z)
    (rest : list Z) (c0 : Z) (fuel : nat) (t : SuffixTree) :
  valid_source letters source ->
  within_capacity letters source c0 ->
  (length source + 1 < fuel)%nat ->
  SuffixTree_new letters fuel source c0 = Ok t ->
  Alphabet.is_alphabet_of letters w = Ok true ->
  ~ In terminal_symbol w ->
  ((exists pre, source = pre ++ w) /\
   index_of letters (w ++ terminal_symbol :: c :: rest) t = Undefined) \/
  ((~ exists pre, source = pre ++ w) /\
   index_of letters (w ++ terminal_symbol :: c :: rest) t = Ok (-1, t)).
Proof.
  intros Hvalid Hcap Hfuel Hnew Hw Hno.
  destruct (finished_tree _ _ _ _ _ Hvalid Hcap Hfuel Hnew)
    as (D & S & Hinv & Hc & Hc0 & HN & Hlast).
  pose proof (expanded_length source) as Hlen.
  destruct (index_of_past_terminal_spec letters _ c0
              (expanded_in_alphabet _ _ Hvalid)
              (expanded_terminal _ _ Hvalid) HN t D S 0 no_pend Hinv w c rest
              (pattern_ok _ _ _ Hlen Hw Hno)) as [[Hnone Hres]|[Hocc Hres]];
    rewrite Hlast in *; [right|left].
  - split; [|done]. intros [pre ->]. apply (Hnone (zlen pre)).
    apply text_occ_suffix.
  - split; [|done]. eapply suffix_text_occ; [|exact Hocc]; lia.
Qed.

Lemma index_of_past_terminal_witness :
  let t := tree_of EnglishLowercaseLetters mississipi in
  ((exists pre, mississipi = pre ++ [112; 105]) /\
   index_of EnglishLowercaseLetters
     ([112; 105] ++ terminal_symbol :: 97 :: []) t = Undefined) \/
  ((~ exists pre, mississipi = pre ++ [112; 105]) /\
   index_of EnglishLowercaseLetters
     ([112; 105] ++ terminal_symbol :: 97 :: []) t = Ok (-1, t)).
Proof.
  apply (index_of_past_terminal EnglishLowercaseLetters mississipi
           [112; 105] 97 [] 0 12 _ mississipi_valid mississipi_capacity
           mississipi_fuel mississipi_tree).
  - vm_compute. reflexivity.
  - cbv [In terminal_symbol]. lia.
Defined.

(** X16.  A pattern with a character that is no letter of the alphabet,
    after letters other than the terminal symbol: when the loop of
    [index_of] has answered -1 on the letters or stands inside an edge after
    them, [index_of] returns -1; when it stands on a node after them, as it
    does before the first character of a pattern, it reads
    [edges_to_childs[-1]] of this node, or the table of the alphabet outside
    its range. *)
Theorem index_of_unknown_character (letters source w : list Z) (c : Z)
    (rest : list Z) (c0 : Z) (fuel : nat) (t : SuffixTree) :
  valid_source letters source ->
  within_capacity letters source c0 ->
  (length source + 1 < fuel)%nat ->
  SuffixTree_new letters fuel source c0 = Ok t ->
  Alphabet.is_alphabet_of letters w = Ok true ->
  ~ In terminal_symbol w ->
  ~ In c letters ->
  exists r,
    index_of_loop letters w (locator_start letters t) t = Ok (r, t) /\
    index_of letters (w ++ c :: rest) t
    = match r with
      | Return _ => Ok (-1, t)
      | Continue st =>
          if edge_addr (loc_iterator st) =? no_connection then Undefined
          else Ok (-1, t)
      end.
Proof.
  intros Hvalid Hcap Hfuel Hnew Hw Hno Hc.
  destruct (finished_tree _ _ _ _ _ Hvalid Hcap Hfuel Hnew)
    as (D & S & Hinv & Hcp & Hc0 & HN & Hlast).
  pose proof (expanded_length source) as Hlen.
  rewrite (locator_start_eq letters _ c0 (expanded_in_alphabet _ _ Hvalid)
             HN t D S 0 no_pend Hinv).
  apply (index_of_unknown_spec letters _ c0
           (expanded_in_alphabet _ _ Hvalid) HN t D S 0 no_pend Hinv w c rest
           (pattern_ok _ _ _ Hlen Hw Hno) (index_of_not_member _ _ Hc)).
Qed.

Lemma index_of_unknown_character_witness :
  let t := tree_of EnglishLowercaseLetters mississipi in
  exists r,
    index_of_loop EnglishLowercaseLetters [105; 115]
      (locator_start EnglishLowercaseLetters t) t = Ok (r, t) /\
    index_of EnglishLowercaseLetters ([105; 115] ++ 77 :: [115]) t
    = match r with
      | Return _ => Ok (-1, t)
      | Continue st =>
          if edge_addr (loc_iterator st) =? no_connection then Undefined
          else Ok (-1, t)
      end.
Proof.
  apply (index_of_unknown_character EnglishLowercaseLetters mississipi
           [105; 115] 77 [115] 0 12 _ mississipi_valid mississipi_capacity
           mississipi_fuel mississipi_tree).
  - vm_compute. reflexivity.
  - cbv [In terminal_symbol]. lia.
  - cbv [In EnglishLowercaseLetters SuffixTreeAlphabet map seq Z.of_nat
         Pos.of_succ_nat Pos.succ terminal_symbol]. lia.
Defined.

(** ** SuffixTree.h: a source outside the alphabet *)

(** X17.  With the assertion of the constructor compiled out, a source whose
    first byte is no letter of the alphabet makes the construction read
    outside a container at once: the alphabet's table for a byte outside
    its range, [edges_to_childs[-1]] of the root otherwise. *)
Theorem constructor_first_byte_unknown (letters rest : list Z) (c c0 : Z)
    (fuel : nat) :
  ~ In c letters ->
  zlen letters + 2 * zlen (c :: rest) + 5 < 2147483648 ->
  (0 < fuel)%nat ->
  SuffixTree_new letters fuel (c :: rest) c0 = Undefined.
Proof.
  intros Hc Hcap Hfuel.
  pose proof (zlen_nonneg letters) as Hk.
  pose proof (zlen_nonneg rest) as Hr.
  assert (zlen ((c :: rest) ++ [terminal_symbol]) = zlen rest + 2) as Hlen.
  { rewrite zlen_app, zlen_cons. change (zlen [terminal_symbol]) with 1.
    lia. }
  rewrite zlen_cons in Hcap.
  remember ((c :: rest) ++ [terminal_symbol]) as s eqn:Hs.
  assert (zlookup s 0 = Some c) as Hfirst.
  { rewrite Hs. cbn [app]. by rewrite zlookup_cons. }
  pose proof (init_run letters s c0 ltac:(lia) ltac:(lia)) as Hinit.
  unfold SuffixTree_new. cbv zeta. rewrite <- Hs. fold (empty_tree s c0).
  unfold bind in Hinit |- *.
  destruct (allocate_node letters _) as [[r u1]| |]; [|done|done].
  destruct (create_dummy_node letters (set_root u1 r))
    as [[d u2]| |]; [|done|done].
  unfold read in Hinit |- *.
  destruct (assign_suffix_connection (root_addr u2) d u2)
    as [[[] u3]| |]; [|done|done].
  injection Hinit as ->.
  destruct fuel as [|fuel]; [lia|].
  assert (forall u, expanded_string u = s ->
            is_position_in_node_without_path letters 0
              {| node_addr := 0; edge_addr := no_connection; position := 0 |}
              u = Undefined) as Htest.
  { intros u Hu. unfold is_position_in_node_without_path.
    erewrite bind_ok; cycle 1.
    { unfold char_at. apply read_ok. rewrite Hu, Hlen.
      destruct (Z.eqb_spec 0 (zlen rest + 2)); [lia|]. by rewrite Hfirst. }
    cbn [position Z.eqb]. unfold bind, alphabet_index_of, read.
    destruct (index_of_not_member letters c Hc) as [-> | ->]; [|done].
    unfold edge_to_child, bind, get_node_by, read.
    destruct (zlookup (node_allocator u) _) as [nd|]; cbn [of_option];
      [|done].
    destruct (zlookup (edges_to_childs nd) (-1)) as [e|] eqn:E; [|done].
    apply zlookup_Some_range in E. lia. }
  assert (second_stage letters (Datatypes.S fuel) 0
            {| node_addr := 0; edge_addr := no_connection; position := 0 |}
            (init_tree letters s c0)
          = Undefined) as Hsecond.
  { unfold second_stage.
    erewrite bind_ok; [|reflexivity].
    erewrite bind_ok; [|reflexivity].
    erewrite bind_ok; [|reflexivity].
    cbn [fst snd split_edges].
    erewrite bind_ok; [|reflexivity].
    erewrite bind_ok; [|reflexivity].
    cbn [fst snd add_leaves].
    unfold bind at 1. by rewrite Htest. }
  unfold construct_tree, bind, read.
  change (root_addr (init_tree letters s c0)) with 0.
  cbn [construct_steps]. unfold bind, read.
  change (expanded_string (init_tree letters s c0)) with s. rewrite Hlen.
  destruct (Z.ltb_spec 0 (zlen rest + 2)); [|lia].
  unfold first_stage, ret. by rewrite Hsecond.
Qed.

Lemma constructor_first_byte_unknown_witness :
  SuffixTree_new EnglishLowercaseLetters 12 (77 :: mississipi) 0 = Undefined.
Proof.
  apply (constructor_first_byte_unknown EnglishLowercaseLetters
           mississipi 77 0 12).
  - cbv [In EnglishLowercaseLetters SuffixTreeAlphabet map seq Z.of_nat
         Pos.of_succ_nat Pos.succ terminal_symbol]. lia.
  - change (zlen EnglishLowercaseLetters) with 27.
    change (zlen (77 :: mississipi)) with 11. lia.
  - lia.
Defined.
